(** * Auraverse ETL pipeline: the fragment detector, resolver and normalizer
      of [etl_parser.py], embedded as Rocq functions.

    The text handed to [parse_file] is a Python [str]; it is modelled as a
    list of 8-bit characters, read as the code points 0..255 (Latin-1), on
    which the character classes of Python ([str.isspace], [\s], [\w],
    [str.splitlines]) are tabulated exactly.  Offsets are natural numbers:
    every call site passes match offsets, which are never negative.
    Confidences are Python floats; they are modelled as exact rationals. *)

From Stdlib Require Import List String Ascii Arith Bool ZArith QArith Qminmax Lia.
From Stdlib Require Import Permutation Sorted.
Import ListNotations.

Local Open Scope nat_scope.
Local Open Scope list_scope.

Set Implicit Arguments.
Set Warnings "-register-all".

(* ================================================================== *)
(** * Characters and Python string primitives *)
(* ================================================================== *)

Definition str := list ascii.

Definition code (c : ascii) : nat := nat_of_ascii c.

Definition in_range (lo hi : nat) (c : ascii) : bool :=
  (lo <=? code c) && (code c <=? hi).

Definition chr_eq (a : ascii) : ascii -> bool := Ascii.eqb a.

Arguments chr_eq a _ : simpl never.
Arguments in_range lo hi c : simpl never.

Definition LF : ascii := "010"%char.
Definition CR : ascii := "013"%char.
Definition TAB : ascii := "009"%char.
Definition DQ : ascii := "034"%char.
Definition SQ : ascii := "'"%char.
Definition BSL : ascii := "\"%char.

(** [str.isspace] and the regex class [\s] on code points below 256. *)
Definition is_space (c : ascii) : bool :=
  in_range 9 13 c || in_range 28 32 c || (code c =? 133) || (code c =? 160).

(** The line boundaries of [str.splitlines] below 256; CR LF is handled by
    [splitlines_aux]. *)
Definition is_linebreak (c : ascii) : bool :=
  in_range 10 13 c || in_range 28 30 c || (code c =? 133).

Definition is_digit (c : ascii) : bool := in_range 48 57 c.
Definition is_upper (c : ascii) : bool := in_range 65 90 c.
Definition is_lower (c : ascii) : bool := in_range 97 122 c.
Definition is_alpha (c : ascii) : bool := is_upper c || is_lower c.
Definition is_alnum (c : ascii) : bool := is_alpha c || is_digit c.

(** The regex class [\w] of a [str] pattern (Unicode alphanumerics and the
    underscore) on code points below 256. *)
Definition is_word (c : ascii) : bool :=
  is_alnum c || (code c =? 95)
  || (code c =? 170) || (code c =? 178) || (code c =? 179) || (code c =? 181)
  || (code c =? 185) || (code c =? 186) || in_range 188 190 c
  || in_range 192 214 c || in_range 216 246 c || in_range 248 255 c.

(** [str.upper] on the characters whose upper case is again below 256. *)
Definition upper_char (c : ascii) : ascii :=
  if is_lower c || ((in_range 224 254 c) && negb (code c =? 247))
  then ascii_of_nat (code c - 32) else c.

Definition upper (s : str) : str := map upper_char s.

(** A string literal as a text.  [esc] additionally reads the two-character
    sequences [\n], [\r], [\t], [\q] (double quote) and [\\]. *)
Definition lit (s : string) : str := list_ascii_of_string s.

Fixpoint unescape (s : str) : str :=
  match s with
  | [] => []
  | c :: s' =>
      match s' with
      | d :: s'' =>
          if chr_eq BSL c then
            (if chr_eq "n"%char d then LF
             else if chr_eq "r"%char d then CR
             else if chr_eq "t"%char d then TAB
             else if chr_eq "q"%char d then DQ
             else d) :: unescape s''
          else c :: unescape s'
      | [] => [c]
      end
  end.

Definition esc (s : string) : str := unescape (lit s).

(** [t[a:b]] for non-negative [a], [b]. *)
Definition slice (t : str) (a b : nat) : str := firstn (b - a) (skipn a t).

Fixpoint dropwhile (p : ascii -> bool) (s : str) : str :=
  match s with
  | [] => []
  | c :: s' => if p c then dropwhile p s' else s
  end.

Definition strip_chars (p : ascii -> bool) (s : str) : str :=
  rev (dropwhile p (rev (dropwhile p s))).

(** [s.strip()]. *)
Definition strip (s : str) : str := strip_chars is_space s.

Fixpoint str_eqb (a b : str) : bool :=
  match a, b with
  | [], [] => true
  | x :: a', y :: b' => Ascii.eqb x y && str_eqb a' b'
  | _, _ => false
  end.

Fixpoint is_prefix (p t : str) : bool :=
  match p, t with
  | [], _ => true
  | x :: p', y :: t' => Ascii.eqb x y && is_prefix p' t'
  | _ :: _, [] => false
  end.

(** [p in t]. *)
Fixpoint contains_sub (p t : str) : bool :=
  is_prefix p t ||
  match t with
  | [] => false
  | _ :: t' => contains_sub p t'
  end.

(** [c in t] for a single character. *)
Definition contains_char (c : ascii) (t : str) : bool := existsb (chr_eq c) t.

(** [t.count(c)] for a single character. *)
Definition count_char (c : ascii) (t : str) : nat :=
  List.length (filter (chr_eq c) t).

(** [t.split(d)] for a single-character separator. *)
Fixpoint split_char_aux (d : ascii) (cur : str) (t : str) : list str :=
  match t with
  | [] => [rev cur]
  | c :: t' =>
      if chr_eq d c then rev cur :: split_char_aux d [] t'
      else split_char_aux d (c :: cur) t'
  end.

Definition split_char (d : ascii) (t : str) : list str := split_char_aux d [] t.

(** [t.split(d, 1)]: the part before the first [d] and the part after it. *)
Fixpoint split_once (d : ascii) (t : str) : option (str * str) :=
  match t with
  | [] => None
  | c :: t' =>
      if chr_eq d c then Some ([], t')
      else match split_once d t' with
           | Some (a, b) => Some (c :: a, b)
           | None => None
           end
  end.

(** [t.find(p, lo, hi)]: lowest index [i >= lo] with [t[i:i+len(p)] == p] and
    [i + len(p) <= min(hi, len(t))]; [None] stands for [-1]. *)
Fixpoint find_from (p : str) (i : nat) (hi : nat) (rest : str) : option nat :=
  if (i + List.length p <=? hi) && is_prefix p rest then Some i
  else match rest with
       | [] => None
       | _ :: rest' => find_from p (S i) hi rest'
       end.

Definition find_sub (p t : str) (lo hi : nat) : option nat :=
  if lo <=? List.length t then find_from p lo hi (skipn lo t) else None.

(** [g.rfind(c)]: index of the last occurrence. *)
Fixpoint rfind_aux (c : ascii) (i : nat) (t : str) (last : option nat) : option nat :=
  match t with
  | [] => last
  | x :: t' => rfind_aux c (S i) t' (if chr_eq c x then Some i else last)
  end.

Definition rfind_char (c : ascii) (t : str) : option nat := rfind_aux c 0 t None.

(** [t.splitlines()]: [cur] is the current line reversed, [after_cr] tells
    that the previous character was a CR, whose LF belongs to the same line
    boundary. *)
Fixpoint splitlines_aux (cur : str) (after_cr : bool) (t : str) : list str :=
  match t with
  | [] => match cur with [] => [] | _ => [rev cur] end
  | c :: t' =>
      if after_cr && chr_eq LF c then splitlines_aux [] false t'
      else if is_linebreak c then rev cur :: splitlines_aux [] (chr_eq CR c) t'
      else splitlines_aux (c :: cur) false t'
  end.

Definition splitlines (t : str) : list str := splitlines_aux [] false t.

(** Decimal digits of a number, for the synthetic column names [col_i]. *)
Fixpoint digits_aux (fuel n : nat) (acc : str) : str :=
  match fuel with
  | 0 => acc
  | S f =>
      let d := ascii_of_nat (48 + n mod 10) in
      if n <? 10 then d :: acc else digits_aux f (n / 10) (d :: acc)
  end.

Definition str_of_nat (n : nat) : str := digits_aux (S n) n [].

(* ================================================================== *)
(** * The [re] module: a backtracking matcher for the patterns of the parser *)
(* ================================================================== *)

(** Every repetition in the patterns of [etl_parser.py] repeats a single
    character class, and every look-around tests one character, so the
    syntax below has exactly these forms.  [rmatch] returns the end states
    of all ways to match at the current position, in the order in which a
    backtracking matcher tries them: its head is the match [re] reports. *)

Module Re.

Record mstate := MState {
  m_pos : nat;                            (* offset of the next character *)
  m_prev : option ascii;                  (* the character before it *)
  m_rest : str;                           (* the text from [m_pos] on *)
  m_caps : list (nat * (nat * nat))       (* group number, (start, end) *)
}.

Inductive regex :=
| REps
| RChar (p : ascii -> bool)
| RSeq (a b : regex)
| RAlt (a b : regex)
| RRep (greedy : bool) (lo : nat) (hi : option nat) (p : ascii -> bool)
| ROpt (a : regex)
| RGroup (i : nat) (a : regex)
| RBol (multiline : bool)
| REol
| RWordB
| RAhead (p : ascii -> bool)
| RBehind (p : ascii -> bool).

Definition opt_word (c : option ascii) : bool :=
  match c with Some x => is_word x | None => false end.

Definition hi_allows (hi : option nat) : bool :=
  match hi with Some 0 => false | _ => true end.

Definition hi_pred (hi : option nat) : option nat :=
  match hi with Some h => Some (pred h) | None => None end.

(** The states after consuming 0, 1, 2, ... characters of class [p], at
    most [hi] of them. *)
Fixpoint runs (p : ascii -> bool) (hi : option nat) (pos : nat)
    (prev : option ascii) (rest : str) (caps : list (nat * (nat * nat)))
    : list mstate :=
  MState pos prev rest caps ::
  match rest with
  | c :: rest' =>
      if p c && hi_allows hi
      then runs p (hi_pred hi) (S pos) (Some c) rest' caps
      else []
  | [] => []
  end.

Definition set_cap (i : nat) (a : nat) (s : mstate) : mstate :=
  MState (m_pos s) (m_prev s) (m_rest s) ((i, (a, m_pos s)) :: m_caps s).

Fixpoint rmatch (r : regex) (s : mstate) : list mstate :=
  match r with
  | REps => [s]
  | RChar p =>
      match m_rest s with
      | c :: rest' =>
          if p c then [MState (S (m_pos s)) (Some c) rest' (m_caps s)] else []
      | [] => []
      end
  | RSeq a b => flat_map (rmatch b) (rmatch a s)
  | RAlt a b => rmatch a s ++ rmatch b s
  | RRep greedy lo hi p =>
      let l := skipn lo (runs p hi (m_pos s) (m_prev s) (m_rest s) (m_caps s)) in
      if greedy then rev l else l
  | ROpt a => rmatch a s ++ [s]
  | RGroup i a => map (set_cap i (m_pos s)) (rmatch a s)
  | RBol multiline =>
      match m_prev s with
      | None => [s]
      | Some c => if multiline && chr_eq LF c then [s] else []
      end
  | REol =>
      match m_rest s with
      | [] => [s]
      | c :: [] => if chr_eq LF c then [s] else []
      | _ => []
      end
  | RWordB =>
      if xorb (opt_word (m_prev s)) (opt_word (hd_error (m_rest s)))
      then [s] else []
  | RAhead p =>
      match m_rest s with
      | c :: _ => if p c then [s] else []
      | [] => []
      end
  | RBehind p =>
      match m_prev s with
      | Some c => if p c then [s] else []
      | None => []
      end
  end.

(** A match object: [m.start()], [m.end()] and the group spans. *)
Record re_match := ReMatch {
  mt_start : nat;
  mt_end : nat;
  mt_caps : list (nat * (nat * nat))
}.

Fixpoint lookup_cap (i : nat) (caps : list (nat * (nat * nat))) : option (nat * nat) :=
  match caps with
  | [] => None
  | (j, sp) :: caps' => if i =? j then Some sp else lookup_cap i caps'
  end.

(** [(m.start(i), m.end(i))].  Every group read by the parser takes part in
    every match of its pattern; the spare value stands for Python's -1. *)
Definition group_span (m : re_match) (i : nat) : nat * nat :=
  match lookup_cap i (mt_caps m) with
  | Some sp => sp
  | None => (0, 0)
  end.

Definition match_at (r : regex) (pos : nat) (prev : option ascii) (rest : str)
    : option re_match :=
  match rmatch r (MState pos prev rest []) with
  | s' :: _ => Some (ReMatch pos (m_pos s') (m_caps s'))
  | [] => None
  end.

(** [re.match(r, t)]. *)
Definition re_match_start (r : regex) (t : str) : option re_match :=
  match_at r 0 None t.

Fixpoint search_from (r : regex) (pos : nat) (prev : option ascii) (rest : str)
    : option re_match :=
  match match_at r pos prev rest with
  | Some m => Some m
  | None =>
      match rest with
      | c :: rest' => search_from r (S pos) (Some c) rest'
      | [] => None
      end
  end.

(** [re.search(r, t)]. *)
Definition re_search (r : regex) (t : str) : option re_match :=
  search_from r 0 None t.

(** [re.finditer(r, t)]: the non-overlapping matches from left to right.
    [skip] counts the characters still covered by the previous match.  The
    patterns of the parser never match the empty string. *)
Fixpoint finditer_from (r : regex) (skip : nat) (pos : nat)
    (prev : option ascii) (rest : str) : list re_match :=
  match skip with
  | S k =>
      match rest with
      | c :: rest' => finditer_from r k (S pos) (Some c) rest'
      | [] => []
      end
  | 0 =>
      match match_at r pos prev rest with
      | Some m =>
          m :: match rest with
               | c :: rest' =>
                   finditer_from r (pred (mt_end m - pos)) (S pos) (Some c) rest'
               | [] => []
               end
      | None =>
          match rest with
          | c :: rest' => finditer_from r 0 (S pos) (Some c) rest'
          | [] => []
          end
      end
  end.

Definition finditer (r : regex) (t : str) : list re_match :=
  finditer_from r 0 0 None t.

(** [len(re.findall(r, t))]. *)
Definition findall_count (r : regex) (t : str) : nat :=
  List.length (finditer r t).

(** [re.sub(r, repl, t)], the replacement computed from the match. *)
Fixpoint sub_pieces (repl : re_match -> str) (t : str) (from : nat)
    (ms : list re_match) : str :=
  match ms with
  | [] => skipn from t
  | m :: ms' =>
      slice t from (mt_start m) ++ repl m ++ sub_pieces repl t (mt_end m) ms'
  end.

Definition re_sub (r : regex) (repl : re_match -> str) (t : str) : str :=
  sub_pieces repl t 0 (finditer r t).

(** [re.split(r, t)] for a pattern without groups. *)
Fixpoint split_pieces (t : str) (from : nat) (ms : list re_match) : list str :=
  match ms with
  | [] => [skipn from t]
  | m :: ms' => slice t from (mt_start m) :: split_pieces t (mt_end m) ms'
  end.

Definition re_split (r : regex) (t : str) : list str :=
  split_pieces t 0 (finditer r t).

(** ** Pattern building blocks *)

Fixpoint rseq (rs : list regex) : regex :=
  match rs with
  | [] => REps
  | [r] => r
  | r :: rs' => RSeq r (rseq rs')
  end.

Fixpoint ralt (rs : list regex) : regex :=
  match rs with
  | [] => REps
  | [r] => r
  | r :: rs' => RAlt r (ralt rs')
  end.

Definition rch (c : ascii) : regex := RChar (chr_eq c).

(** A literal, and a literal under [re.IGNORECASE] (the letters of the
    parser's patterns are ASCII; below 256 only the other ASCII case of a
    letter matches it). *)
Definition rlit (s : string) : regex := rseq (map rch (lit s)).

Definition lower_char (c : ascii) : ascii :=
  if is_upper c then ascii_of_nat (code c + 32) else c.

Definition chr_eq_i (a : ascii) : ascii -> bool :=
  fun c => Ascii.eqb (lower_char a) (lower_char c).

Definition rlit_i (s : string) : regex :=
  rseq (map (fun c => RChar (chr_eq_i c)) (lit s)).

Definition any_char : ascii -> bool := fun _ => true.       (* [\s\S] *)
Definition not_char (c : ascii) : ascii -> bool := fun x => negb (chr_eq c x).
Definition dot : ascii -> bool := not_char LF.              (* . *)
Definition one_of (s : string) : ascii -> bool := fun x => contains_char x (lit s).

Definition star (p : ascii -> bool) : regex := RRep true 0 None p.
Definition plus (p : ascii -> bool) : regex := RRep true 1 None p.
Definition lazy_star (p : ascii -> bool) : regex := RRep false 0 None p.

End Re.

(* ================================================================== *)
(** * The [json] module: values and [json.loads] *)
(* ================================================================== *)

(** A model of the library's strict decoder.  A string value is a list of
    code points (a [\uXXXX] escape can name one above 255); a number keeps
    its lexeme, so that no float arithmetic is involved; an object is the
    insertion-ordered [dict] Python builds, a repeated key overwriting the
    value at its first position.  The limits of the interpreter (recursion
    depth, length of an integer literal) are not modelled. *)

Module Json.

Definition ustr := list N.

Definition ustr_of (s : str) : ustr := map N_of_ascii s.

Inductive json :=
| JNull
| JBool (b : bool)
| JNum (lexeme : str)
| JStr (s : ustr)
| JArr (items : list json)
| JObj (fields : list (ustr * json)).

Fixpoint ustr_eqb (a b : ustr) : bool :=
  match a, b with
  | [], [] => true
  | x :: a', y :: b' => N.eqb x y && ustr_eqb a' b'
  | _, _ => false
  end.

(** [d[k] = v] on an insertion-ordered dict. *)
Fixpoint dict_set (A : Type) (k : ustr) (v : A) (d : list (ustr * A)) : list (ustr * A) :=
  match d with
  | [] => [(k, v)]
  | (k', v') :: d' =>
      if ustr_eqb k k' then (k', v) :: d' else (k', v') :: dict_set k v d'
  end.

Definition is_json_ws (c : ascii) : bool :=
  chr_eq " "%char c || chr_eq TAB c || chr_eq LF c || chr_eq CR c.

Definition skip_ws (t : str) : str := dropwhile is_json_ws t.

Definition hex_val (c : ascii) : option N :=
  if is_digit c then Some (N.of_nat (code c - 48))
  else if in_range 97 102 c then Some (N.of_nat (code c - 87))
  else if in_range 65 70 c then Some (N.of_nat (code c - 55))
  else None.

Definition is_high_surrogate (v : N) : bool := (55296 <=? v)%N && (v <=? 56319)%N.
Definition is_low_surrogate (v : N) : bool := (56320 <=? v)%N && (v <=? 57343)%N.

Definition simple_escape (c : ascii) : option N :=
  if chr_eq DQ c then Some 34%N
  else if chr_eq BSL c then Some 92%N
  else if chr_eq "/"%char c then Some 47%N
  else if chr_eq "b"%char c then Some 8%N
  else if chr_eq "f"%char c then Some 12%N
  else if chr_eq "n"%char c then Some 10%N
  else if chr_eq "r"%char c then Some 13%N
  else if chr_eq "t"%char c then Some 9%N
  else None.

Inductive smode :=
| SChars (after_high : bool)     (* ordinary characters *)
| SEscape (after_high : bool)    (* just after a backslash *)
| SHex (after_high : bool) (todo : nat) (v : N).   (* inside \uXXXX *)

Definition push_unit (after_high : bool) (v : N) (acc : ustr) : ustr :=
  match acc with
  | h :: acc' =>
      if after_high && is_low_surrogate v
      then (65536 + (h - 55296) * 1024 + (v - 56320))%N :: acc'
      else v :: acc
  | [] => [v]
  end.

(** The body of a string literal, after its opening quote: the decoded value
    and the text after the closing quote. *)
Fixpoint scan_string (mode : smode) (acc : ustr) (t : str) : option (ustr * str) :=
  match t with
  | [] => None
  | c :: t' =>
      match mode with
      | SChars _ =>
          if chr_eq DQ c then Some (rev acc, t')
          else if chr_eq BSL c then scan_string (SEscape (match mode with SChars h => h | _ => false end)) acc t'
          else if code c <? 32 then None
          else scan_string (SChars false) (N_of_ascii c :: acc) t'
      | SEscape h =>
          if chr_eq "u"%char c then scan_string (SHex h 4 0%N) acc t'
          else match simple_escape c with
               | Some v => scan_string (SChars false) (v :: acc) t'
               | None => None
               end
      | SHex h todo v =>
          match hex_val c with
          | None => None
          | Some d =>
              let v' := (v * 16 + d)%N in
              match todo with
              | 1 => scan_string (SChars (is_high_surrogate v')) (push_unit h v' acc) t'
              | _ => scan_string (SHex h (pred todo) v') acc t'
              end
          end
      end
  end.

Fixpoint span_digits (t : str) : str * str :=
  match t with
  | c :: t' =>
      if is_digit c then let '(d, r) := span_digits t' in (c :: d, r) else ([], t)
  | [] => ([], [])
  end.

(** The number pattern of the scanner: an optional minus sign, then 0 or a
    digit string without leading zero, then an optional fraction and an
    optional exponent, each taken only when complete. *)
Definition scan_int (t : str) : option (str * str) :=
  match t with
  | c :: t' =>
      if chr_eq "0"%char c then Some ([c], t')
      else if is_digit c then let '(d, r) := span_digits t' in Some (c :: d, r)
      else None
  | [] => None
  end.

Definition scan_frac (t : str) : str * str :=
  match t with
  | c :: t' =>
      if chr_eq "."%char c then
        match span_digits t' with
        | ([], _) => ([], t)
        | (d, r) => (c :: d, r)
        end
      else ([], t)
  | [] => ([], t)
  end.

Definition scan_exp (t : str) : str * str :=
  match t with
  | e :: t' =>
      if chr_eq "e"%char e || chr_eq "E"%char e then
        match t' with
        | s :: t'' =>
            if chr_eq "+"%char s || chr_eq "-"%char s then
              match span_digits t'' with
              | ([], _) => ([], t)
              | (d, r) => (e :: s :: d, r)
              end
            else
              match span_digits t' with
              | ([], _) => ([], t)
              | (d, r) => (e :: d, r)
              end
        | [] => ([], t)
        end
      else ([], t)
  | [] => ([], t)
  end.

Definition scan_number (t : str) : option (str * str) :=
  let '(sign, t1) :=
    match t with
    | c :: t' => if chr_eq "-"%char c then ([c], t') else ([], t)
    | [] => ([], t)
    end in
  match scan_int t1 with
  | None => None
  | Some (i, t2) =>
      let '(f, t3) := scan_frac t2 in
      let '(e, t4) := scan_exp t3 in
      Some (sign ++ i ++ f ++ e, t4)
  end.

Definition keyword (k : string) (v : json) (t : str) : option (json * str) :=
  if is_prefix (lit k) t then Some (v, skipn (String.length k) t) else None.

Definition scan_atom (t : str) : option (json * str) :=
  match t with
  | [] => None
  | c :: _ =>
      match (if chr_eq "n"%char c then keyword "null" JNull t
             else if chr_eq "t"%char c then keyword "true" (JBool true) t
             else if chr_eq "f"%char c then keyword "false" (JBool false) t
             else None) with
      | Some r => Some r
      | None =>
          match scan_number t with
          | Some (lx, r) => Some (JNum lx, r)
          | None =>
              if chr_eq "N"%char c then keyword "NaN" (JNum (lit "NaN")) t
              else if chr_eq "I"%char c then keyword "Infinity" (JNum (lit "Infinity")) t
              else if chr_eq "-"%char c then keyword "-Infinity" (JNum (lit "-Infinity")) t
              else None
          end
      end
  end.

(** [scan_once], [JSONArray] and [JSONObject].  [fuel] bounds the nesting of
    calls; [parse_elements] starts at an element, [parse_members] at the
    opening quote of a key. *)
Fixpoint parse_value (fuel : nat) (t : str) : option (json * str) :=
  match fuel with
  | 0 => None
  | S f =>
      match t with
      | [] => None
      | c :: t' =>
          if chr_eq DQ c then
            match scan_string (SChars false) [] t' with
            | Some (s, r) => Some (JStr s, r)
            | None => None
            end
          else if chr_eq "{"%char c then
            match skip_ws t' with
            | d :: r =>
                if chr_eq "}"%char d then Some (JObj [], r)
                else if chr_eq DQ d then parse_members f (d :: r) []
                else None
            | [] => None
            end
          else if chr_eq "["%char c then
            match skip_ws t' with
            | d :: r =>
                if chr_eq "]"%char d then Some (JArr [], r)
                else parse_elements f (d :: r) []
            | [] => None
            end
          else scan_atom t
      end
  end

with parse_elements (fuel : nat) (t : str) (acc : list json) : option (json * str) :=
  match fuel with
  | 0 => None
  | S f =>
      match parse_value f t with
      | None => None
      | Some (v, r) =>
          match skip_ws r with
          | d :: r' =>
              if chr_eq "]"%char d then Some (JArr (rev (v :: acc)), r')
              else if chr_eq ","%char d then parse_elements f (skip_ws r') (v :: acc)
              else None
          | [] => None
          end
      end
  end

with parse_members (fuel : nat) (t : str) (acc : list (ustr * json)) : option (json * str) :=
  match fuel with
  | 0 => None
  | S f =>
      match t with
      | q :: t' =>
          if chr_eq DQ q then
            match scan_string (SChars false) [] t' with
            | None => None
            | Some (k, r) =>
                match skip_ws r with
                | c :: r1 =>
                    if chr_eq ":"%char c then
                      match parse_value f (skip_ws r1) with
                      | None => None
                      | Some (v, r2) =>
                          match skip_ws r2 with
                          | d :: r3 =>
                              if chr_eq "}"%char d then Some (JObj (dict_set k v acc), r3)
                              else if chr_eq ","%char d
                              then parse_members f (skip_ws r3) (dict_set k v acc)
                              else None
                          | [] => None
                          end
                      end
                    else None
                | [] => None
                end
            end
          else None
      | [] => None
      end
  end.

(** [json.loads(t)]; [None] when the decoder raises. *)
Definition json_loads (t : str) : option json :=
  match parse_value (2 * List.length t + 2) (skip_ws t) with
  | Some (v, r) => match skip_ws r with [] => Some v | _ => None end
  | None => None
  end.

End Json.

(* ================================================================== *)
(** * [BeautifulSoup(s, "html.parser")] and the [csv] module *)
(* ================================================================== *)

(** Models of the two remaining library calls.  The markup model covers tag
    soup made of start tags, end tags and text: names are lower-cased, an end
    tag closes the nearest open element of its name and is ignored when there
    is none, and what is still open at the end of the input is closed there.
    Comments, character references and script content are not modelled. *)

Module Bs4.

Inductive node :=
| Text (s : str)
| Elem (tag : str) (kids : list node).

Inductive token :=
| TStart (name : str)
| TEnd (name : str)
| TText (s : str).

Inductive tmode :=
| MText (acc : str)
| MSlash
| MName (closing : bool) (name : str)
| MRest (closing : bool) (name : str).

Definition is_name_char (c : ascii) : bool :=
  is_alnum c || chr_eq "-"%char c || chr_eq "_"%char c || chr_eq ":"%char c.

Definition flush_text (acc : str) : list token :=
  match acc with [] => [] | _ => [TText (rev acc)] end.

Definition tag_token (closing : bool) (name : str) : token :=
  let n := map Re.lower_char (rev name) in
  if closing then TEnd n else TStart n.

Fixpoint tokenize (mode : tmode) (t : str) : list token :=
  match t with
  | [] => match mode with MText acc => flush_text acc | _ => [] end
  | c :: t' =>
      match mode with
      | MText acc =>
          if chr_eq "<"%char c then
            match t' with
            | d :: _ =>
                if is_alpha d then flush_text acc ++ tokenize (MName false []) t'
                else if chr_eq "/"%char d then flush_text acc ++ tokenize MSlash t'
                else tokenize (MText (c :: acc)) t'
            | [] => tokenize (MText (c :: acc)) t'
            end
          else tokenize (MText (c :: acc)) t'
      | MSlash => tokenize (MName true []) t'
      | MName closing name =>
          if is_name_char c then tokenize (MName closing (c :: name)) t'
          else if chr_eq ">"%char c then tag_token closing name :: tokenize (MText []) t'
          else tokenize (MRest closing name) t'
      | MRest closing name =>
          if chr_eq ">"%char c then tag_token closing name :: tokenize (MText []) t'
          else tokenize (MRest closing name) t'
      end
  end.

Definition void_elements : list string :=
  ["area"; "base"; "br"; "col"; "embed"; "hr"; "img"; "input"; "keygen";
   "link"; "menuitem"; "meta"; "param"; "source"; "track"; "wbr"]%string.

Definition is_void (name : str) : bool :=
  existsb (fun v => str_eqb (lit v) name) void_elements.

(** The stack holds, for every open element, its name and the children its
    parent had collected before it (latest first). *)
Definition open_stack := list (str * list node).

Fixpoint close_all (stack : open_stack) (cur : list node) : list node :=
  match stack with
  | [] => rev cur
  | (name, parent_cur) :: stack' =>
      close_all stack' (Elem name (rev cur) :: parent_cur)
  end.

Fixpoint close_until (name : str) (stack : open_stack) (cur : list node)
    : open_stack * list node :=
  match stack with
  | [] => ([], cur)
  | (m, parent_cur) :: stack' =>
      let cur' := Elem m (rev cur) :: parent_cur in
      if str_eqb m name then (stack', cur') else close_until name stack' cur'
  end.

Fixpoint build (toks : list token) (stack : open_stack) (cur : list node) : list node :=
  match toks with
  | [] => close_all stack cur
  | TText s :: toks' => build toks' stack (Text s :: cur)
  | TStart name :: toks' =>
      if is_void name then build toks' stack (Elem name [] :: cur)
      else build toks' ((name, cur) :: stack) []
  | TEnd name :: toks' =>
      if existsb (fun e => str_eqb (fst e) name) stack
      then let '(stack', cur') := close_until name stack cur in build toks' stack' cur'
      else build toks' stack cur
  end.

(** [BeautifulSoup(s, "html.parser")]: the top-level nodes. *)
Definition soup (s : str) : list node := build (tokenize (MText []) s) [] [].

Fixpoint descendants (n : node) : list node :=
  match n with
  | Text _ => []
  | Elem _ kids => flat_map (fun k => k :: descendants k) kids
  end.

Definition has_tag (names : list string) (n : node) : bool :=
  match n with
  | Text _ => false
  | Elem tag _ => existsb (fun v => str_eqb (lit v) tag) names
  end.

(** [tag.find_all(names)] and [tag.find(name)], in document order. *)
Definition find_all (names : list string) (n : node) : list node :=
  filter (has_tag names) (descendants n).

Definition find (name : string) (n : node) : option node :=
  hd_error (find_all [name] n).

Definition soup_find_all (names : list string) (top : list node) : list node :=
  find_all names (Elem [] top).

Definition soup_find (name : string) (top : list node) : option node :=
  hd_error (soup_find_all [name] top).

Definition node_text (n : node) : list str :=
  match n with Text s => [s] | Elem _ _ => [] end.

(** [tag.get_text(strip=True)]: the stripped, non-empty strings below the
    tag, concatenated. *)
Definition get_text_strip (n : node) : str :=
  List.concat (filter (fun s => negb (str_eqb s []))
            (map strip (flat_map node_text (descendants n)))).

End Bs4.

Module Csv.

(** [csv.Sniffer().sniff(first_line)] followed by [csv.reader]: the model
    takes the first of the sniffer's preferred delimiters that occurs in the
    sample line and splits every line on it; quoted fields are not modelled.
    [None] stands for the [csv.Error] a sample without delimiter raises. *)
Definition preferred : list ascii :=
  [","%char; TAB; ";"%char; " "%char; ":"%char].

Definition sniff (sample : str) : option ascii :=
  List.find (fun d => contains_char d sample) preferred.

Definition read_rows (t : str) : option (list (list str)) :=
  match strip t with
  | [] => Some []
  | body =>
      match sniff (hd [] (splitlines t)) with
      | Some d => Some (map (split_char d) (splitlines body))
      | None => None
      end
  end.

End Csv.

(* ================================================================== *)
(** * Data classes, priority list and utilities *)
(* ================================================================== *)

Inductive meta_val :=
| MBool (b : bool)
| MNat (n : nat)
| MRatio (q : Q)
| MStr (s : str)
| MNone.

Record DetectedBlock := mkBlock {
  format_type : string;
  start_index : nat;
  end_index : nat;
  confidence : Q;
  text : str;
  meta : list (string * meta_val)
}.

(** Lower index = higher priority. *)
Definition FORMAT_PRIORITY : list string :=
  ["JSON_LD"; "JSON"; "MALFORMED_JSON"; "HTML_TABLE"; "HTML"; "YAML_FRONTMATTER";
   "CSV"; "CSV_NO_HEADER"; "KEY_VALUE"; "JS_OBJECT"; "SQL"; "RAW_TEXT"]%string.

(** [l.index(x)]; [None] stands for the [ValueError]. *)
Fixpoint list_index (x : string) (l : list string) : option nat :=
  match l with
  | [] => None
  | y :: l' =>
      if String.eqb y x then Some 0
      else match list_index x l' with Some i => Some (S i) | None => None end
  end.

Definition clamp_conf (c : Q) : Q := Qmax 0 (Qmin 1 c).

(** [any(n in chars for n in needles)]. *)
Definition contains_any (chars : str) (needles : list str) : bool :=
  existsb (fun n => contains_sub n chars) needles.

(** [sorted(l, key=...)] and [l.sort(key=...)]: the stable sort; [le a b]
    compares the keys of [a] and [b]. *)
Fixpoint insert_sorted (A : Type) (le : A -> A -> bool) (x : A) (l : list A) : list A :=
  match l with
  | [] => [x]
  | y :: l' => if le x y then x :: l else y :: insert_sorted le x l'
  end.

Definition sorted_by (A : Type) (le : A -> A -> bool) (l : list A) : list A :=
  fold_right (insert_sorted le) [] l.

(* ================================================================== *)
(** * Safe JSON span finder *)
(* ================================================================== *)

(** [while i < n and text[i] != '{': i += 1], on the text from [i] on. *)
Fixpoint first_brace (i : nat) (rest : str) : option (nat * str) :=
  match rest with
  | [] => None
  | c :: rest' =>
      if chr_eq "{"%char c then Some (i, rest) else first_brace (S i) rest'
  end.

Record scan_state := mkScan {
  depth : Z;
  in_string : bool;
  escape : bool;
  string_char : ascii
}.

Definition scan_init : scan_state := mkScan 0 false false "000"%char.

(** One turn of [while j < limit] on character [ch]: the closing offset when
    the turn returns, the next state otherwise. *)
Definition scan_step (st : scan_state) (ch : ascii) : scan_state + unit :=
  if in_string st then
    if escape st then inl (mkScan (depth st) true false (string_char st))
    else if chr_eq BSL ch then inl (mkScan (depth st) true true (string_char st))
    else if chr_eq (string_char st) ch then inl (mkScan (depth st) false false (string_char st))
    else inl st
  else
    if chr_eq DQ ch || chr_eq SQ ch then inl (mkScan (depth st) true (escape st) ch)
    else if chr_eq "{"%char ch then inl (mkScan (depth st + 1) false (escape st) (string_char st))
    else if chr_eq "}"%char ch then
      if (depth st - 1 =? 0)%Z then inr tt
      else inl (mkScan (depth st - 1) false (escape st) (string_char st))
    else inl st.

(** The scanning loop from offset [j], with [budget = limit - j] characters
    left to look at. *)
Fixpoint scan_span (start j budget : nat) (st : scan_state) (rest : str)
    : option (nat * nat) :=
  match budget, rest with
  | S b, ch :: rest' =>
      match scan_step st ch with
      | inr _ => Some (start, j + 1)
      | inl st' => scan_span start (S j) b st' rest'
      end
  | _, _ => None
  end.

Definition default_max_len : nat := 200 * 1000.

Definition find_json_span (t : str) (start_pos : nat) (max_len : nat)
    : option (nat * nat) :=
  let n := List.length t in
  match first_brace start_pos (skipn start_pos t) with
  | None => None
  | Some (i, rest) =>
      let limit := Nat.min n (i + max_len) in
      scan_span i i (limit - i) scan_init rest
  end.

(* ================================================================== *)
(** * The patterns of the detectors *)
(* ================================================================== *)

Module Pat.
Import Re.

Definition quote : ascii -> bool := fun c => chr_eq DQ c || chr_eq SQ c.

(** [<script\b[^>]*type=Q application/ld\+json Q[^>]*>([\s\S]*?)</script>],
    [Q] a quote of either kind; IGNORECASE. *)
Definition json_ld : regex :=
  rseq [rlit_i "<script"; RWordB; star (not_char ">"); rlit_i "type=";
        RChar quote; rlit_i "application/ld+json"; RChar quote;
        star (not_char ">"); rch ">";
        RGroup 1 (lazy_star any_char); rlit_i "</script>"].

(** [(^|\n)---\s*\n([\s\S]{0,2000}?)\n---]; MULTILINE. *)
Definition yaml_frontmatter : regex :=
  rseq [RGroup 1 (RAlt (RBol true) (rch LF)); rlit "---"; star is_space; rch LF;
        RGroup 2 (RRep false 0 (Some 2000) any_char); rch LF; rlit "---"].

(** The class [[A-Z0-9 _\-()]] under IGNORECASE. *)
Definition header_char : ascii -> bool :=
  fun c => is_alnum c || one_of " _-()" c.

(** [(^|\n)---\s*([A-Z0-9 _\-()]+)\s*\n]; IGNORECASE. *)
Definition section_header : regex :=
  rseq [RGroup 1 (RAlt (RBol false) (rch LF)); rlit "---"; star is_space;
        RGroup 2 (plus header_char); star is_space; rch LF].

(** [\n---\s*[\w \-()/:]*\n]; IGNORECASE. *)
Definition section_divider : regex :=
  rseq [rch LF; rlit "---"; star is_space;
        star (fun c => is_word c || one_of " -()/:" c); rch LF].

(** [\{] *)
Definition lbrace : regex := rch "{".

(** A double-quoted word and a colon: [Q\w+Q\s*:], [Q] the double quote. *)
Definition quoted_key : regex :=
  rseq [rch DQ; plus is_word; rch DQ; star is_space; rch ":"].

(** [\w+\s*:] *)
Definition bare_key : regex := rseq [plus is_word; star is_space; rch ":"].

(** [\n\s*\n] *)
Definition blank_line : regex := rseq [rch LF; star is_space; rch LF].

(** [Q\w+Q\s*:], [Q] a quote of either kind. *)
Definition any_quoted_key : regex :=
  rseq [RChar quote; plus is_word; RChar quote; star is_space; rch ":"].

(** [\w+\s*:\s*] *)
Definition bare_key_ws : regex :=
  rseq [plus is_word; star is_space; rch ":"; star is_space].

(** [<table\b]; IGNORECASE. *)
Definition table_open : regex := rseq [rlit_i "<table"; RWordB].

(** [</table\s*>]; IGNORECASE. *)
Definition table_close : regex := rseq [rlit_i "</table"; star is_space; rch ">"].

(** [<(div|section|article|header|footer|main|nav|body)\b]; IGNORECASE. *)
Definition block_open : regex :=
  rseq [rch "<";
        RGroup 1 (ralt [rlit_i "div"; rlit_i "section"; rlit_i "article";
                        rlit_i "header"; rlit_i "footer"; rlit_i "main";
                        rlit_i "nav"; rlit_i "body"]);
        RWordB].

(** [</%s\s*>] with the escaped tag name; IGNORECASE. *)
Definition block_close (tag : str) : regex :=
  rseq [rlit "</"; rseq (map (fun c => RChar (chr_eq_i c)) tag); star is_space; rch ">"].

(** [<[A-Za-z]+] and [</]. *)
Definition tag_start : regex := rseq [rch "<"; plus is_alpha].
Definition tag_end : regex := rlit "</".

(** [[A-Za-z]] *)
Definition letter : regex := RChar is_alpha.

Definition kv_key_char : ascii -> bool :=
  fun c => is_word c || chr_eq "-"%char c || is_space c.

(** [^\s*[#\-]*\s*[\w\-\s]{1,80}\s*[:=]\s*.+] *)
Definition kv_first : regex :=
  rseq [RBol false; star is_space; star (one_of "#-"); star is_space;
        RRep true 1 (Some 80) kv_key_char; star is_space; RChar (one_of ":=");
        star is_space; plus dot].

(** [^\s*[\w\-\s]{1,80}\s*[:=]\s*.+] *)
Definition kv_line : regex :=
  rseq [RBol false; star is_space;
        RRep true 1 (Some 80) kv_key_char; star is_space; RChar (one_of ":=");
        star is_space; plus dot].

(** [\b(var|let|const)\s+([A-Za-z0-9_$]+)\s*=\s*\{] *)
Definition js_assign : regex :=
  rseq [RWordB; RGroup 1 (ralt [rlit "var"; rlit "let"; rlit "const"]);
        plus is_space; RGroup 2 (plus (fun c => is_alnum c || one_of "_$" c));
        star is_space; rch "="; star is_space; rch "{"].

(** An optional group [--[^\n]*\n\s*], then
    [(SELECT|INSERT|UPDATE|DELETE|CREATE|DROP)\b[\s\S]{0,400}?\;]; IGNORECASE. *)
Definition sql_stmt : regex :=
  rseq [ROpt (RGroup 1 (rseq [rlit "--"; star (not_char LF); rch LF; star is_space]));
        RGroup 2 (ralt [rlit_i "SELECT"; rlit_i "INSERT"; rlit_i "UPDATE";
                        rlit_i "DELETE"; rlit_i "CREATE"; rlit_i "DROP"]);
        RWordB; RRep false 0 (Some 400) any_char; rch ";"].

End Pat.

(* ================================================================== *)
(** * Detector core: [ETLFragmentDetector] *)
(* ================================================================== *)

(** The mutable fields of the detector object. *)
Record detector := mkDet {
  blocks : list DetectedBlock;
  occupied : list (nat * nat)      (* (start, end) reserved by high-priority blocks *)
}.

Definition init_detector : detector := mkDet [] [].

Definition mark_occupied (d : detector) (s e : nat) : detector :=
  mkDet (blocks d) (occupied d ++ [(s, e)]).

Definition overlaps (s e : nat) (ab : nat * nat) : bool :=
  negb ((e <=? fst ab) || (snd ab <=? s)).

Definition is_occupied (d : detector) (s e : nat) : bool :=
  existsb (overlaps s e) (occupied d).

Definition reserving : list string :=
  ["JSON_LD"; "JSON"; "MALFORMED_JSON"; "HTML_TABLE"; "HTML"; "YAML_FRONTMATTER"]%string.

Definition add_block (d : detector) (b : DetectedBlock) : detector :=
  let d' := mkDet (blocks d ++ [b]) (occupied d) in
  if existsb (String.eqb (format_type b)) reserving
  then mark_occupied d' (start_index b) (end_index b)
  else d'.

(** A loop that the model bounds by [fuel] returns [None] when the fuel runs
    out; [parse_file_total] shows that it never does. *)
Notation "x <- c ;; k" := (match c with Some x => k | None => None end)
  (at level 61, c at next level, right associativity).

(** [char_pos]: the cumulative table of the CSV and key-value detectors. *)
Definition char_pos_of (lines : list str) : list nat :=
  fold_left (fun cp ln => cp ++ [last cp 0 + List.length ln + 1]) lines [0].

(** [Counter(counts).most_common(1)[0]]: the first value with the largest
    number of occurrences, and that number. *)
Definition most_common1 (counts : list nat) : nat * nat :=
  fold_left (fun best x =>
               let f := count_occ Nat.eq_dec counts x in
               if snd best <? f then (x, f) else best)
            counts (0, 0).

Section Detector.

Variable self_text : str.

Definition self_n : nat := List.length self_text.

Definition span_text (s e : nat) : str := slice self_text s e.

(** ** 1. JSON-LD *)
Definition detect_json_ld (d : detector) : detector :=
  fold_left
    (fun d m =>
       let '(s, e) := Re.group_span m 1 in
       let snippet := strip (span_text s e) in
       let conf : Q := match Json.json_loads snippet with
                       | Some _ => 0.99%Q
                       | None => 0.6%Q
                       end in
       add_block d (mkBlock "JSON_LD" s e (clamp_conf conf) (span_text s e)
                      [("parsed"%string, MBool (negb (Qle_bool conf 0.9%Q)))]))
    (Re.finditer Pat.json_ld self_text) d.

(** ** 2. YAML frontmatter *)
Definition colon_ratio (snippet : str) : Q :=
  let lines := filter (fun ln => negb (str_eqb (strip ln) [])) (splitlines snippet) in
  let hits := List.length (filter (contains_char ":"%char) lines) in
  Z.of_nat hits # Pos.of_nat (Nat.max 1 (List.length lines)).

Definition detect_yaml_frontmatter (d : detector) : detector :=
  fold_left
    (fun d m =>
       let '(s, e) := Re.group_span m 2 in
       let ratio := colon_ratio (span_text s e) in
       let conf : Q := if Qle_bool ratio 0.5%Q then 0.6%Q else 0.95%Q in
       if negb (is_occupied d s e)
       then add_block d (mkBlock "YAML_FRONTMATTER" s e (clamp_conf conf)
                           (span_text s e) [("colon_ratio"%string, MRatio ratio)])
       else d)
    (Re.finditer Pat.yaml_frontmatter self_text) d.

(** ** 3. Sections with explicit JSON markers *)
Definition detect_sectioned_jsons (d : detector) : detector :=
  fold_left
    (fun d m =>
       let '(hs, he) := Re.group_span m 2 in
       let header := upper (strip (span_text hs he)) in
       let body_start := Re.mt_end m in
       let body_end :=
         match Re.re_search Pat.section_divider (skipn body_start self_text) with
         | Some next_div => body_start + Re.mt_start next_div
         | None => self_n
         end in
       let body := strip (span_text body_start body_end) in
       match body with
       | [] => d
       | _ =>
           if contains_sub (lit "JSON") header && negb (is_occupied d body_start body_end)
           then
             match find_json_span self_text body_start default_max_len with
             | Some (s, e) =>
                 match Json.json_loads (span_text s e) with
                 | Some _ =>
                     add_block d (mkBlock "JSON" s e (clamp_conf 0.99%Q) (span_text s e)
                                    [("section_header"%string, MStr header)])
                 | None =>
                     add_block d (mkBlock "MALFORMED_JSON" s e (clamp_conf 0.45%Q)
                                    (span_text s e)
                                    [("section_header"%string, MStr header)])
                 end
             | None =>
                 if negb (is_occupied d body_start body_end)
                 then add_block d (mkBlock "MALFORMED_JSON" body_start body_end 0.4%Q
                                     (span_text body_start body_end)
                                     [("section_header"%string, MStr header)])
                 else d
             end
           else d
       end)
    (Re.finditer Pat.section_header self_text) d.

(** ** 4. JSON (strict) and MALFORMED_JSON (brace heuristics) *)
Fixpoint jsons_global_loop (fuel : nat) (i : nat) (d : detector) : option detector :=
  match fuel with
  | 0 => None
  | S fuel' =>
      match Re.re_search Pat.lbrace (skipn i self_text) with
      | None => Some d
      | Some m =>
          let pos := i + Re.mt_start m in
          if is_occupied d pos (pos + 1) then jsons_global_loop fuel' (pos + 1) d
          else
            match find_json_span self_text pos default_max_len with
            | Some (s, e) =>
                if is_occupied d s e then jsons_global_loop fuel' e d
                else
                  let snippet := span_text s e in
                  match Json.json_loads snippet with
                  | Some _ =>
                      jsons_global_loop fuel' e
                        (add_block d (mkBlock "JSON" s e 0.98%Q snippet []))
                  | None =>
                      let kv_like := Re.findall_count Pat.quoted_key snippet
                                     + Re.findall_count Pat.bare_key snippet in
                      let conf : Q := if 2 <=? kv_like then 0.5%Q else 0.25%Q in
                      jsons_global_loop fuel' e
                        (add_block d (mkBlock "MALFORMED_JSON" s e (clamp_conf conf) snippet
                                        [("kv_like"%string, MNat kv_like)]))
                  end
            | None =>
                let tail_end := Nat.min self_n (pos + 2000) in
                let remainder := span_text pos tail_end in
                let e := match Re.re_search Pat.blank_line remainder with
                         | Some dn => pos + Re.mt_start dn
                         | None => tail_end
                         end in
                let snippet := span_text pos e in
                let d' :=
                  if negb (is_occupied d pos e)
                  then
                    match Re.re_search Pat.any_quoted_key snippet,
                          Re.re_search Pat.bare_key_ws snippet with
                    | None, None => d
                    | _, _ =>
                        add_block d (mkBlock "MALFORMED_JSON" pos e 0.35%Q snippet
                                       [("note"%string, MStr (lit "unclosed"))])
                    end
                  else d in
                jsons_global_loop fuel' e d'
            end
      end
  end.

Definition detect_jsons_global (d : detector) : option detector :=
  jsons_global_loop (S self_n) 0 d.

(** ** 5. HTML tables and generic HTML blocks *)
Definition table_shape (snippet : str) : nat * nat :=
  let rows := Bs4.soup_find_all ["tr"%string] (Bs4.soup snippet) in
  let cols := fold_left Nat.max
                (map (fun r => List.length (Bs4.find_all ["td"; "th"]%string r)) rows) 0 in
  (List.length rows, cols).

Definition detect_html_tables (d : detector) : detector :=
  fold_left
    (fun d m =>
       let start := Re.mt_start m in
       if is_occupied d start (start + 1) then d
       else
         match Re.re_search Pat.table_close (skipn start self_text) with
         | Some end_tag =>
             let e := start + Re.mt_end end_tag in
             let snippet := span_text start e in
             let '(rows, cols) := table_shape snippet in
             let conf : Q := if (0 <? rows) && (1 <=? cols) then 0.95%Q else 0.6%Q in
             if negb (is_occupied d start e)
             then add_block d (mkBlock "HTML_TABLE" start e (clamp_conf conf) snippet
                                 [("rows"%string, MNat rows); ("cols"%string, MNat cols)])
             else d
         | None => d
         end)
    (Re.finditer Pat.table_open self_text) d.

Definition detect_html_blocks (d : detector) : detector :=
  fold_left
    (fun d m =>
       let start := Re.mt_start m in
       if is_occupied d start (start + 1) then d
       else
         let '(ts, te) := Re.group_span m 1 in
         let tag := span_text ts te in
         match Re.re_search (Pat.block_close tag) (skipn start self_text) with
         | Some close_match =>
             let e := start + Re.mt_end close_match in
             if (20 <? e - start) && negb (is_occupied d start e)
             then
               let snippet := span_text start e in
               let tag_count := Re.findall_count Pat.tag_start snippet in
               let close_count := Re.findall_count Pat.tag_end snippet in
               let conf : Q :=
                 (0.5 + Qmin 0.4 (inject_Z (Z.of_nat (Nat.min tag_count close_count)) * 0.03))%Q in
               add_block d (mkBlock "HTML" start e (clamp_conf conf) snippet
                              [("tag_count"%string, MNat tag_count)])
             else d
         | None => d
         end)
    (Re.finditer Pat.block_open self_text) d.

Definition detect_html_tables_and_blocks (d : detector) : detector :=
  detect_html_blocks (detect_html_tables d).

(** ** 6. CSV detection *)
Definition csv_candidate (line : str) : option ascii :=
  List.find (fun c => contains_char c line
                      && negb (contains_char "{"%char line)
                      && negb (contains_char "}"%char line))
            [","%char; TAB; ";"%char].

(** The inner [while]: the delimiter counts of the lines after the first,
    as long as a line is non-blank and holds the delimiter; [budget] is what
    [j - i < max_lines] still allows. *)
Fixpoint csv_extend (cand : ascii) (budget : nat) (rest : list str) : list nat :=
  match budget, rest with
  | S b, ln :: rest' =>
      if negb (str_eqb (strip ln) []) && (0 <? count_char cand ln)
      then count_char cand ln :: csv_extend cand b rest'
      else []
  | _, _ => []
  end.

Definition text_lines : list str := splitlines self_text.

Definition char_pos : list nat := char_pos_of text_lines.

Fixpoint csv_loop (fuel : nat) (i : nat) (d : detector) : option detector :=
  match fuel with
  | 0 => None
  | S fuel' =>
      let lines := text_lines in
      let n := List.length lines in
      if i <? n then
        let line := nth i lines [] in
        if str_eqb (strip line) [] then csv_loop fuel' (i + 1) d
        else
          match csv_candidate line with
          | None => csv_loop fuel' (i + 1) d
          | Some cand =>
              let counts := count_char cand line
                            :: csv_extend cand 199 (skipn (i + 1) lines) in
              let j := i + List.length counts in
              if (2 <=? List.length counts)
                 && (Nat.max 1 (List.length counts / 2) <=? snd (most_common1 counts))
              then
                let start := nth i char_pos 0 in
                let e := if j - 1 <? n
                         then nth (j - 1) char_pos 0 + List.length (nth (j - 1) lines [])
                         else last char_pos 0 in
                if negb (is_occupied d start e) then
                  let has_header :=
                    match Re.re_search Pat.letter (hd [] (split_char cand line)) with
                    | Some _ => true
                    | None => false
                    end in
                  csv_loop fuel' j
                    (add_block d
                       (mkBlock (if has_header then "CSV" else "CSV_NO_HEADER")
                          start e (if has_header then 0.9%Q else 0.7%Q) (span_text start e)
                          [("delimiter"%string, MStr [cand]);
                           ("rows"%string, MNat (List.length counts))]))
                else csv_loop fuel' (i + 1) d
              else csv_loop fuel' (i + 1) d
          end
      else Some d
  end.

Definition detect_csv_blocks (d : detector) : option detector :=
  csv_loop (S (List.length text_lines)) 0 d.

(** ** 7. Key-value detection *)
Definition matches (r : Re.regex) (ln : str) : bool :=
  match Re.re_match_start r ln with Some _ => true | None => false end.

(** The inner [while]: the number of consecutive key-value lines. *)
Fixpoint kv_run (rest : list str) : nat :=
  match rest with
  | ln :: rest' => if matches Pat.kv_line ln then S (kv_run rest') else 0
  | [] => 0
  end.

Fixpoint kv_loop (fuel : nat) (i : nat) (d : detector) : option detector :=
  match fuel with
  | 0 => None
  | S fuel' =>
      let lines := text_lines in
      let n := List.length lines in
      if i <? n then
        if matches Pat.kv_first (nth i lines []) then
          let kv_count := kv_run (skipn i lines) in
          let j := i + kv_count in
          if 2 <=? kv_count then
            let start := nth i char_pos 0 in
            let e := nth (j - 1) char_pos 0 + List.length (nth (j - 1) lines []) in
            if negb (is_occupied d start e)
            then kv_loop fuel' j
                   (add_block d (mkBlock "KEY_VALUE" start e 0.9%Q (span_text start e)
                                   [("pairs"%string, MNat kv_count)]))
            else kv_loop fuel' (i + 1) d
          else kv_loop fuel' (i + 1) d
        else kv_loop fuel' (i + 1) d
      else Some d
  end.

Definition detect_key_values (d : detector) : option detector :=
  kv_loop (S (List.length text_lines)) 0 d.

(** ** 8. JS object detection *)
Definition detect_js_objects (d : detector) : detector :=
  fold_left
    (fun d m =>
       let start := Re.mt_start m in
       if is_occupied d start (start + 1) then d
       else
         let group0 := span_text (Re.mt_start m) (Re.mt_end m) in
         let brace := match rfind_char "{"%char group0 with
                      | Some k => start + k
                      | None => start - 1
                      end in
         match find_json_span self_text brace default_max_len with
         | Some (s, e) =>
             if negb (is_occupied d s e)
             then
               let '(vs, ve) := Re.group_span m 2 in
               add_block d (mkBlock "JS_OBJECT" start e 0.88%Q (span_text start e)
                              [("var_name"%string, MStr (span_text vs ve))])
             else d
         | None => d
         end)
    (Re.finditer Pat.js_assign self_text) d.

(** ** 9. SQL detection *)
Definition detect_sql (d : detector) : detector :=
  fold_left
    (fun d m =>
       let s := Re.mt_start m in
       let e := Re.mt_end m in
       if negb (is_occupied d s e)
       then add_block d (mkBlock "SQL" s e 0.9%Q (span_text s e) [])
       else d)
    (Re.finditer Pat.sql_stmt self_text) d.

(** ** 10. RAW text paragraphs *)
Definition pair_le (a b : nat * nat) : bool :=
  (fst a <? fst b) || ((fst a =? fst b) && (snd a <=? snd b)).

(** One turn of [for a,b in sorted(self.occupied)]. *)
Definition subtract_span (spans : list (nat * nat)) (ab : nat * nat) : list (nat * nat) :=
  flat_map
    (fun se =>
       let '(s, e) := se in
       let '(a, b) := ab in
       if (b <=? s) || (e <=? a) then [(s, e)]
       else (if s <? a then [(s, a)] else []) ++ (if b <? e then [(b, e)] else []))
    spans.

Definition free_spans (d : detector) : list (nat * nat) :=
  fold_left subtract_span (sorted_by pair_le (occupied d)) [(0, self_n)].

(** One turn of [for p in parts]; the state is [pos] and the detector. *)
Definition raw_part (e : nat) (acc : nat * detector) (part : str) : nat * detector :=
  let '(pos, d) := acc in
  let p := strip part in
  match p with
  | [] => (pos + List.length p + 2, d)
  | _ =>
      match find_sub p self_text pos e with
      | None => (pos, d)
      | Some start =>
          let en := start + List.length p in
          (en, if negb (is_occupied d start en)
               then add_block d (mkBlock "RAW_TEXT" start en 0.35%Q (span_text start en) [])
               else d)
      end
  end.

Definition raw_span (d : detector) (se : nat * nat) : detector :=
  let '(s, e) := se in
  let seg := strip (span_text s e) in
  if 20 <=? List.length seg
  then snd (fold_left (raw_part e) (Re.re_split Pat.blank_line seg) (s, d))
  else d.

Definition detect_raw_text (d : detector) : detector :=
  fold_left raw_span (free_spans d) d.

End Detector.

(** ** The resolver: [_dedupe_prioritize] *)

(** The [try: FORMAT_PRIORITY.index(...) except ValueError: len(FORMAT_PRIORITY)]
    of the inner loop. *)
Definition priority_or_len (f : string) : nat :=
  match list_index f FORMAT_PRIORITY with
  | Some p => p
  | None => List.length FORMAT_PRIORITY
  end.

Definition inside (b k : DetectedBlock) : bool :=
  (start_index k <=? start_index b) && (end_index b <=? end_index k).

(** The inner [for k in kept]: the first kept block that contains [b] and
    whose priority index is not larger. *)
Definition find_container (b : DetectedBlock) (kept : list DetectedBlock)
    : option DetectedBlock :=
  List.find (fun k => inside b k
                      && (priority_or_len (format_type k) <=? priority_or_len (format_type b)))
            kept.

Definition dedupe_step (kept : list DetectedBlock) (b : DetectedBlock) : list DetectedBlock :=
  match find_container b kept with
  | None => kept ++ [b]
  | Some contained_by =>
      match list_index (format_type b) FORMAT_PRIORITY,
            list_index (format_type contained_by) FORMAT_PRIORITY with
      | Some pb, Some pk => if pb <? pk then kept ++ [b] else kept
      | _, _ => kept
      end
  end.

(** The key [(x.start_index, -(x.end_index - x.start_index))], on Python's
    unbounded integers. *)
Definition span_key_le (x y : DetectedBlock) : bool :=
  (start_index x <? start_index y)
  || ((start_index x =? start_index y)
      && (- (Z.of_nat (end_index x) - Z.of_nat (start_index x))
          <=? - (Z.of_nat (end_index y) - Z.of_nat (start_index y)))%Z).

Definition start_le (x y : DetectedBlock) : bool :=
  start_index x <=? start_index y.

Definition clamp_block (k : DetectedBlock) : DetectedBlock :=
  mkBlock (format_type k) (start_index k) (end_index k)
          (clamp_conf (confidence k)) (text k) (meta k).

Definition _dedupe_prioritize (bs : list DetectedBlock) : list DetectedBlock :=
  let kept := fold_left dedupe_step (sorted_by span_key_le bs) [] in
  map clamp_block (sorted_by start_le kept).

(** ** The orchestrator: [run_all] *)
Definition run_all (self_text : str) : option (list DetectedBlock) :=
  let d := detect_json_ld self_text init_detector in
  let d := detect_yaml_frontmatter self_text d in
  let d := detect_sectioned_jsons self_text d in
  d <- detect_jsons_global self_text d ;;
  let d := detect_html_tables_and_blocks self_text d in
  let d := detect_js_objects self_text d in
  d <- detect_csv_blocks self_text d ;;
  d <- detect_key_values self_text d ;;
  let d := detect_sql self_text d in
  let d := detect_raw_text self_text d in
  Some (_dedupe_prioritize (sorted_by start_le (blocks d))).

(* ================================================================== *)
(** * Normalizer *)
(* ================================================================== *)

Module NPat.
Import Re.

(** [,\s*(?=[}\]])] *)
Definition trailing_comma : regex :=
  rseq [rch ","; star is_space; RAhead (one_of "}]")].

(** A single-quoted run [^']* (group 1) between two single quotes, after a
    look-behind for a colon or a blank: [(?<=[:\s])]. *)
Definition single_quoted : regex :=
  rseq [RBehind (fun c => chr_eq ":"%char c || is_space c); rch SQ;
        RGroup 1 (star (not_char SQ)); rch SQ].

Definition ident_char : ascii -> bool :=
  fun c => is_alnum c || one_of "_-" c.

(** [(?P<prefix>[\{,\s])(?P<key>[A-Za-z0-9_\-]+)\s*:] *)
Definition bare_key : regex :=
  rseq [RGroup 1 (RChar (fun c => one_of "{," c || is_space c));
        RGroup 2 (plus ident_char); star is_space; rch ":"].

(** A key of 1 to 60 characters of [[A-Za-z0-9_\- ]], then [\s*[:=]\s*], then
    a double-quoted run, a single-quoted run, or [[^,\n]+]. *)
Definition kv_pair : regex :=
  rseq [RGroup 1 (RRep true 1 (Some 60) (fun c => ident_char c || chr_eq " "%char c));
        star is_space; RChar (one_of ":="); star is_space;
        RGroup 2 (ralt [rseq [rch DQ; star (not_char DQ); rch DQ];
                        rseq [rch SQ; star (not_char SQ); rch SQ];
                        plus (fun c => negb (chr_eq ","%char c || chr_eq LF c))])].

(** [=\s*(\{[\s\S]*\})\s*;?$] *)
Definition js_object : regex :=
  rseq [rch "="; star is_space;
        RGroup 1 (rseq [rch "{"; star any_char; rch "}"]);
        star is_space; RRep true 0 (Some 1) (chr_eq ";"%char); REol].

(** ['] *)
Definition single_quote : regex := rch SQ.

End NPat.

Import Json.

(** A Python value that is [None] is the [None] of the model: [json.loads]
    of the literal [null] returns it. *)
Definition to_py (v : json) : option json :=
  match v with
  | JNull => None
  | _ => Some v
  end.

Definition group_text (s : str) (m : Re.re_match) (i : nat) : str :=
  let '(a, b) := Re.group_span m i in slice s a b.

Definition _attempt_repair_json (s : str) : option str :=
  let s2 := Re.re_sub NPat.trailing_comma (fun _ => []) s in
  let s2 := Re.re_sub NPat.single_quoted
              (fun m => [DQ] ++ group_text s2 m 1 ++ [DQ]) s2 in
  let s2 := Re.re_sub NPat.bare_key
              (fun m => group_text s2 m 1 ++ [DQ] ++ group_text s2 m 2 ++ [DQ] ++ lit ":") s2 in
  Some s2.

Definition _extract_kv_pairs (s : str) : list (ustr * json) :=
  fold_left
    (fun out m =>
       let k := group_text s m 1 in
       let v := group_text s m 2 in
       let val := strip_chars (chr_eq SQ) (strip_chars (chr_eq DQ) (strip v)) in
       dict_set (ustr_of (strip k)) (JStr (ustr_of (strip val))) out)
    (Re.finditer NPat.kv_pair s) [].

Definition _parse_kv (s : str) : list (ustr * json) :=
  fold_left
    (fun out ln =>
       match split_once ":"%char ln with
       | Some (k, v) =>
           dict_set (ustr_of (strip k))
                    (JStr (ustr_of (strip_chars (chr_eq DQ) (strip v)))) out
       | None => out
       end)
    (splitlines s) [].

(** [dict(zip(keys, values))]. *)
Definition dict_zip (keys values : list str) : json :=
  JObj (fold_left (fun out kv => dict_set (ustr_of (fst kv)) (JStr (ustr_of (snd kv))) out)
                  (combine keys values) []).

(** [[f"col_{i}" for i in range(n)]]. *)
Definition synthetic_header (n : nat) : list str :=
  map (fun i => lit "col_" ++ str_of_nat i) (seq 0 n).

Definition _html_table_to_rows (s : str) : option json :=
  let soup := Bs4.soup s in
  match Bs4.soup_find "table" soup with
  | None => None
  | Some table =>
      let headers :=
        match Bs4.find "thead" table with
        | Some thead => map Bs4.get_text_strip (Bs4.find_all ["th"%string] thead)
        | None => []
        end in
      let rows :=
        fold_left
          (fun rows tr =>
             let cells := map Bs4.get_text_strip (Bs4.find_all ["td"; "th"]%string tr) in
             match headers, cells with
             | _ :: _, _ =>
                 if List.length cells =? List.length headers
                 then rows ++ [dict_zip headers cells]
                 else rows
             | [], _ :: _ =>
                 (* create synthetic headers *)
                 rows ++ [dict_zip (synthetic_header (List.length cells)) cells]
             | [], [] => rows
             end)
          (Bs4.find_all ["tr"%string] table) [] in
      match rows with
      | [] => None
      | _ => Some (JArr rows)
      end
  end.

(** The two branches of [_safe_parse_csv] end alike. *)
Definition rows_to_records (rows : list (list str)) (synthetic : bool) : option json :=
  match rows with
  | [] => None
  | first :: others =>
      if synthetic || (List.length rows <? 2)
      then Some (JArr (map (dict_zip (synthetic_header (List.length first))) rows))
      else Some (JArr (map (dict_zip first) others))
  end.

Definition _safe_parse_csv (t : str) (no_header : bool) : option json :=
  match Csv.read_rows t with
  | Some rows => rows_to_records rows no_header
  | None =>
      (* fallback: naive comma split *)
      rows_to_records
        (map (split_char ","%char)
             (filter (fun ln => negb (str_eqb (strip ln) [])) (splitlines (strip t))))
        false
  end.

Definition is_type (t : string) (name : string) : bool := String.eqb t name.

(** [Normalizer.normalize]: [None] is Python's [None], whether returned or
    produced by the [except] clause. *)
Definition normalize (block : DetectedBlock) : option json :=
  let t := format_type block in
  let s := strip (text block) in
  if is_type t "JSON" || is_type t "JSON_LD" then
    match json_loads s with
    | Some v => to_py v
    | None => None
    end
  else if is_type t "MALFORMED_JSON" then
    match _attempt_repair_json s with
    | Some repaired =>
        match json_loads repaired with
        | Some v => to_py v
        | None => Some (JObj (_extract_kv_pairs s))
        end
    | None => Some (JObj (_extract_kv_pairs s))
    end
  else if is_type t "CSV" || is_type t "CSV_NO_HEADER" then
    _safe_parse_csv s (is_type t "CSV_NO_HEADER")
  else if is_type t "HTML_TABLE" then _html_table_to_rows s
  else if is_type t "KEY_VALUE" then Some (JObj (_parse_kv s))
  else if is_type t "JS_OBJECT" then
    match Re.re_search NPat.js_object s with
    | Some m =>
        let obj := group_text s m 1 in
        let obj2 := Re.re_sub NPat.single_quote (fun _ => [DQ]) obj in
        match json_loads obj2 with
        | Some v => to_py v
        | None => Some (JObj (_extract_kv_pairs obj))
        end
    | None => None
    end
  else if is_type t "SQL" then Some (JObj [(ustr_of (lit "sql"), JStr (ustr_of s))])
  else None.

(* ================================================================== *)
(** * Top-level API: [parse_file] *)
(* ================================================================== *)

(** An entry of the records list; [data] is [None] for Python's [None]. *)
Record record := mkRecord {
  r_format : string;
  r_start : nat;
  r_end : nat;
  r_data : option json
}.

(** One turn of [for b in blocks].  [normalize] catches what it raises, so
    the defensive handler around the call never runs. *)
Definition record_step (records : list record) (b : DetectedBlock) : list record :=
  match normalize b with
  | Some rec =>
      records ++ [mkRecord (format_type b) (start_index b) (end_index b) (Some rec)]
  | None => records
  end.

Fixpoint count_set (k : string) (d : list (string * nat)) : list (string * nat) :=
  match d with
  | [] => [(k, 1)]
  | (k', c) :: d' =>
      if String.eqb k' k then (k', c + 1) :: d' else (k', c) :: count_set k d'
  end.

(** [summary.get(k, 0)]. *)
Fixpoint summary_get (k : string) (d : list (string * nat)) : nat :=
  match d with
  | [] => 0
  | (k', c) :: d' => if String.eqb k' k then c else summary_get k d'
  end.

Record result := mkResult {
  fragments : list DetectedBlock;
  summary : list (string * nat);
  records : list record
}.

Definition parse_file (t : str) : option result :=
  blocks <- run_all t ;;
  Some (mkResult blocks
          (fold_left (fun sm b => count_set (format_type b) sm) blocks [])
          (fold_left record_step blocks [])).

Unset Implicit Arguments.

(* ================================================================== *)
(** * Specification-level notions *)
(* ================================================================== *)

(** ** Brace balance, stated independently of the scanning loop *)

(** Where a position lies with respect to quoted strings: outside, or inside
    a string opened by [q], possibly just after a backslash. *)
Inductive qstate :=
| Outside
| Inside (q : ascii) (escaped : bool).

Record lex := mkLex { lex_q : qstate; lex_bal : Z }.

(** Reading one character: quotes open and close strings, a backslash inside
    a string protects the next character, and only braces outside strings
    move the balance. *)
Definition lex_step (l : lex) (c : ascii) : lex :=
  match lex_q l with
  | Outside =>
      if chr_eq DQ c || chr_eq SQ c then mkLex (Inside c false) (lex_bal l)
      else if chr_eq "{"%char c then mkLex Outside (lex_bal l + 1)
      else if chr_eq "}"%char c then mkLex Outside (lex_bal l - 1)
      else l
  | Inside q true => mkLex (Inside q false) (lex_bal l)
  | Inside q false =>
      if chr_eq BSL c then mkLex (Inside q true) (lex_bal l)
      else if chr_eq q c then mkLex Outside (lex_bal l)
      else l
  end.

Definition lex_of (w : str) : lex := fold_left lex_step w (mkLex Outside 0).

(** Open braces minus closed braces of [w], braces inside strings ignored. *)
Definition balance (w : str) : Z := lex_bal (lex_of w).

(** [s] is the first opening brace at or after [p]. *)
Definition first_brace_at (t : str) (p s : nat) : Prop :=
  p <= s /\ nth_error t s = Some "{"%char /\
  forall k, p <= k < s -> nth_error t k <> Some "{"%char.

(** [t[s:e]] opens with a brace at [s] and its balance returns to zero for
    the first time at the closing brace [t[e-1]]. *)
Definition closes_at (t : str) (s e : nat) : Prop :=
  s < e /\ e <= List.length t /\
  nth_error t (e - 1) = Some "}"%char /\
  lex_q (lex_of (slice t s (e - 1))) = Outside /\
  balance (slice t s e) = 0%Z /\
  forall e', s < e' < e -> (0 < balance (slice t s e'))%Z.

(** ** Spans, priorities and the stages of [run_all] *)

Definition prio (b : DetectedBlock) : nat := priority_or_len (format_type b).

(** Half-open spans that do not meet. *)
Definition disjoint_spans (b k : DetectedBlock) : Prop :=
  end_index b <= start_index k \/ end_index k <= start_index b.

(** [b] lies inside [k] and has the strictly higher priority (lower index):
    the containment the priority table sanctions. *)
Definition sanctioned_inside (b k : DetectedBlock) : Prop :=
  inside b k = true /\ prio b < prio k.

(** The span of [b] lies in the text and [b] stores that slice of it. *)
Definition block_ok (t : str) (b : DetectedBlock) : Prop :=
  start_index b <= end_index b /\ end_index b <= List.length t /\
  text b = slice t (start_index b) (end_index b).






(** Where the global JSON scan ends the snippet of an unclosed brace: at the
    next blank line, at most 2000 characters on. *)
Definition unclosed_end (t : str) (pos : nat) : nat :=
  let tail_end := Nat.min (self_n t) (pos + 2000) in
  match Re.re_search Pat.blank_line (span_text t pos tail_end) with
  | Some dn => pos + Re.mt_start dn
  | None => tail_end
  end.


(** The records entry of a fragment whose normalized value is [v]. *)
Definition record_of (b : DetectedBlock) (v : json) : record :=
  mkRecord (format_type b) (start_index b) (end_index b) (Some v).


(** ** The claims of the specification that the code does not meet, as the
    specification states them *)

(** Any two distinct fragments are disjoint or in a sanctioned containment. *)
Definition spec_no_partial_overlap (t : str) : Prop :=
  forall r b k,
    parse_file t = Some r -> In b (fragments r) -> In k (fragments r) -> b <> k ->
    disjoint_spans b k \/ sanctioned_inside b k \/ sanctioned_inside k b.




Definition scenario_d : str :=
  lit "<table><tr><th>x</th></tr><tr><td>1</td></tr></table>".

(** Scenario D: the first row is the header, the record is [[{x: 1}]]. *)
Definition spec_table_first_row_header : Prop :=
  exists r b, parse_file scenario_d = Some r /\ fragments r = [b] /\
    format_type b = "HTML_TABLE"%string /\
    normalize b = Some (JArr [JObj [(ustr_of (lit "x"), JStr (ustr_of (lit "1")))]]).


(** [o] is where line [i] of the text starts: the line stands there, and [i]
    line boundaries precede it. *)
Definition line_starts_at (t : str) (i o : nat) : Prop :=
  slice t o (o + List.length (nth i (splitlines t) [])) = nth i (splitlines t) [] /\
  List.length (splitlines (firstn o t)) = i.

(** The line table maps every line index to the start of its line. *)
Definition spec_char_pos_exact (t : str) : Prop :=
  forall i, i < List.length (text_lines t) -> line_starts_at t i (nth i (char_pos t) 0).

(** ** Notions used in the proofs *)

(** No CR is followed by LF. *)
Definition no_crlf (t : str) : Prop :=
  forall j, nth_error t j = Some CR -> nth_error t (S j) <> Some LF.

(** No character of [a] is a line boundary. *)
Definition no_break (a : str) : Prop := Forall (fun c => is_linebreak c = false) a.

(** The loop state [st] agrees with the lexical reading [l] of the prefix. *)
Definition scan_rel (st : scan_state) (l : lex) : Prop :=
  depth st = lex_bal l /\
  match lex_q l with
  | Outside => in_string st = false /\ escape st = false
  | Inside q e => in_string st = true /\ escape st = e /\ string_char st = q
  end.

Definition cap_ok (lo hi : nat) (c : nat * (nat * nat)) : Prop :=
  lo <= fst (snd c) /\ fst (snd c) <= snd (snd c) /\ snd (snd c) <= hi.

(** A state of a match attempt that began at [lo] in a text of length [hi]. *)
Definition within (lo hi : nat) (s : Re.mstate) : Prop :=
  lo <= Re.m_pos s /\ Re.m_pos s + List.length (Re.m_rest s) = hi /\
  Forall (cap_ok lo (Re.m_pos s)) (Re.m_caps s).

(** What the parser relies on: the match and its groups lie between the
    offset where the search began and the end of the text. *)
Definition match_ok (lo hi : nat) (m : Re.re_match) : Prop :=
  lo <= Re.mt_start m /\ Re.mt_start m <= Re.mt_end m /\ Re.mt_end m <= hi /\
  Forall (cap_ok (Re.mt_start m) (Re.mt_end m)) (Re.mt_caps m).

(** [k] was kept before [b]: it sorts first, and it is not a container of
    [b] with a priority index at most that of [b]. *)
Definition kept_before (k b : DetectedBlock) : Prop :=
  span_key_le k b = true /\ ~ (inside b k = true /\ prio k <= prio b).

(** [b] is kept, or a kept block of at least its priority contains it. *)
Definition covered (b : DetectedBlock) (kept : list DetectedBlock) : Prop :=
  exists k, In k kept /\ inside b k = true /\ prio k <= prio b.

(** A block a detector may add: well-placed, of one of the formats [fmts],
    and starting at or after [lo]. *)
Definition emits (t : str) (fmts : list string) (lo : nat) (b : DetectedBlock) : Prop :=
  block_ok t b /\ In (format_type b) fmts /\ lo <= start_index b.

(** [d'] is [d] with blocks satisfying [Q] appended. *)
Definition det_ext (Q : DetectedBlock -> Prop) (d d' : detector) : Prop :=
  exists new, blocks d' = blocks d ++ new /\ Forall Q new.

(** What [char_pos[k]] is: every earlier line counted with one separator. *)
Fixpoint line_offset (lines : list str) (k : nat) {struct k} : nat :=
  match k, lines with
  | S k', ln :: rest => List.length ln + 1 + line_offset rest k'
  | _, _ => 0
  end.


(** ** Notions used in the further properties *)

(** The number of blocks of format [f]. *)
Definition count_format (f : string) (bs : list DetectedBlock) : nat :=
  List.length (filter (fun b => String.eqb (format_type b) f) bs).

(** [d'] is reached from [d] by calls of [add_block], each with a block that
    satisfies [Q] in the state it is added to. *)
Inductive grows (Q : detector -> DetectedBlock -> Prop) : detector -> detector -> Prop :=
| grows_refl (d : detector) : grows Q d d
| grows_add (d d' : detector) (b : DetectedBlock) :
    grows Q d d' -> Q d' b -> grows Q d (add_block d' b).

(** The confidences the detectors assign to a block of format [f]; an HTML
    block gets [0.5 + min(0.4, 0.03 * k)] for a tag count [k]. *)
Definition assigned_confidences (f : string) : list Q :=
  if String.eqb f "JSON_LD" then [0.99; 0.6]%Q
  else if String.eqb f "YAML_FRONTMATTER" then [0.95; 0.6]%Q
  else if String.eqb f "JSON" then [0.99; 0.98]%Q
  else if String.eqb f "MALFORMED_JSON" then [0.45; 0.4; 0.5; 0.25; 0.35]%Q
  else if String.eqb f "HTML_TABLE" then [0.95; 0.6]%Q
  else if String.eqb f "JS_OBJECT" then [0.88]%Q
  else if String.eqb f "CSV" then [0.9]%Q
  else if String.eqb f "CSV_NO_HEADER" then [0.7]%Q
  else if String.eqb f "KEY_VALUE" then [0.9]%Q
  else if String.eqb f "SQL" then [0.9]%Q
  else if String.eqb f "RAW_TEXT" then [0.35]%Q
  else [].

Definition conf_ok (b : DetectedBlock) : Prop :=
  if String.eqb (format_type b) "HTML"
  then (0.5 <= confidence b)%Q /\ (confidence b <= 0.9)%Q
  else In (confidence b) (assigned_confidences (format_type b)).

(** What the code has established about a block when it calls [add_block]:
    its confidence, that a JSON block strictly parses to an object, that a
    RAW_TEXT block is a non-empty stripped paragraph, and the size tests of
    the HTML, CSV, key-value and unclosed-brace branches. *)
Record block_facts (b : DetectedBlock) : Prop := mkFacts {
  bf_conf : conf_ok b;
  bf_json : format_type b = "JSON"%string ->
            exists fields, json_loads (strip (text b)) = Some (JObj fields);
  bf_raw : format_type b = "RAW_TEXT"%string ->
           text b <> [] /\ strip (text b) = text b;
  bf_html : format_type b = "HTML"%string -> 20 < end_index b - start_index b;
  bf_csv : format_type b = "CSV"%string \/ format_type b = "CSV_NO_HEADER"%string ->
           exists cand n, meta b = [("delimiter"%string, MStr [cand]); ("rows"%string, MNat n)] /\
                          In cand [","%char; TAB; ";"%char] /\ 2 <= n <= 200;
  bf_kv : format_type b = "KEY_VALUE"%string ->
          exists n, meta b = [("pairs"%string, MNat n)] /\ 2 <= n;
  bf_unclosed : meta b = [("note"%string, MStr (lit "unclosed"))] ->
                end_index b - start_index b <= 2000
}.

(** A block of one of the formats [fmts], added after the test
    [not self.is_occupied(start, end)] when its format is in [guarded]. *)
Definition adds (fmts guarded : list string) (d : detector) (b : DetectedBlock) : Prop :=
  In (format_type b) fmts /\
  (In (format_type b) guarded ->
   is_occupied d (start_index b) (end_index b) = false) /\
  block_facts b.

(** Every block of a reserving format has its span in [occupied]. *)
Definition reserved_tracked (d : detector) : Prop :=
  forall k, In k (blocks d) -> In (format_type k) reserving ->
            In (start_index k, end_index k) (occupied d).

(** The formats of the detectors that run before the HTML detector. *)
Definition early_formats : list string :=
  ["JSON_LD"; "YAML_FRONTMATTER"; "JSON"; "MALFORMED_JSON"]%string.

(** The formats of the detectors that run after the HTML detector, and
    those of them that are added only where nothing is reserved. *)
Definition low_formats : list string :=
  ["JS_OBJECT"; "CSV"; "CSV_NO_HEADER"; "KEY_VALUE"; "SQL"; "RAW_TEXT"]%string.

Definition low_guarded : list string :=
  ["CSV"; "CSV_NO_HEADER"; "KEY_VALUE"; "SQL"; "RAW_TEXT"]%string.

(** The formats [Normalizer.normalize] has a branch for. *)
Definition normalized_formats : list string :=
  ["JSON"; "JSON_LD"; "MALFORMED_JSON"; "CSV"; "CSV_NO_HEADER"; "HTML_TABLE";
   "KEY_VALUE"; "JS_OBJECT"; "SQL"]%string.

Definition is_object (v : json) : Prop :=
  match v with JObj _ => True | _ => False end.

(** An entry [k: v] of the mapping [_parse_kv] builds: the key is stripped
    and holds no colon, the value has no double quote left to strip. *)
Definition parsed_pair (e : ustr * json) : Prop :=
  exists k v, e = (ustr_of k, JStr (ustr_of v)) /\
              strip k = k /\ ~ In ":"%char k /\ strip_chars (chr_eq DQ) v = v.

(** An entry of the mapping [_extract_kv_pairs] builds: key and value are
    stripped. *)
Definition salvaged_pair (e : ustr * json) : Prop :=
  exists k v, e = (ustr_of k, JStr (ustr_of v)) /\ strip k = k /\ strip v = v.

(** Every match of [r] consumes at least one character of class [p]. *)
Fixpoint needs (p : ascii -> bool) (r : Re.regex) : Prop :=
  match r with
  | Re.RChar q => forall c, q c = true -> p c = true
  | Re.RSeq a b => needs p a \/ needs p b
  | Re.RAlt a b => needs p a /\ needs p b
  | Re.RRep _ lo _ q => 1 <= lo /\ forall c, q c = true -> p c = true
  | Re.RGroup _ a => needs p a
  | _ => False
  end.

(** A key and a value written as the line [k: v], and such lines joined by
    LF. *)
Definition written_pair (kv : str * str) : str := fst kv ++ lit ": " ++ snd kv.

Fixpoint written_pairs (ps : list (str * str)) : str :=
  match ps with
  | [] => []
  | [kv] => written_pair kv
  | kv :: rest => written_pair kv ++ LF :: written_pairs rest
  end.

(** A key and a value that [_parse_kv] reads back as they are: one line
    each, stripped, the key without colon, the value without a double quote
    at either end. *)
Definition plain_pair (kv : str * str) : Prop :=
  no_break (fst kv) /\ no_break (snd kv) /\
  strip (fst kv) = fst kv /\ ~ In ":"%char (fst kv) /\
  strip (snd kv) = snd kv /\ strip_chars (chr_eq DQ) (snd kv) = snd kv.

Definition nonspace (c : ascii) : bool := negb (is_space c).

(** A text made of whitespace only (the empty text included). *)
Definition blank (t : str) : Prop := Forall (fun c => is_space c = true) t.

(** ** Inputs and blocks the theorems refer to *)

(** A CSV run and a key-value run that share a line. *)
Definition csv_kv_text : str := esc "a,b\nc:d,e\nf:g".

(** A statement inside a line of prose. *)
Definition sql_in_prose : str := lit "Run SELECT a FROM b; before noon".


(** What the normalizer returns for scenario D. *)
Definition scenario_d_rows : json :=
  JArr [JObj [(ustr_of (lit "col_0"), JStr (ustr_of (lit "x")))];
        JObj [(ustr_of (lit "col_0"), JStr (ustr_of (lit "1")))]].

(** A section marked JSON whose body is the literal [null]. *)
Definition null_section : str := esc "--- JSON\nnull\n".

(** Two CSV lines separated by CR LF. *)
Definition crlf_csv : str := esc "a,b\r\nc,d".






(** Scenario A. *)
Definition scenario_a : str := esc "{\qa\q: 1, \qb\q: 2}".


(** An object, a blank line and a paragraph of prose. *)
Definition json_then_prose : str :=
  esc "{\qa\q: 1}\n\nThe quick brown fox jumps over the lazy dog".

(** A generic block followed by a table. *)
Definition block_then_table : str :=
  lit "<div><p>some words in a block</p></div><table><tr><td>1</td></tr></table>".

(** Two tables, one after the other. *)
Definition two_tables : str :=
  lit "<table><tr><td>1</td></tr></table><table><tr><td>2</td></tr></table>".

(** Scenario C. *)
Definition two_csv_lines : str := esc "name,age\nAlice,30".

Definition no_block : DetectedBlock := mkBlock "" 0 0 0 [] [].

(** Three candidate blocks: one containing another, and one apart. *)
Definition outer_block : DetectedBlock := mkBlock "HTML" 0 10 0.5 [] [].
Definition inner_block : DetectedBlock := mkBlock "RAW_TEXT" 2 5 0.35 [] [].
Definition apart_block : DetectedBlock := mkBlock "SQL" 12 20 0.9 [] [].

(* ================================================================== *)
(** * Proofs *)
(* ================================================================== *)

Import Re.

(** ** Characters and slices *)

Lemma chr_eq_true (a c : ascii) : chr_eq a c = true <-> c = a.
Proof.
  unfold chr_eq. rewrite Ascii.eqb_eq. split; congruence.
Qed.

Lemma chr_eq_false (a c : ascii) : chr_eq a c = false <-> c <> a.
Proof.
  unfold chr_eq. rewrite Ascii.eqb_neq. split; congruence.
Qed.

Lemma slice_full (t : str) : slice t 0 (List.length t) = t.
Proof. unfold slice. simpl. rewrite Nat.sub_0_r. apply firstn_all. Qed.

(** ** The span finder *)

Lemma first_brace_some (rest : str) (i s : nat) (rest' : str) :
  first_brace i rest = Some (s, rest') ->
  exists pre tl, rest = pre ++ rest' /\ rest' = "{"%char :: tl /\
                 s = i + List.length pre /\
                 forall k, k < List.length pre -> nth_error pre k <> Some "{"%char.
Proof.
  revert i; induction rest as [|c rest IH]; intros i H; simpl in H; [discriminate|].
  destruct (chr_eq "{" c) eqn:E.
  - apply chr_eq_true in E; subst c. injection H as <- <-.
    exists [], rest. split; [reflexivity|]. split; [reflexivity|]. split; [simpl; lia|].
    simpl; intros k Hk; lia.
  - apply IH in H. destruct H as (pre & tl & -> & -> & -> & Hno).
    exists (c :: pre), tl. split; [reflexivity|]. split; [reflexivity|]. split; [simpl; lia|].
    intros [|k] Hk; simpl in *.
    + apply chr_eq_false in E. congruence.
    + apply Hno. lia.
Qed.

Lemma first_brace_none (rest : str) (i : nat) :
  first_brace i rest = None -> forall k, nth_error rest k <> Some "{"%char.
Proof.
  revert i; induction rest as [|c rest IH]; intros i H k; simpl in H.
  - now destruct k.
  - destruct (chr_eq "{" c) eqn:E; [discriminate|].
    destruct k as [|k]; simpl.
    + apply chr_eq_false in E. congruence.
    + eapply IH; eauto.
Qed.

Lemma scan_step_rel (st : scan_state) (l : lex) (ch : ascii) :
  scan_rel st l -> (1 <= lex_bal l)%Z ->
  match scan_step st ch with
  | inr _ => ch = "}"%char /\ lex_q l = Outside /\ lex_bal (lex_step l ch) = 0%Z
  | inl st' => scan_rel st' (lex_step l ch) /\ (1 <= lex_bal (lex_step l ch))%Z
  end.
Proof.
  intros [Hd Hq] Hb. unfold scan_step, lex_step, scan_rel in *.
  destruct (lex_q l) as [|q [|]] eqn:Eql.
  - destruct Hq as [Hin Hesc]. rewrite Hin.
    destruct (chr_eq DQ ch || chr_eq SQ ch) eqn:Eq; simpl.
    + auto.
    + destruct (chr_eq "{" ch) eqn:Eo; simpl.
      * repeat split; auto; lia.
      * destruct (chr_eq "}" ch) eqn:Ec.
        -- destruct (depth st - 1 =? 0)%Z eqn:Ez; simpl.
           ++ apply chr_eq_true in Ec. apply Z.eqb_eq in Ez. repeat split; auto; lia.
           ++ apply Z.eqb_neq in Ez. repeat split; auto; lia.
        -- rewrite Eql. auto.
  - destruct Hq as (Hin & Hesc & Hc). rewrite Hin, Hesc. simpl. auto.
  - destruct Hq as (Hin & Hesc & Hc). rewrite Hin, Hesc, Hc.
    destruct (chr_eq BSL ch) eqn:Eb; simpl.
    + auto.
    + destruct (chr_eq q ch) eqn:Eq; simpl.
      * auto.
      * rewrite Eql. auto.
Qed.

Lemma lex_of_snoc (w : str) (c : ascii) : lex_of (w ++ [c]) = lex_step (lex_of w) c.
Proof. unfold lex_of. now rewrite fold_left_app. Qed.

Lemma firstn_S_snoc {A : Type} (l : list A) (k : nat) (x : A) :
  nth_error l k = Some x -> firstn (S k) l = firstn k l ++ [x].
Proof.
  revert l; induction k as [|k IH]; intros [|y l] H; simpl in *; try discriminate.
  - now inversion H.
  - f_equal. now apply IH.
Qed.

Lemma scan_span_inv (rest : str) : forall (w : str) (start j budget : nat) (st : scan_state),
  scan_rel st (lex_of w) -> (1 <= balance w)%Z ->
  match scan_span start j budget st rest with
  | Some (s', e) =>
      s' = start /\ exists k, k < budget /\ e = j + k + 1 /\
        nth_error rest k = Some "}"%char /\
        lex_q (lex_of (w ++ firstn k rest)) = Outside /\
        balance (w ++ firstn (S k) rest) = 0%Z /\
        forall k', k' <= k -> (1 <= balance (w ++ firstn k' rest))%Z
  | None =>
      forall k, k < budget -> k < List.length rest ->
                (1 <= balance (w ++ firstn (S k) rest))%Z
  end.
Proof.
  induction rest as [|ch rest IH]; intros w start j budget st Hrel Hbal.
  - destruct budget; simpl; intros k _ Hk; simpl in Hk; lia.
  - destruct budget as [|b]; simpl.
    + intros k Hk; lia.
    + pose proof (scan_step_rel st (lex_of w) ch Hrel Hbal) as Hstep.
      destruct (scan_step st ch) as [st'|[]].
      * destruct Hstep as [Hrel' Hbal'].
        rewrite <- lex_of_snoc in Hrel', Hbal'.
        specialize (IH (w ++ [ch]) start (S j) b st' Hrel' Hbal').
        destruct (scan_span start (S j) b st' rest) as [[s' e]|].
        -- destruct IH as (-> & k & Hk & -> & Hn & Hq & Hz & Hpos).
           split; [reflexivity|]. exists (S k). repeat split; try lia; auto.
           ++ simpl. now rewrite <- app_assoc in Hq.
           ++ simpl. now rewrite <- app_assoc in Hz.
           ++ intros [|k'] Hk'; simpl.
              ** now rewrite app_nil_r.
              ** specialize (Hpos k'). rewrite <- app_assoc in Hpos. apply Hpos. lia.
        -- intros [|k] Hk Hlen; simpl.
           ++ exact Hbal'.
           ++ specialize (IH k). rewrite <- app_assoc in IH. apply IH; simpl in Hlen; lia.
      * destruct Hstep as (-> & Hq & Hz).
        split; [reflexivity|]. exists 0. repeat split; try lia; auto.
        -- simpl. now rewrite app_nil_r.
        -- simpl. unfold balance. now rewrite lex_of_snoc.
        -- intros k' Hk'. assert (k' = 0) by lia. subst. simpl. now rewrite app_nil_r.
Qed.

Lemma skipn_length_app {A : Type} (l pre post : list A) (p : nat) :
  skipn p l = pre ++ post -> post <> [] ->
  skipn (p + List.length pre) l = post /\ List.length l = p + List.length pre + List.length post.
Proof.
  intros H Hne. split.
  - rewrite Nat.add_comm, <- skipn_skipn, H.
    rewrite skipn_app, skipn_all, Nat.sub_diag. reflexivity.
  - assert (p <= List.length l).
    { destruct (Nat.le_gt_cases p (List.length l)) as [|Hgt]; [assumption|].
      rewrite skipn_all2 in H by lia. destruct pre, post; simpl in H; congruence. }
    pose proof (f_equal (@List.length A) H) as HL.
    rewrite length_skipn, length_app in HL. lia.
Qed.

Lemma slice_cons_skipn (t : str) (i : nat) (c : ascii) (tl : str) (k : nat) :
  skipn i t = c :: tl -> slice t i (i + S k) = [c] ++ firstn k tl.
Proof.
  intros H. unfold slice. rewrite H. replace (i + S k - i) with (S k) by lia. reflexivity.
Qed.

(** The two outcomes of the span finder: the closure it returns is the first
    one after the first opening brace, and it returns none only when there is
    no brace or no closure inside the window. *)
Lemma find_json_span_cases (t : str) (p m : nat) :
  match find_json_span t p m with
  | Some (s, e) => first_brace_at t p s /\ closes_at t s e /\ e <= s + m
  | None =>
      (forall k, p <= k -> nth_error t k <> Some "{"%char) \/
      (exists s, first_brace_at t p s /\
                 forall e, s < e -> e <= List.length t -> e <= s + m ->
                           (0 < balance (slice t s e))%Z)
  end.
Proof.
  unfold find_json_span.
  destruct (first_brace p (skipn p t)) as [[i rest]|] eqn:Hfb.
  2:{ left. intros k Hk. pose proof (first_brace_none _ _ Hfb (k - p)) as Hn.
      rewrite nth_error_skipn in Hn. now replace (p + (k - p)) with k in Hn by lia. }
  apply first_brace_some in Hfb. destruct Hfb as (pre & tl & Hsk & -> & -> & Hno).
  destruct (skipn_length_app t pre ("{"%char :: tl) p Hsk) as [Hski Hlen]; [discriminate|].
  simpl in Hlen. set (i := p + List.length pre) in *.
  assert (Hfirst : first_brace_at t p i).
  { split; [unfold i; lia|]. split.
    - replace i with (i + 0) by lia. rewrite <- nth_error_skipn, Hski. reflexivity.
    - intros k Hk. replace k with (p + (k - p)) by lia.
      rewrite <- nth_error_skipn, Hsk, nth_error_app1 by (unfold i in Hk; lia).
      apply Hno. unfold i in Hk; lia. }
  destruct (Nat.min (List.length t) (i + m) - i) as [|b] eqn:Hbud.
  { simpl. right. exists i. split; [assumption|]. intros e H1 H2 H3. lia. }
  simpl.
  assert (Hrel : scan_rel (mkScan (0 + 1) false false "000"%char) (lex_of ["{"%char])).
  { split; simpl; auto. }
  assert (Hbal : (1 <= balance ["{"%char])%Z) by (unfold balance; simpl; lia).
  pose proof (scan_span_inv tl ["{"%char] i (S i) b _ Hrel Hbal) as Hinv.
  change (scan_step scan_init "{"%char) with
    (@inl scan_state unit (mkScan (0 + 1) false false "000"%char)).
  cbv iota.
  destruct (scan_span i (S i) b _ tl) as [[s' e]|].
  - destruct Hinv as (-> & k & Hk & -> & Hn & Hq & Hz & Hpos).
    assert (Hkl : k < List.length tl) by (apply nth_error_Some; congruence).
    split; [assumption|]. split; [|lia].
    unfold closes_at. split; [lia|]. split; [lia|].
    replace (S i + k + 1 - 1) with (i + S k) by lia.
    replace (S i + k + 1) with (i + S (S k)) by lia.
    rewrite !(slice_cons_skipn t i _ tl _ Hski).
    split; [|split; [assumption|split; [assumption|]]].
    + rewrite <- nth_error_skipn, Hski. exact Hn.
    + intros e' He'. replace e' with (i + S (e' - i - 1)) by lia.
      rewrite (slice_cons_skipn t i _ tl _ Hski).
      specialize (Hpos (e' - i - 1)). lia.
  - right. exists i. split; [assumption|]. intros e H1 H2 H3.
    replace e with (i + S (e - i - 1)) by lia.
    rewrite (slice_cons_skipn t i _ tl _ Hski).
    destruct (e - i - 1) as [|k] eqn:Hk.
    + simpl. unfold balance in Hbal. unfold balance. simpl in *. lia.
    + specialize (Hinv k). lia.
Qed.

(** C7. For every text and start position, [find_json_span] scans forward to
    the first opening brace at or after the start position and follows the
    nesting depth, braces inside single- or double-quoted strings being
    ignored and an escaped quote not ending its string.  When it returns
    [(start, end)], [text[start]] is that opening brace, [text[end-1]] is the
    closing brace at which the depth first returns to zero, and
    [start <= end-1 < len(text)].  It returns no match exactly when there is
    no opening brace, or the depth does not return to zero within the
    [max_len] characters after the brace: it never looks beyond that window. *)
Theorem find_json_span_spec (t : str) (start_pos max_len : nat) :
  match find_json_span t start_pos max_len with
  | Some (s, e) =>
      first_brace_at t start_pos s /\
      nth_error t s = Some "{"%char /\ nth_error t (e - 1) = Some "}"%char /\
      s <= e - 1 /\ e - 1 < List.length t /\
      closes_at t s e /\ e <= s + max_len
  | None =>
      (forall k, start_pos <= k -> nth_error t k <> Some "{"%char) \/
      (exists s, first_brace_at t start_pos s /\
                 forall e, s < e -> e <= List.length t -> e <= s + max_len ->
                           balance (slice t s e) <> 0%Z)
  end.
Proof.
  pose proof (find_json_span_cases t start_pos max_len) as H.
  destruct (find_json_span t start_pos max_len) as [[s e]|].
  - destruct H as (Hfb & Hcl & Hwin).
    pose proof Hfb as (_ & Hs & _). pose proof Hcl as (Hse & Hen & He & _).
    repeat split; try assumption; try apply Hfb; try apply Hcl; lia.
  - destruct H as [H|(s & Hfb & H)]; [now left|right].
    exists s. split; [assumption|]. intros e H1 H2 H3. specialize (H e H1 H2 H3). lia.
Qed.

(** ** Offsets reported by the matcher stay inside the text *)

Lemma cap_ok_mono (lo hi hi' : nat) (c : nat * (nat * nat)) :
  hi <= hi' -> cap_ok lo hi c -> cap_ok lo hi' c.
Proof. unfold cap_ok; intros; lia. Qed.

Lemma caps_mono (lo hi hi' : nat) (caps : list (nat * (nat * nat))) :
  hi <= hi' -> Forall (cap_ok lo hi) caps -> Forall (cap_ok lo hi') caps.
Proof. intros H. apply Forall_impl. intros c. now apply cap_ok_mono. Qed.

Lemma in_skipn {A : Type} (x : A) (n : nat) (l : list A) :
  In x (skipn n l) -> In x l.
Proof.
  intros H. rewrite <- (firstn_skipn n l). apply in_or_app. now right.
Qed.

Lemma runs_within (p : ascii -> bool) (lo hi : nat) (rest : str) :
  forall (h : option nat) (pos : nat) (prev : option ascii) caps s',
    lo <= pos -> pos + List.length rest = hi -> Forall (cap_ok lo pos) caps ->
    In s' (runs p h pos prev rest caps) ->
    within lo hi s' /\ pos <= m_pos s'.
Proof.
  induction rest as [|c rest IH]; intros h pos prev caps s' Hlo Hhi Hc Hin; simpl in Hin.
  - destruct Hin as [<-|[]]. unfold within; simpl. auto.
  - destruct Hin as [<-|Hin]; [unfold within; simpl; auto|].
    destruct (p c && hi_allows h); [|destruct Hin].
    apply IH in Hin; simpl in *; try lia.
    + destruct Hin; split; [assumption|lia].
    + eapply caps_mono; [|eassumption]. lia.
Qed.

Lemma rmatch_within (r : regex) : forall (lo hi : nat) (s s' : mstate),
  within lo hi s -> In s' (rmatch r s) -> within lo hi s' /\ m_pos s <= m_pos s'.
Proof.
  induction r as [|p|a IHa b IHb|a IHa b IHb|g l h p|a IHa|i a IHa|ml| | |p|p];
    intros lo hi s s' Hw Hin; simpl in Hin.
  - destruct Hin as [<-|[]]; auto.
  - destruct Hw as (Hlo & Hhi & Hc).
    destruct (m_rest s) as [|c rest] eqn:Er; [destruct Hin|].
    destruct (p c); [|destruct Hin]. destruct Hin as [<-|[]].
    unfold within; simpl in *. repeat split; try lia.
    eapply caps_mono; [|eassumption]. lia.
  - apply in_flat_map in Hin. destruct Hin as (s1 & H1 & H2).
    destruct (IHa _ _ _ _ Hw H1) as [Hw1 Hp1].
    destruct (IHb _ _ _ _ Hw1 H2) as [Hw2 Hp2]. split; [assumption|lia].
  - apply in_app_or in Hin. destruct Hin as [Hin|Hin]; eauto.
  - destruct Hw as (Hlo & Hhi & Hc).
    assert (Hin' : In s' (runs p h (m_pos s) (m_prev s) (m_rest s) (m_caps s))).
    { destruct g.
      - apply in_rev in Hin. eapply in_skipn; eauto.
      - eapply in_skipn; eauto. }
    eapply runs_within; eauto.
  - apply in_app_or in Hin. destruct Hin as [Hin|[<-|[]]]; eauto.
  - apply in_map_iff in Hin. destruct Hin as (s1 & <- & H1).
    destruct (IHa _ _ _ _ Hw H1) as [(Hlo & Hhi & Hc) Hp1].
    destruct Hw as (Hlo0 & _ & _).
    unfold within, set_cap; simpl. repeat split; auto.
    constructor; [unfold cap_ok; simpl; lia|assumption].
  - destruct (m_prev s) as [c|].
    + destruct (ml && chr_eq LF c); [|destruct Hin]. destruct Hin as [<-|[]]; auto.
    + destruct Hin as [<-|[]]; auto.
  - destruct (m_rest s) as [|c [|c' rest]]; try (destruct Hin as [<-|[]]; now auto).
    + destruct (chr_eq LF c); [|destruct Hin]. destruct Hin as [<-|[]]; auto.
    + destruct Hin.
  - destruct (xorb _ _); [|destruct Hin]. destruct Hin as [<-|[]]; auto.
  - destruct (m_rest s) as [|c rest]; [destruct Hin|].
    destruct (p c); [|destruct Hin]. destruct Hin as [<-|[]]; auto.
  - destruct (m_prev s) as [c|]; [|destruct Hin].
    destruct (p c); [|destruct Hin]. destruct Hin as [<-|[]]; auto.
Qed.

Lemma match_at_ok (r : regex) (pos : nat) (prev : option ascii) (rest : str) (m : re_match) :
  match_at r pos prev rest = Some m ->
  match_ok pos (pos + List.length rest) m /\ mt_start m = pos.
Proof.
  unfold match_at. destruct (rmatch r _) as [|s' l] eqn:E; [discriminate|].
  intros H; injection H as <-.
  assert (Hw : within pos (pos + List.length rest) (MState pos prev rest [])).
  { unfold within; simpl; auto. }
  destruct (rmatch_within r _ _ _ s' Hw) as [(Hlo & Hhi & Hc) Hp]; [rewrite E; now left|].
  simpl in *. unfold match_ok; simpl. repeat split; auto; lia.
Qed.

Lemma match_ok_weaken (lo lo' hi : nat) (m : re_match) :
  lo' <= lo -> match_ok lo hi m -> match_ok lo' hi m.
Proof. unfold match_ok; intros ? (? & ? & ? & ?); repeat split; auto; lia. Qed.

Lemma search_from_ok (r : regex) (rest : str) :
  forall (pos : nat) (prev : option ascii) (m : re_match),
    search_from r pos prev rest = Some m ->
    match_ok pos (pos + List.length rest) m.
Proof.
  induction rest as [|c rest IH]; intros pos prev m H; simpl in H.
  - destruct (match_at r pos prev []) eqn:E; [|discriminate].
    injection H as ->. now apply match_at_ok in E.
  - destruct (match_at r pos prev (c :: rest)) eqn:E.
    + injection H as ->. now apply match_at_ok in E.
    + apply IH in H. simpl. replace (pos + S (List.length rest)) with (S pos + List.length rest) by lia.
      eapply match_ok_weaken; [|eassumption]. lia.
Qed.

Lemma re_search_ok (r : regex) (t : str) (m : re_match) :
  re_search r t = Some m -> match_ok 0 (List.length t) m.
Proof. intros H. now apply search_from_ok in H. Qed.

Lemma finditer_from_ok (r : regex) (rest : str) :
  forall (skip pos : nat) (prev : option ascii),
    Forall (match_ok pos (pos + List.length rest)) (finditer_from r skip pos prev rest).
Proof.
  induction rest as [|c rest IH]; intros skip pos prev; simpl.
  - destruct skip; [|constructor].
    destruct (match_at r pos prev []) eqn:E; [|constructor].
    constructor; [|constructor]. now apply match_at_ok in E.
  - assert (Hnext : forall k p', Forall (match_ok pos (pos + S (List.length rest)))
                                   (finditer_from r k (S pos) p' rest)).
    { intros k p'. eapply Forall_impl; [|apply IH].
      intros m Hm. replace (pos + S (List.length rest)) with (S pos + List.length rest) by lia.
      eapply match_ok_weaken; [|eassumption]. lia. }
    destruct skip; [|apply Hnext].
    destruct (match_at r pos prev (c :: rest)) eqn:E; [|apply Hnext].
    constructor; [|apply Hnext]. apply match_at_ok in E. now destruct E.
Qed.

Lemma finditer_ok (r : regex) (t : str) :
  Forall (match_ok 0 (List.length t)) (finditer r t).
Proof. apply (finditer_from_ok r t 0 0 None). Qed.

Lemma lookup_cap_ok (lo hi i : nat) (caps : list (nat * (nat * nat))) (sp : nat * nat) :
  Forall (cap_ok lo hi) caps -> lookup_cap i caps = Some sp ->
  lo <= fst sp /\ fst sp <= snd sp /\ snd sp <= hi.
Proof.
  induction caps as [|[j sp'] caps IH]; intros HF H; simpl in H; [discriminate|].
  inversion HF; subst. destruct (i =? j).
  - injection H as <-. assumption.
  - auto.
Qed.

Lemma group_span_ok (lo hi : nat) (m : re_match) (i : nat) :
  match_ok lo hi m ->
  fst (group_span m i) <= snd (group_span m i) /\ snd (group_span m i) <= hi.
Proof.
  intros (H1 & H2 & H3 & HF). unfold group_span.
  destruct (lookup_cap i (mt_caps m)) as [sp|] eqn:E; simpl; [|lia].
  destruct (lookup_cap_ok _ _ _ _ _ HF E). lia.
Qed.

(** ** The stable sort *)

Section Sorting.

Variable A : Type.
Variable le : A -> A -> bool.
Hypothesis le_total : forall x y, le x y = true \/ le y x = true.
Hypothesis le_trans : forall x y z, le x y = true -> le y z = true -> le x z = true.

Lemma insert_sorted_perm (x : A) (l : list A) : Permutation (insert_sorted le x l) (x :: l).
Proof.
  induction l as [|y l IH]; simpl; [reflexivity|].
  destruct (le x y); [reflexivity|].
  rewrite IH. apply perm_swap.
Qed.

Lemma sorted_by_perm (l : list A) : Permutation (sorted_by le l) l.
Proof.
  induction l as [|x l IH]; simpl; [reflexivity|].
  rewrite insert_sorted_perm. now constructor.
Qed.

Lemma sorted_by_In (l : list A) (x : A) : In x (sorted_by le l) <-> In x l.
Proof.
  split; apply Permutation_in; [|symmetry]; apply sorted_by_perm.
Qed.

Lemma insert_sorted_sorted (x : A) (l : list A) :
  StronglySorted (fun a b => le a b = true) l ->
  StronglySorted (fun a b => le a b = true) (insert_sorted le x l).
Proof.
  induction 1 as [|y l Hs IH Hy]; simpl.
  - constructor; constructor.
  - destruct (le x y) eqn:E.
    + constructor; [constructor; assumption|].
      constructor; [assumption|].
      eapply Forall_impl; [|exact Hy]. intros z Hz. eapply le_trans; eauto.
    + constructor; [assumption|].
      assert (Hyx : le y x = true) by (destruct (le_total x y); congruence).
      eapply Permutation_Forall; [symmetry; apply insert_sorted_perm|].
      constructor; assumption.
Qed.

Lemma sorted_by_sorted (l : list A) :
  StronglySorted (fun a b => le a b = true) (sorted_by le l).
Proof.
  induction l as [|x l IH]; simpl; [constructor|]. now apply insert_sorted_sorted.
Qed.

(** A block that sorts before all others and comes first stays first. *)
Lemma sorted_by_head (x : A) (l : list A) :
  (forall y, In y l -> le x y = true) -> sorted_by le (x :: l) = x :: sorted_by le l.
Proof.
  intros H. simpl. destruct (sorted_by le l) as [|y l'] eqn:E; [reflexivity|].
  simpl. rewrite H; [reflexivity|]. apply sorted_by_In. rewrite E. now left.
Qed.

End Sorting.

Lemma span_key_le_total (x y : DetectedBlock) :
  span_key_le x y = true \/ span_key_le y x = true.
Proof.
  unfold span_key_le.
  destruct (start_index x <? start_index y) eqn:E1; [now left|].
  destruct (start_index y <? start_index x) eqn:E2; [now right|].
  apply Nat.ltb_ge in E1, E2.
  assert (E : start_index x = start_index y) by lia.
  rewrite E, !Nat.eqb_refl. simpl.
  destruct (Z.leb_spec (- (Z.of_nat (end_index x) - Z.of_nat (start_index y)))
                       (- (Z.of_nat (end_index y) - Z.of_nat (start_index y)))); [now left|].
  right. apply Z.leb_le. lia.
Qed.

Lemma span_key_le_spec (x y : DetectedBlock) :
  span_key_le x y = true <->
  start_index x < start_index y \/
  (start_index x = start_index y /\ end_index y <= end_index x).
Proof.
  unfold span_key_le. rewrite orb_true_iff, andb_true_iff, Nat.ltb_lt, Nat.eqb_eq, Z.leb_le.
  split; intros [H|[H1 H2]]; auto; right; split; auto; lia.
Qed.

Lemma span_key_le_trans (x y z : DetectedBlock) :
  span_key_le x y = true -> span_key_le y z = true -> span_key_le x z = true.
Proof. rewrite !span_key_le_spec. lia. Qed.

Lemma start_le_total (x y : DetectedBlock) : start_le x y = true \/ start_le y x = true.
Proof. unfold start_le. rewrite !Nat.leb_le. lia. Qed.

Lemma start_le_trans (x y z : DetectedBlock) :
  start_le x y = true -> start_le y z = true -> start_le x z = true.
Proof. unfold start_le. rewrite !Nat.leb_le. lia. Qed.

(** ** The resolver *)

Lemma list_index_prio (f : string) (p : nat) :
  list_index f FORMAT_PRIORITY = Some p -> priority_or_len f = p.
Proof. unfold priority_or_len. now intros ->. Qed.

Lemma dedupe_step_cases (kept : list DetectedBlock) (b : DetectedBlock) :
  (find_container b kept = None /\ dedupe_step kept b = kept ++ [b]) \/
  dedupe_step kept b = kept.
Proof.
  unfold dedupe_step. destruct (find_container b kept) as [k|] eqn:E; [right|now left].
  unfold find_container in E. apply find_some in E. destruct E as [_ E].
  apply andb_true_iff in E. destruct E as [_ E]. apply Nat.leb_le in E.
  destruct (list_index (format_type b) FORMAT_PRIORITY) as [pb|] eqn:Eb; [|reflexivity].
  destruct (list_index (format_type k) FORMAT_PRIORITY) as [pk|] eqn:Ek; [|reflexivity].
  rewrite (list_index_prio _ _ Eb), (list_index_prio _ _ Ek) in E.
  destruct (pb <? pk) eqn:El; [|reflexivity]. apply Nat.ltb_lt in El. lia.
Qed.

Lemma ForallOrdPairs_snoc {A : Type} (R : A -> A -> Prop) (l : list A) (x : A) :
  ForallOrdPairs R l -> Forall (fun y => R y x) l -> ForallOrdPairs R (l ++ [x]).
Proof.
  induction 1 as [|y l Hy Hl IH]; intros HF; simpl.
  - constructor; constructor.
  - inversion HF; subst. constructor; [|auto].
    apply Forall_app. split; [assumption|]. constructor; [assumption|constructor].
Qed.

Lemma fold_dedupe_inv (l : list DetectedBlock) : forall kept,
  ForallOrdPairs kept_before kept ->
  StronglySorted (fun a b => span_key_le a b = true) l ->
  (forall k b, In k kept -> In b l -> span_key_le k b = true) ->
  ForallOrdPairs kept_before (fold_left dedupe_step l kept) /\
  (forall x, In x (fold_left dedupe_step l kept) -> In x kept \/ In x l).
Proof.
  induction l as [|b l IH]; intros kept Hk Hs Hkl; simpl; [auto|].
  inversion Hs as [|? ? Hs' Hb]; subst.
  destruct (dedupe_step_cases kept b) as [[Hnone ->]| ->].
  - destruct (IH (kept ++ [b])) as [H1 H2].
    + apply ForallOrdPairs_snoc; [assumption|].
      apply Forall_forall. intros k Hin. split; [apply Hkl; simpl; auto|].
      intros [Hi Hp]. unfold find_container in Hnone.
      pose proof (find_none _ _ Hnone k Hin) as Hf. simpl in Hf.
      unfold prio in Hp. apply Nat.leb_le in Hp. rewrite Hi, Hp in Hf. discriminate.
    + assumption.
    + intros k x Hin Hx. apply in_app_or in Hin. destruct Hin as [Hin|[<-|[]]].
      * apply Hkl; simpl; auto.
      * rewrite Forall_forall in Hb. now apply Hb.
    + split; [assumption|]. intros x Hx. apply H2 in Hx.
      destruct Hx as [Hx|Hx]; [|simpl; auto].
      apply in_app_or in Hx. destruct Hx as [Hx|[<-|[]]]; simpl; auto.
  - destruct (IH kept) as [H1 H2]; auto.
    + intros k x Hin Hx. apply Hkl; simpl; auto.
    + split; [assumption|]. intros x Hx. apply H2 in Hx. simpl. tauto.
Qed.

Lemma inside_spec (b k : DetectedBlock) :
  inside b k = true <-> start_index k <= start_index b /\ end_index b <= end_index k.
Proof. unfold inside. now rewrite andb_true_iff, !Nat.leb_le. Qed.

(** Two kept blocks, one inside the other: their priorities differ, and the
    inner one has the lower index unless the two spans coincide. *)
Lemma kept_pair (x y : DetectedBlock) :
  kept_before x y \/ kept_before y x ->
  inside x y = true ->
  prio x <> prio y /\ (inside y x = false -> prio x < prio y).
Proof.
  intros [[Hkey Hn]|[Hkey Hn]] Hin.
  - apply span_key_le_spec in Hkey. apply inside_spec in Hin.
    assert (Hyx : inside y x = true) by (apply inside_spec; lia).
    split; [|congruence]. intros E. apply Hn. split; [assumption|lia].
  - assert (prio x < prio y); [|split; [lia|auto]].
    destruct (Nat.lt_ge_cases (prio x) (prio y)); [assumption|].
    exfalso. apply Hn. auto.
Qed.

Lemma dedupe_in (bs : list DetectedBlock) (b : DetectedBlock) :
  In b (_dedupe_prioritize bs) ->
  exists x, b = clamp_block x /\ In x (fold_left dedupe_step (sorted_by span_key_le bs) []).
Proof.
  unfold _dedupe_prioritize. intros H. apply in_map_iff in H.
  destruct H as (x & <- & Hx). exists x. split; [reflexivity|].
  now apply sorted_by_In in Hx.
Qed.

Lemma dedupe_sub (bs : list DetectedBlock) (b : DetectedBlock) :
  In b (_dedupe_prioritize bs) -> exists x, b = clamp_block x /\ In x bs.
Proof.
  intros H. apply dedupe_in in H. destruct H as (x & -> & Hx). exists x. split; [reflexivity|].
  destruct (fold_dedupe_inv (sorted_by span_key_le bs) []) as [_ H2].
  - constructor.
  - apply sorted_by_sorted; [apply span_key_le_total|apply span_key_le_trans].
  - intros k b [].
  - apply H2 in Hx. destruct Hx as [[]|Hx]. now apply sorted_by_In in Hx.
Qed.

Lemma dedupe_containment (bs : list DetectedBlock) (b k : DetectedBlock) :
  In b (_dedupe_prioritize bs) -> In k (_dedupe_prioritize bs) -> b <> k ->
  inside b k = true ->
  prio b <> prio k /\ (inside k b = false -> prio b < prio k).
Proof.
  intros Hb Hk Hne Hin.
  apply dedupe_in in Hb. apply dedupe_in in Hk.
  destruct Hb as (x & -> & Hx). destruct Hk as (y & -> & Hy).
  destruct (fold_dedupe_inv (sorted_by span_key_le bs) []) as [H1 _].
  - constructor.
  - apply sorted_by_sorted; [apply span_key_le_total|apply span_key_le_trans].
  - intros ? ? [].
  - destruct (ForallOrdPairs_In H1 x y Hx Hy) as [E|H]; [subst; congruence|].
    apply (kept_pair x y H). exact Hin.
Qed.

(** ** What the detectors add *)

Lemma det_ext_refl (Q : DetectedBlock -> Prop) (d : detector) : det_ext Q d d.
Proof. exists []. split; [now rewrite app_nil_r|constructor]. Qed.

Lemma det_ext_trans (Q : DetectedBlock -> Prop) (d1 d2 d3 : detector) :
  det_ext Q d1 d2 -> det_ext Q d2 d3 -> det_ext Q d1 d3.
Proof.
  intros (n1 & E1 & F1) (n2 & E2 & F2). exists (n1 ++ n2). split.
  - now rewrite E2, E1, app_assoc.
  - apply Forall_app. now split.
Qed.

Lemma det_ext_weaken (Q Q' : DetectedBlock -> Prop) (d d' : detector) :
  (forall b, Q b -> Q' b) -> det_ext Q d d' -> det_ext Q' d d'.
Proof.
  intros H (n & E & F). exists n. split; [assumption|]. eapply Forall_impl; eauto.
Qed.

Lemma blocks_add_block (d : detector) (b : DetectedBlock) :
  blocks (add_block d b) = blocks d ++ [b].
Proof. unfold add_block. destruct (existsb _ _); reflexivity. Qed.

Lemma add_block_ext (Q : DetectedBlock -> Prop) (d : detector) (b : DetectedBlock) :
  Q b -> det_ext Q d (add_block d b).
Proof.
  intros H. exists [b]. split; [apply blocks_add_block|]. now constructor.
Qed.

Lemma fold_left_ext {X : Type} (Q : DetectedBlock -> Prop)
    (f : detector -> X -> detector) (l : list X) :
  forall (P : X -> Prop), Forall P l ->
  (forall d x, P x -> det_ext Q d (f d x)) ->
  forall d, det_ext Q d (fold_left f l d).
Proof.
  intros P HF Hstep. induction HF as [|x l Hx HF IH]; intros d; simpl.
  - apply det_ext_refl.
  - eapply det_ext_trans; [apply Hstep; exact Hx|apply IH].
Qed.

Lemma emits_intro (t : str) (fmts : list string) (lo : nat)
    (f : string) (s e : nat) (c : Q) (mt : list (string * meta_val)) :
  s <= e -> e <= List.length t -> In f fmts -> lo <= s ->
  emits t fmts lo (mkBlock f s e c (span_text t s e) mt).
Proof.
  intros. unfold emits, block_ok; simpl. repeat split; auto.
Qed.

Lemma find_json_span_bounds (t : str) (p m s e : nat) :
  find_json_span t p m = Some (s, e) -> p <= s /\ s < e /\ e <= List.length t.
Proof.
  intros H. pose proof (find_json_span_cases t p m) as Hs. rewrite H in Hs.
  destruct Hs as ((H1 & _) & (H2 & H3 & _) & _). lia.
Qed.

(** *** Detectors driven by [finditer] *)

Lemma detect_json_ld_ext (t : str) (d : detector) :
  det_ext (emits t ["JSON_LD"%string] 0) d (detect_json_ld t d).
Proof.
  unfold detect_json_ld.
  apply fold_left_ext with (P := match_ok 0 (List.length t)); [apply finditer_ok|].
  intros d0 m Hm. pose proof (group_span_ok _ _ m 1 Hm) as Hg.
  destruct (group_span m 1) as [s e]; simpl in Hg.
  apply add_block_ext. apply emits_intro; simpl; auto; lia.
Qed.

Lemma detect_yaml_frontmatter_ext (t : str) (d : detector) :
  det_ext (emits t ["YAML_FRONTMATTER"%string] 0) d (detect_yaml_frontmatter t d).
Proof.
  unfold detect_yaml_frontmatter.
  apply fold_left_ext with (P := match_ok 0 (List.length t)); [apply finditer_ok|].
  intros d0 m Hm. pose proof (group_span_ok _ _ m 2 Hm) as Hg.
  destruct (group_span m 2) as [s e]; simpl in Hg.
  destruct (negb (is_occupied d0 s e)); [|apply det_ext_refl].
  apply add_block_ext. apply emits_intro; simpl; auto; lia.
Qed.

Lemma search_suffix_ok (r : regex) (t : str) (from : nat) (m : re_match) :
  from <= List.length t ->
  re_search r (skipn from t) = Some m ->
  from + mt_start m <= from + mt_end m /\ from + mt_end m <= List.length t.
Proof.
  intros Hf H. apply re_search_ok in H. destruct H as (_ & H1 & H2 & _).
  rewrite length_skipn in H2. lia.
Qed.

Lemma detect_sectioned_jsons_ext (t : str) (d : detector) :
  det_ext (emits t ["JSON"; "MALFORMED_JSON"]%string 0) d (detect_sectioned_jsons t d).
Proof.
  unfold detect_sectioned_jsons.
  apply fold_left_ext with (P := match_ok 0 (List.length t)); [apply finditer_ok|].
  intros d0 m Hm. destruct (group_span m 2) as [hs he].
  destruct Hm as (_ & _ & Hend & _).
  set (body_start := mt_end m) in *.
  set (body_end := match re_search Pat.section_divider (skipn body_start t) with
                   | Some next_div => body_start + mt_start next_div
                   | None => self_n t
                   end).
  assert (Hbe : body_start <= body_end /\ body_end <= List.length t).
  { unfold body_end. destruct (re_search _ _) as [nd|] eqn:E.
    - apply search_suffix_ok in E; [lia|assumption].
    - unfold self_n. lia. }
  destruct (strip (span_text t body_start body_end)) as [|c0 body]; [apply det_ext_refl|].
  destruct (contains_sub _ _ && negb (is_occupied d0 body_start body_end)); [|apply det_ext_refl].
  destruct (find_json_span t body_start default_max_len) as [[s e]|] eqn:Ef.
  - apply find_json_span_bounds in Ef.
    destruct (Json.json_loads _); apply add_block_ext; apply emits_intro; simpl; auto; lia.
  - destruct (negb (is_occupied d0 body_start body_end)); [|apply det_ext_refl].
    apply add_block_ext; apply emits_intro; simpl; auto; lia.
Qed.

Lemma detect_html_tables_ext (t : str) (d : detector) :
  det_ext (emits t ["HTML_TABLE"%string] 0) d (detect_html_tables t d).
Proof.
  unfold detect_html_tables.
  apply fold_left_ext with (P := match_ok 0 (List.length t)); [apply finditer_ok|].
  intros d0 m (_ & Hse & Hend & _).
  destruct (is_occupied d0 (mt_start m) (mt_start m + 1)); [apply det_ext_refl|].
  destruct (re_search Pat.table_close _) as [et|] eqn:E; [|apply det_ext_refl].
  apply search_suffix_ok in E; [|lia].
  destruct (table_shape _) as [rows cols].
  destruct (negb (is_occupied d0 _ _)); [|apply det_ext_refl].
  apply add_block_ext; apply emits_intro; simpl; auto; lia.
Qed.

Lemma detect_html_blocks_ext (t : str) (d : detector) :
  det_ext (emits t ["HTML"%string] 0) d (detect_html_blocks t d).
Proof.
  unfold detect_html_blocks.
  apply fold_left_ext with (P := match_ok 0 (List.length t)); [apply finditer_ok|].
  intros d0 m (_ & Hse & Hend & _).
  destruct (is_occupied d0 (mt_start m) (mt_start m + 1)); [apply det_ext_refl|].
  destruct (group_span m 1) as [ts te].
  destruct (re_search _ _) as [cm|] eqn:E; [|apply det_ext_refl].
  apply search_suffix_ok in E; [|lia].
  destruct ((20 <? _) && negb (is_occupied d0 _ _)); [|apply det_ext_refl].
  apply add_block_ext; apply emits_intro; simpl; auto; lia.
Qed.

Lemma detect_js_objects_ext (t : str) (d : detector) :
  det_ext (emits t ["JS_OBJECT"%string] 0) d (detect_js_objects t d).
Proof.
  unfold detect_js_objects.
  apply fold_left_ext with (P := match_ok 0 (List.length t)); [apply finditer_ok|].
  intros d0 m (_ & Hse & Hend & _).
  destruct (is_occupied d0 (mt_start m) (mt_start m + 1)); [apply det_ext_refl|].
  destruct (find_json_span t _ default_max_len) as [[s e]|] eqn:Ef; [|apply det_ext_refl].
  apply find_json_span_bounds in Ef.
  destruct (negb (is_occupied d0 s e)); [|apply det_ext_refl].
  destruct (group_span m 2) as [vs ve].
  apply add_block_ext; apply emits_intro; simpl; auto; try lia.
  destruct (rfind_char _ _); lia.
Qed.

Lemma detect_sql_ext (t : str) (d : detector) :
  det_ext (emits t ["SQL"%string] 0) d (detect_sql t d).
Proof.
  unfold detect_sql.
  apply fold_left_ext with (P := match_ok 0 (List.length t)); [apply finditer_ok|].
  intros d0 m (_ & Hse & Hend & _).
  destruct (negb (is_occupied d0 _ _)); [|apply det_ext_refl].
  apply add_block_ext; apply emits_intro; simpl; auto; lia.
Qed.

(** ** The line table of the CSV and key-value detectors *)

Lemma char_pos_fold (lines : list str) : forall (cp : list nat) (base : nat),
  last cp 0 = base -> cp <> [] ->
  fold_left (fun cp ln => cp ++ [last cp 0 + List.length ln + 1]) lines cp
  = cp ++ map (fun k => base + line_offset lines (S k)) (seq 0 (List.length lines)).
Proof.
  induction lines as [|ln rest IH]; intros cp base Hl Hne; simpl.
  - now rewrite app_nil_r.
  - rewrite (IH _ (base + List.length ln + 1)).
    + rewrite <- app_assoc. f_equal. simpl. rewrite Hl. f_equal; [lia|].
      rewrite <- seq_shift, map_map. apply map_ext. intros k. simpl. lia.
    + rewrite last_last. now rewrite Hl.
    + destruct cp; discriminate.
Qed.

Lemma nth_map_seq (f : nat -> nat) (n k d : nat) :
  k < n -> nth k (map f (seq 0 n)) d = f k.
Proof.
  intros Hk. rewrite nth_indep with (d' := f 0) by (rewrite length_map, length_seq; lia).
  rewrite map_nth, seq_nth by lia. reflexivity.
Qed.

Lemma char_pos_nth (lines : list str) (k : nat) :
  k <= List.length lines -> nth k (char_pos_of lines) 0 = line_offset lines k.
Proof.
  intros Hk. unfold char_pos_of. rewrite (char_pos_fold lines [0] 0); [|reflexivity|discriminate].
  destruct k as [|k].
  - reflexivity.
  - change (nth (S k) ([0] ++ ?l) 0) with (nth k l 0).
    rewrite nth_map_seq by lia. reflexivity.
Qed.

Lemma line_offset_mono (lines : list str) : forall i k,
  i <= k -> line_offset lines i <= line_offset lines k.
Proof.
  induction lines as [|ln rest IH]; intros i k H.
  - destruct i, k; simpl; lia.
  - destruct i, k; simpl; try lia. specialize (IH i k). lia.
Qed.

(** Every line of [splitlines], placed after the earlier lines and one
    separator each, still ends inside the text. *)
Lemma splitlines_aux_bound (t : str) : forall (cur : str) (cr : bool) (k : nat),
  k < List.length (splitlines_aux cur cr t) ->
  line_offset (splitlines_aux cur cr t) k
    + List.length (nth k (splitlines_aux cur cr t) [])
  <= List.length cur + List.length t.
Proof.
  induction t as [|c t IH]; intros cur cr k Hk; simpl in *.
  - destruct cur as [|x cur]; simpl in *; [lia|].
    destruct k as [|k]; simpl in *; [|lia]. rewrite length_app, length_rev. simpl. lia.
  - destruct (cr && chr_eq LF c).
    + specialize (IH [] false k Hk). simpl in IH. lia.
    + destruct (is_linebreak c).
      * destruct k as [|k]; simpl in *.
        -- rewrite length_rev. lia.
        -- specialize (IH [] (chr_eq CR c) k). simpl in IH. rewrite length_rev.
           assert (k < List.length (splitlines_aux [] (chr_eq CR c) t)) by lia. lia.
      * specialize (IH (c :: cur) false k Hk). simpl in IH. lia.
Qed.

Lemma line_end_bound (t : str) (k : nat) :
  k < List.length (text_lines t) ->
  nth k (char_pos t) 0 + List.length (nth k (text_lines t) []) <= List.length t.
Proof.
  intros Hk. unfold char_pos. rewrite char_pos_nth by lia.
  pose proof (splitlines_aux_bound t [] false k Hk) as H. simpl in H. exact H.
Qed.

Lemma line_start_le (t : str) (i k : nat) :
  i <= k -> k <= List.length (text_lines t) ->
  nth i (char_pos t) 0 <= nth k (char_pos t) 0.
Proof.
  intros H1 H2. unfold char_pos. rewrite !char_pos_nth by lia. now apply line_offset_mono.
Qed.

Lemma csv_extend_length (cand : ascii) (rest : list str) : forall budget,
  List.length (csv_extend cand budget rest) <= List.length rest.
Proof.
  induction rest as [|ln rest IH]; intros [|b]; simpl; try lia.
  destruct (_ && _); simpl; [specialize (IH b)|]; lia.
Qed.

Lemma kv_run_length (rest : list str) : kv_run rest <= List.length rest.
Proof.
  induction rest as [|ln rest IH]; simpl; [lia|]. destruct (matches _ _); lia.
Qed.

Lemma csv_loop_ext (t : str) : forall (fuel i : nat) (d : detector),
  i <= List.length (text_lines t) -> List.length (text_lines t) < fuel + i ->
  exists d', csv_loop t fuel i d = Some d' /\
             det_ext (emits t ["CSV"; "CSV_NO_HEADER"]%string 0) d d'.
Proof.
  induction fuel as [|fuel IH]; intros i d Hi Hf; [lia|]. cbn [csv_loop].
  destruct (i <? List.length (text_lines t)) eqn:Ei;
    [|exists d; split; [reflexivity|apply det_ext_refl]].
  apply Nat.ltb_lt in Ei.
  assert (Hnext : exists d', csv_loop t fuel (i + 1) d = Some d' /\
             det_ext (emits t ["CSV"; "CSV_NO_HEADER"]%string 0) d d') by (apply IH; lia).
  destruct (str_eqb _ _); [exact Hnext|].
  destruct (csv_candidate _) as [cand|]; [|exact Hnext].
  set (counts := count_char cand (nth i (text_lines t) [])
                 :: csv_extend cand 199 (skipn (i + 1) (text_lines t))).
  destruct ((2 <=? List.length counts) && _) eqn:Ec; [|exact Hnext].
  apply andb_true_iff in Ec. destruct Ec as [Ec _]. apply Nat.leb_le in Ec.
  assert (Hj : i + List.length counts <= List.length (text_lines t)).
  { unfold counts. cbn [List.length].
    assert (H := csv_extend_length cand (skipn (i + 1) (text_lines t)) 199).
    rewrite length_skipn in H. lia. }
  assert (Hlt : (i + List.length counts - 1 <? List.length (text_lines t)) = true)
    by (apply Nat.ltb_lt; lia).
  rewrite Hlt. clearbody counts.
  destruct (negb (is_occupied d _ _)); [|exact Hnext].
  match goal with |- exists d', csv_loop t fuel ?j ?d1 = Some d' /\ _ =>
    destruct (IH j d1) as (d' & Hd' & Hext); [lia|lia|] end.
  exists d'. split; [exact Hd'|].
  eapply det_ext_trans; [|exact Hext].
  apply add_block_ext. apply emits_intro; simpl; try lia.
  - pose proof (line_start_le t i (i + List.length counts - 1)).
    pose proof (line_end_bound t (i + List.length counts - 1)). lia.
  - apply line_end_bound. lia.
  - destruct (re_search _ _); simpl; auto.
Qed.

Lemma kv_loop_ext (t : str) : forall (fuel i : nat) (d : detector),
  i <= List.length (text_lines t) -> List.length (text_lines t) < fuel + i ->
  exists d', kv_loop t fuel i d = Some d' /\
             det_ext (emits t ["KEY_VALUE"%string] 0) d d'.
Proof.
  induction fuel as [|fuel IH]; intros i d Hi Hf; [lia|]. cbn [kv_loop].
  destruct (i <? List.length (text_lines t)) eqn:Ei;
    [|exists d; split; [reflexivity|apply det_ext_refl]].
  apply Nat.ltb_lt in Ei.
  assert (Hnext : exists d', kv_loop t fuel (i + 1) d = Some d' /\
             det_ext (emits t ["KEY_VALUE"%string] 0) d d') by (apply IH; lia).
  destruct (matches Pat.kv_first _); [|exact Hnext].
  destruct (2 <=? kv_run (skipn i (text_lines t))) eqn:Ec; [|exact Hnext].
  apply Nat.leb_le in Ec.
  pose proof (kv_run_length (skipn i (text_lines t))) as Hr. rewrite length_skipn in Hr.
  destruct (negb (is_occupied d _ _)); [|exact Hnext].
  match goal with |- exists d', kv_loop t fuel ?j ?d1 = Some d' /\ _ =>
    destruct (IH j d1) as (d' & Hd' & Hext); [lia|lia|] end.
  exists d'. split; [exact Hd'|].
  eapply det_ext_trans; [|exact Hext].
  apply add_block_ext. apply emits_intro; simpl; try lia; auto.
  - pose proof (line_start_le t i (i + kv_run (skipn i (text_lines t)) - 1)).
    pose proof (line_end_bound t (i + kv_run (skipn i (text_lines t)) - 1)). lia.
  - apply line_end_bound. lia.
Qed.

(** *** RAW text *)

Lemma subtract_span_bound (n : nat) (spans : list (nat * nat)) (ab : nat * nat) :
  Forall (fun se => snd se <= n) spans ->
  Forall (fun se => snd se <= n) (subtract_span spans ab).
Proof.
  intros HF. unfold subtract_span. apply Forall_flat_map.
  eapply Forall_impl; [|exact HF]. intros [s e] He. destruct ab as [a b]. simpl in *.
  destruct ((b <=? s) || (e <=? a)) eqn:E.
  - constructor; [assumption|constructor].
  - apply orb_false_iff in E. destruct E as [E1 E2].
    apply Nat.leb_gt in E1, E2.
    apply Forall_app. split.
    + destruct (s <? a); constructor; simpl; [lia|constructor].
    + destruct (b <? e); constructor; simpl; [lia|constructor].
Qed.

Lemma free_spans_bound (t : str) (d : detector) :
  Forall (fun se => snd se <= List.length t) (free_spans t d).
Proof.
  unfold free_spans. generalize (sorted_by pair_le (occupied d)).
  assert (H0 : Forall (fun se => snd se <= List.length t) [(0, self_n t)]).
  { constructor; [unfold self_n; simpl; lia|constructor]. }
  revert H0. generalize [(0, self_n t)].
  intros spans H0 l. revert spans H0.
  induction l as [|ab l IH]; intros spans H0; simpl; [assumption|].
  apply IH. now apply subtract_span_bound.
Qed.

Lemma find_from_bound (p : str) (hi : nat) (rest : str) : forall (i k : nat),
  find_from p i hi rest = Some k -> i <= k /\ k + List.length p <= hi.
Proof.
  induction rest as [|c rest IH]; intros i k H; simpl in H.
  - destruct ((i + List.length p <=? hi) && is_prefix p []) eqn:E; [|discriminate].
    injection H as <-. apply andb_true_iff in E. destruct E as [E _].
    apply Nat.leb_le in E. lia.
  - destruct ((i + List.length p <=? hi) && is_prefix p (c :: rest)) eqn:E.
    + injection H as <-. apply andb_true_iff in E. destruct E as [E _].
      apply Nat.leb_le in E. lia.
    + apply IH in H. lia.
Qed.

Lemma find_sub_bound (p t : str) (lo hi k : nat) :
  find_sub p t lo hi = Some k -> lo <= k /\ k + List.length p <= hi.
Proof.
  unfold find_sub. destruct (lo <=? List.length t); [|discriminate]. apply find_from_bound.
Qed.

Lemma raw_part_ext (t : str) (e : nat) (pos : nat) (d : detector) (part : str) :
  e <= List.length t ->
  det_ext (emits t ["RAW_TEXT"%string] 0) d (snd (raw_part t e (pos, d) part)).
Proof.
  intros He. unfold raw_part.
  destruct (strip part) as [|c p] eqn:Ep; [apply det_ext_refl|].
  destruct (find_sub _ t pos e) as [start|] eqn:Ef; [|apply det_ext_refl].
  apply find_sub_bound in Ef. simpl in Ef. simpl snd.
  destruct (negb (is_occupied d _ _)); [|apply det_ext_refl].
  apply add_block_ext. apply emits_intro; simpl; auto; lia.
Qed.

Lemma raw_parts_ext (t : str) (e : nat) (parts : list str) : forall (pos : nat) (d : detector),
  e <= List.length t ->
  det_ext (emits t ["RAW_TEXT"%string] 0) d (snd (fold_left (raw_part t e) parts (pos, d))).
Proof.
  induction parts as [|p parts IH]; intros pos d He; cbn [fold_left]; [apply det_ext_refl|].
  pose proof (raw_part_ext t e pos d p He) as H1.
  destruct (raw_part t e (pos, d) p) as [pos' d'] eqn:E. simpl in H1.
  eapply det_ext_trans; [exact H1|]. now apply IH.
Qed.

Lemma detect_raw_text_ext (t : str) (d : detector) :
  det_ext (emits t ["RAW_TEXT"%string] 0) d (detect_raw_text t d).
Proof.
  unfold detect_raw_text.
  apply fold_left_ext with (P := fun se : nat * nat => snd se <= List.length t);
    [apply free_spans_bound|].
  intros d0 [s e] He. simpl in He. unfold raw_span.
  destruct (20 <=? _); [|apply det_ext_refl].
  now apply raw_parts_ext.
Qed.

(** *** The global JSON scan *)

Lemma search_from_at (r : regex) (rest : str) :
  forall (pos : nat) (prev : option ascii) (m : re_match),
    search_from r pos prev rest = Some m ->
    exists prev', match_at r (mt_start m) prev' (skipn (mt_start m - pos) rest) = Some m
                  /\ pos <= mt_start m.
Proof.
  induction rest as [|c rest IH]; intros pos prev m H; simpl in H.
  - destruct (match_at r pos prev []) eqn:E; [|discriminate]. injection H as ->.
    pose proof (match_at_ok _ _ _ _ _ E) as [_ Hs]. rewrite Hs, Nat.sub_diag. simpl.
    exists prev. split; [assumption|lia].
  - destruct (match_at r pos prev (c :: rest)) eqn:E.
    + injection H as ->.
      pose proof (match_at_ok _ _ _ _ _ E) as [_ Hs]. rewrite Hs, Nat.sub_diag. simpl.
      exists prev. split; [assumption|lia].
    + apply IH in H. destruct H as (prev' & H & Hp). exists prev'.
      replace (mt_start m - pos) with (S (mt_start m - S pos)) by lia. simpl.
      split; [assumption|lia].
Qed.

(** A pattern that begins with a character test matches only where that
    character stands. *)
Lemma match_at_char (p : ascii -> bool) (r : regex) (pos : nat) (prev : option ascii)
    (rest : str) (m : re_match) :
  match_at (RSeq (RChar p) r) pos prev rest = Some m ->
  exists c tl, rest = c :: tl /\ p c = true.
Proof.
  unfold match_at. simpl. destruct rest as [|c tl]; [discriminate|].
  destruct (p c) eqn:E; [|discriminate]. intros _. eauto.
Qed.

Lemma match_at_lbrace (pos : nat) (prev : option ascii) (rest : str) (m : re_match) :
  match_at Pat.lbrace pos prev rest = Some m ->
  exists tl, rest = "{"%char :: tl.
Proof.
  unfold match_at, Pat.lbrace, rch. simpl. destruct rest as [|c tl]; [discriminate|].
  destruct (chr_eq "{" c) eqn:E; [|discriminate]. apply chr_eq_true in E. subst.
  intros _. eauto.
Qed.

Lemma search_lbrace (l : str) (m : re_match) :
  re_search Pat.lbrace l = Some m ->
  exists tl, skipn (mt_start m) l = "{"%char :: tl.
Proof.
  intros H. apply search_from_at in H. destruct H as (prev' & H & _).
  rewrite Nat.sub_0_r in H. now apply match_at_lbrace in H.
Qed.

Lemma search_blank_line (l : str) (m : re_match) :
  re_search Pat.blank_line l = Some m ->
  exists tl, skipn (mt_start m) l = LF :: tl.
Proof.
  intros H. apply search_from_at in H. destruct H as (prev' & H & _).
  rewrite Nat.sub_0_r in H. apply match_at_char in H.
  destruct H as (c & tl & E & Hc). apply chr_eq_true in Hc. subst. eauto.
Qed.

Lemma skipn_cons_lt {A : Type} (l : list A) (k : nat) (x : A) (tl : list A) :
  skipn k l = x :: tl -> k < List.length l.
Proof.
  intros H. destruct (Nat.lt_ge_cases k (List.length l)); [assumption|].
  rewrite skipn_all2 in H by lia. discriminate.
Qed.

Lemma emits_lo (t : str) (fmts : list string) (lo lo' : nat) (b : DetectedBlock) :
  lo <= lo' -> emits t fmts lo' b -> emits t fmts lo b.
Proof. unfold emits. intros ? (Hb & Hi & Hl). split; [exact Hb|split; [exact Hi|lia]]. Qed.

Lemma length_slice (t : str) (a b : nat) :
  b <= List.length t -> List.length (slice t a b) = b - a.
Proof.
  intros H. unfold slice. rewrite length_firstn, length_skipn. lia.
Qed.

(** The end of an unclosed snippet lies after its brace. *)
Lemma unclosed_end_bounds (t : str) (pos : nat) (tl : str) :
  skipn pos t = "{"%char :: tl ->
  let tail_end := Nat.min (self_n t) (pos + 2000) in
  let e := match re_search Pat.blank_line (span_text t pos tail_end) with
           | Some dn => pos + mt_start dn
           | None => tail_end
           end in
  pos < e /\ e <= List.length t.
Proof.
  intros Hsk tail_end e.
  pose proof (skipn_cons_lt _ _ _ _ Hsk) as Hpos.
  assert (Ht : pos < tail_end /\ tail_end <= List.length t) by (unfold tail_end, self_n; lia).
  unfold e. destruct (re_search _ _) as [dn|] eqn:E; [|lia].
  pose proof (re_search_ok _ _ _ E) as (_ & H1 & H2 & _).
  unfold span_text in H2. rewrite length_slice in H2 by lia.
  apply search_blank_line in E. destruct E as (tl' & E).
  destruct (mt_start dn) as [|k] eqn:Ek; [|lia].
  exfalso. unfold span_text, slice in E. simpl in E. rewrite Hsk in E.
  destruct (tail_end - pos) eqn:Ed; [lia|]. simpl in E. discriminate.
Qed.

Lemma jsons_global_loop_ext (t : str) : forall (fuel i : nat) (d : detector),
  i <= List.length t -> List.length t < fuel + i ->
  exists d', jsons_global_loop t fuel i d = Some d' /\
             det_ext (emits t ["JSON"; "MALFORMED_JSON"]%string i) d d'.
Proof.
  induction fuel as [|fuel IH]; intros i d Hi Hf; [lia|]. cbn [jsons_global_loop].
  destruct (re_search Pat.lbrace (skipn i t)) as [m|] eqn:Es;
    [|exists d; split; [reflexivity|apply det_ext_refl]].
  apply search_lbrace in Es. destruct Es as (tl & Hsk).
  rewrite skipn_skipn in Hsk. rewrite (Nat.add_comm (mt_start m) i) in Hsk.
  set (pos := i + mt_start m) in *.
  pose proof (skipn_cons_lt _ _ _ _ Hsk) as Hpos.
  assert (Hrec : forall i' d1, pos < i' -> i' <= List.length t ->
            det_ext (emits t ["JSON"; "MALFORMED_JSON"]%string i) d d1 ->
            exists d', jsons_global_loop t fuel i' d1 = Some d' /\
                       det_ext (emits t ["JSON"; "MALFORMED_JSON"]%string i) d d').
  { intros i' d1 H1 H2 H3. destruct (IH i' d1) as (d' & Hd' & Hext); [lia|unfold pos in H1; lia|].
    exists d'. split; [assumption|]. eapply det_ext_trans; [exact H3|].
    eapply det_ext_weaken; [|exact Hext]. intros b. apply emits_lo. unfold pos in H1. lia. }
  destruct (is_occupied d pos (pos + 1)).
  { apply Hrec; [lia|lia|apply det_ext_refl]. }
  destruct (find_json_span t pos default_max_len) as [[s e]|] eqn:Ef.
  - apply find_json_span_bounds in Ef.
    destruct (is_occupied d s e).
    { apply Hrec; [lia|lia|apply det_ext_refl]. }
    destruct (Json.json_loads _).
    + apply Hrec; [lia|lia|]. apply add_block_ext.
      apply emits_intro; simpl; auto; unfold pos in *; lia.
    + apply Hrec; [lia|lia|]. apply add_block_ext.
      apply emits_intro; simpl; auto; unfold pos in *; lia.
  - pose proof (unclosed_end_bounds t pos tl Hsk) as Hb. cbv zeta in Hb.
    match goal with |- context [jsons_global_loop t fuel ?e0 _] => set (e := e0) in * end.
    apply Hrec; [lia|lia|].
    destruct (negb (is_occupied d pos e)); [|apply det_ext_refl].
    destruct (re_search Pat.any_quoted_key _);
      [|destruct (re_search Pat.bare_key_ws _); [|apply det_ext_refl]];
      apply add_block_ext; apply emits_intro; simpl; auto; unfold pos in *; lia.
Qed.

(** ** The whole detection pass *)

Lemma emits_fmts (t : str) (fmts fmts' : list string) (lo : nat) (b : DetectedBlock) :
  incl fmts fmts' -> emits t fmts lo b -> emits t fmts' lo b.
Proof. unfold emits. intros H (Hb & Hi & Hl). auto. Qed.

Ltac fmts_incl := intros f Hf; simpl in *; intuition.

Lemma det_ext_fmts (t : str) (fmts fmts' : list string) (lo : nat) (d d' : detector) :
  incl fmts fmts' -> det_ext (emits t fmts lo) d d' -> det_ext (emits t fmts' 0) d d'.
Proof.
  intros H. apply det_ext_weaken. intros b Hb.
  apply emits_fmts with (fmts := fmts); [assumption|].
  eapply emits_lo; [|exact Hb]. lia.
Qed.

Lemma detect_jsons_global_ext (t : str) (d : detector) :
  exists d', detect_jsons_global t d = Some d' /\
             det_ext (emits t ["JSON"; "MALFORMED_JSON"]%string 0) d d'.
Proof. unfold detect_jsons_global, self_n. apply jsons_global_loop_ext; lia. Qed.

Lemma detect_csv_blocks_ext (t : str) (d : detector) :
  exists d', detect_csv_blocks t d = Some d' /\
             det_ext (emits t ["CSV"; "CSV_NO_HEADER"]%string 0) d d'.
Proof. unfold detect_csv_blocks. apply csv_loop_ext; lia. Qed.

Lemma detect_key_values_ext (t : str) (d : detector) :
  exists d', detect_key_values t d = Some d' /\
             det_ext (emits t ["KEY_VALUE"%string] 0) d d'.
Proof. unfold detect_key_values. apply kv_loop_ext; lia. Qed.

(** From any state, the detectors after the global JSON scan all return,
    and append well-placed blocks of their own formats. *)
Lemma later_detectors (t : str) (d : detector) :
  exists d3 d4,
    detect_csv_blocks t (detect_js_objects t (detect_html_tables_and_blocks t d)) = Some d3 /\
    detect_key_values t d3 = Some d4 /\
    det_ext (emits t ["HTML_TABLE"; "HTML"; "JS_OBJECT"; "CSV"; "CSV_NO_HEADER";
                      "KEY_VALUE"; "SQL"]%string 0) d (detect_sql t d4).
Proof.
  destruct (detect_csv_blocks_ext t (detect_js_objects t (detect_html_tables_and_blocks t d)))
    as (d3 & E3 & X3).
  destruct (detect_key_values_ext t d3) as (d4 & E4 & X4).
  exists d3, d4. split; [assumption|]. split; [assumption|].
  eapply det_ext_trans; [eapply det_ext_fmts; [|apply detect_html_tables_ext]; fmts_incl|].
  eapply det_ext_trans; [eapply det_ext_fmts; [|apply detect_html_blocks_ext]; fmts_incl|].
  eapply det_ext_trans; [eapply det_ext_fmts; [|apply detect_js_objects_ext]; fmts_incl|].
  eapply det_ext_trans; [eapply det_ext_fmts; [|exact X3]; fmts_incl|].
  eapply det_ext_trans; [eapply det_ext_fmts; [|exact X4]; fmts_incl|].
  eapply det_ext_fmts; [|apply detect_sql_ext]; fmts_incl.
Qed.

Lemma run_all_shape (t : str) :
  exists d, run_all t = Some (_dedupe_prioritize (sorted_by start_le (blocks d))) /\
            det_ext (emits t FORMAT_PRIORITY 0) init_detector d.
Proof.
  unfold run_all.
  set (d0 := detect_sectioned_jsons t (detect_yaml_frontmatter t (detect_json_ld t init_detector))).
  assert (X0 : det_ext (emits t FORMAT_PRIORITY 0) init_detector d0).
  { eapply det_ext_trans; [eapply det_ext_fmts; [|apply detect_json_ld_ext]; fmts_incl|].
    eapply det_ext_trans; [eapply det_ext_fmts; [|apply detect_yaml_frontmatter_ext]; fmts_incl|].
    eapply det_ext_fmts; [|apply detect_sectioned_jsons_ext]; fmts_incl. }
  destruct (detect_jsons_global_ext t d0) as (d1 & E1 & X1). rewrite E1.
  destruct (later_detectors t d1) as (d3 & d4 & E3 & E4 & X4). rewrite E3, E4.
  eexists. split; [reflexivity|].
  eapply det_ext_trans; [exact X0|].
  eapply det_ext_trans; [eapply det_ext_fmts; [|exact X1]; fmts_incl|].
  eapply det_ext_trans; [eapply det_ext_fmts; [|exact X4]; fmts_incl|].
  eapply det_ext_fmts; [|apply detect_raw_text_ext]; fmts_incl.
Qed.

(** [parse_file] returns for every text. *)
Lemma parse_file_total (t : str) : exists r, parse_file t = Some r.
Proof.
  unfold parse_file. destruct (run_all_shape t) as (d & -> & _). eauto.
Qed.

Lemma block_ok_clamp (t : str) (b : DetectedBlock) : block_ok t b -> block_ok t (clamp_block b).
Proof. unfold block_ok, clamp_block; simpl. auto. Qed.

Lemma fragments_emitted (t : str) (r : result) (b : DetectedBlock) :
  parse_file t = Some r -> In b (fragments r) ->
  exists x, b = clamp_block x /\ emits t FORMAT_PRIORITY 0 x.
Proof.
  unfold parse_file. destruct (run_all_shape t) as (d & -> & new & Hb & HF).
  intros H; injection H as <-. simpl. intros Hin.
  apply dedupe_sub in Hin. destruct Hin as (x & -> & Hx).
  exists x. split; [reflexivity|].
  apply sorted_by_In in Hx. rewrite Hb in Hx. simpl in Hx.
  rewrite Forall_forall in HF. now apply HF.
Qed.

(** C5. For every input text, [parse_file] returns, and every fragment it
    returns satisfies [0 <= start_index <= end_index <= len(text)] and stores
    in its [text] field the slice [text[start_index:end_index]] of the
    caller's input itself. *)
Theorem fragments_within_text (t : str) :
  exists r, parse_file t = Some r /\
            forall b, In b (fragments r) ->
                      0 <= start_index b /\ start_index b <= end_index b /\
                      end_index b <= List.length t /\
                      text b = slice t (start_index b) (end_index b).
Proof.
  destruct (parse_file_total t) as (r & Hr). exists r. split; [assumption|].
  intros b Hin. destruct (fragments_emitted t r b Hr Hin) as (x & -> & (Hx & _)).
  apply block_ok_clamp in Hx. destruct Hx as (H1 & H2 & H3). repeat split; auto. lia.
Qed.

(** C1 as stated fails: on a text in which a CSV run and a key-value run
    share a line, both blocks are returned, and they overlap without either
    containing the other. *)
Lemma partial_overlap_survives : ~ spec_no_partial_overlap csv_kv_text.
Proof.
  intros H.
  destruct (parse_file_total csv_kv_text) as (r & Hr).
  pose proof Hr as E. vm_compute in E. injection E as E. subst r.
  match type of Hr with
  | _ = Some {| fragments := [?b; ?k]; summary := _; records := _ |} =>
      specialize (H _ b k Hr (or_introl eq_refl) (or_intror (or_introl eq_refl)))
  end.
  destruct H as [[H|H]|[[H _]|[H _]]]; try discriminate; simpl in H; lia.
Qed.

(** C1, amended. For every input text, whenever the span of one returned
    fragment lies inside the span of another, the two have different
    priorities, and unless the two spans coincide the inner fragment has the
    strictly higher priority (the lower index in the priority list).  No
    confidence margin is applied, and fragments that partially overlap are
    not arbitrated. *)
Theorem containment_is_sanctioned (t : str) (r : result) (b k : DetectedBlock) :
  parse_file t = Some r -> In b (fragments r) -> In k (fragments r) -> b <> k ->
  inside b k = true ->
  prio b <> prio k /\ (inside k b = false -> sanctioned_inside b k).
Proof.
  unfold parse_file. destruct (run_all_shape t) as (d & -> & _).
  intros H; injection H as <-. simpl. intros Hb Hk Hne Hin.
  destruct (dedupe_containment _ b k Hb Hk Hne Hin) as [H1 H2].
  split; [assumption|]. intros H. split; auto.
Qed.

(** The amended C1 at a statement inside a line of prose: the SQL fragment
    lies inside the RAW_TEXT fragment. *)
Lemma containment_is_sanctioned_witness :
  exists r b k,
    parse_file sql_in_prose = Some r /\ In b (fragments r) /\ In k (fragments r) /\
    b <> k /\ inside b k = true /\
    format_type b = "SQL"%string /\ format_type k = "RAW_TEXT"%string /\
    (prio b <> prio k /\ (inside k b = false -> sanctioned_inside b k)).
Proof.
  destruct (parse_file sql_in_prose) as [r|] eqn:Hr; [|vm_compute in Hr; discriminate].
  pose proof Hr as E. vm_compute in E. injection E as E.
  exists r.
  exists (nth 1 (fragments r) (mkBlock "" 0 0 0 [] [])).
  exists (nth 0 (fragments r) (mkBlock "" 0 0 0 [] [])).
  assert (Hb : In (nth 1 (fragments r) (mkBlock "" 0 0 0 [] [])) (fragments r))
    by (subst r; simpl; auto).
  assert (Hk : In (nth 0 (fragments r) (mkBlock "" 0 0 0 [] [])) (fragments r))
    by (subst r; simpl; auto).
  assert (Hne : nth 1 (fragments r) (mkBlock "" 0 0 0 [] [])
                <> nth 0 (fragments r) (mkBlock "" 0 0 0 [] []))
    by (subst r; simpl; discriminate).
  assert (Hin : inside (nth 1 (fragments r) (mkBlock "" 0 0 0 [] []))
                       (nth 0 (fragments r) (mkBlock "" 0 0 0 [] [])) = true)
    by (subst r; reflexivity).
  split; [reflexivity|]. split; [exact Hb|]. split; [exact Hk|]. split; [exact Hne|].
  split; [exact Hin|]. split; [subst r; reflexivity|]. split; [subst r; reflexivity|].
  exact (containment_is_sanctioned sql_in_prose r _ _ Hr Hb Hk Hne Hin).
Defined.


Lemma records_flat_map (bs : list DetectedBlock) : forall acc,
  fold_left record_step bs acc
  = acc ++ flat_map (fun b => match normalize b with
                              | Some v => [record_of b v]
                              | None => []
                              end) bs.
Proof.
  induction bs as [|b bs IH]; intros acc; simpl; [now rewrite app_nil_r|].
  rewrite IH. unfold record_step. destruct (normalize b) as [v|]; simpl.
  - now rewrite <- app_assoc.
  - reflexivity.
Qed.

Lemma records_of_fragments (t : str) (r : result) :
  parse_file t = Some r ->
  records r = flat_map (fun b => match normalize b with
                                 | Some v => [record_of b v]
                                 | None => []
                                 end) (fragments r).
Proof.
  unfold parse_file. destruct (run_all t) as [bs|]; [|discriminate].
  intros H; injection H as <-. simpl. apply (records_flat_map bs []).
Qed.



(** C6 as stated fails: for scenario D the normalized record is not
    [[{x: 1}]]. *)
Lemma table_header_row_is_data : ~ spec_table_first_row_header.
Proof.
  intros (r & b & Hr & Hf & _ & Hn).
  vm_compute in Hr. injection Hr as Hr. subst r.
  injection Hf as Hf. subst b. vm_compute in Hn. discriminate.
Qed.

(** C6, amended. For the input
    [<table><tr><th>x</th></tr><tr><td>1</td></tr></table>], [parse_file]
    returns one HTML_TABLE fragment over the whole table, and its normalized
    record is the two-element list [[{col_0: x}, {col_0: 1}]]: header cells
    are read from a [thead] section only, and without one every row, the
    first included, is emitted under the synthesized names [col_i]. *)
Theorem table_rows_get_synthetic_names :
  exists r b, parse_file scenario_d = Some r /\ fragments r = [b] /\
    format_type b = "HTML_TABLE"%string /\
    start_index b = 0 /\ end_index b = List.length scenario_d /\
    normalize b = Some scenario_d_rows /\
    records r = [record_of b scenario_d_rows].
Proof.
  destruct (parse_file scenario_d) as [r|] eqn:Hr; [|vm_compute in Hr; discriminate].
  vm_compute in Hr. injection Hr as Hr. subst r.
  eexists. eexists. split; [reflexivity|]. split; [reflexivity|].
  repeat split; vm_compute; reflexivity.
Qed.

(** The salvage step is total, and a MALFORMED_JSON block is normalized to
    Python's [None] in one case only: when the repaired text strictly parses
    to the JSON literal [null]. *)
Lemma malformed_json_none_iff (b : DetectedBlock) :
  format_type b = "MALFORMED_JSON"%string ->
  normalize b = None <->
  exists repaired, _attempt_repair_json (strip (text b)) = Some repaired /\
                   json_loads repaired = Some JNull.
Proof.
  intros Hf. unfold normalize. rewrite Hf.
  change (is_type "MALFORMED_JSON" "JSON" || is_type "MALFORMED_JSON" "JSON_LD") with false.
  change (is_type "MALFORMED_JSON" "MALFORMED_JSON") with true. cbv iota.
  destruct (_attempt_repair_json (strip (text b))) as [repaired|] eqn:Er.
  - destruct (json_loads repaired) as [v|] eqn:Ev.
    + destruct v; simpl; split; try discriminate; eauto;
        intros (r' & Hr & Hv); injection Hr as <-; rewrite Ev in Hv; discriminate.
    + split; [discriminate|]. intros (r' & Hr & Hv). injection Hr as <-. congruence.
  - split; [discriminate|]. intros (r' & Hr & _). discriminate.
Qed.

(** C8, the code at the failing input: for the text of a section marked JSON
    whose body is [null], the MALFORMED_JSON fragment over the body is
    repaired to [null], which strictly parses to Python's [None];
    [normalize] returns it, and the fragment gets no record. *)
Theorem malformed_json_null_is_none :
  exists r b, parse_file null_section = Some r /\ fragments r = [b] /\
    format_type b = "MALFORMED_JSON"%string /\
    text b = esc "null\n" /\
    _attempt_repair_json (strip (text b)) = Some (lit "null") /\
    json_loads (lit "null") = Some JNull /\
    normalize b = None /\
    records r = [].
Proof.
  destruct (parse_file null_section) as [r|] eqn:Hr; [|vm_compute in Hr; discriminate].
  vm_compute in Hr. injection Hr as Hr. subst r.
  eexists. eexists. split; [reflexivity|]. split; [reflexivity|].
  repeat split; vm_compute; reflexivity.
Qed.

(** ** The line table on texts without CR LF *)

Lemma splitlines_aux_no_break (a : str) : forall (cur : str) (cr : bool) (rest : str),
  no_break a ->
  splitlines_aux cur cr (a ++ rest)
  = splitlines_aux (rev a ++ cur) (match a with [] => cr | _ => false end) rest.
Proof.
  induction a as [|c a IH]; intros cur cr rest Ha; [reflexivity|].
  inversion Ha as [|? ? Hc Ha']; subst. simpl.
  assert (Hlf : chr_eq LF c = false).
  { apply chr_eq_false. intros ->. discriminate. }
  rewrite Hlf, andb_false_r, Hc, IH by assumption.
  rewrite <- app_assoc. simpl. destruct a; reflexivity.
Qed.

Lemma splitlines_aux_cr (t : str) :
  hd_error t <> Some LF -> splitlines_aux [] true t = splitlines_aux [] false t.
Proof.
  destruct t as [|c t]; [reflexivity|]. intros H. simpl.
  assert (Hlf : chr_eq LF c = false).
  { apply chr_eq_false. intros ->. now apply H. }
  now rewrite Hlf.
Qed.

Lemma break_split (t : str) :
  no_break t \/
  exists a b t', t = a ++ b :: t' /\ no_break a /\ is_linebreak b = true.
Proof.
  induction t as [|c t IH]; [left; constructor|].
  destruct (is_linebreak c) eqn:Ec.
  - right. exists [], c, t. repeat split; auto. constructor.
  - destruct IH as [IH|(a & b & t' & -> & Ha & Hb)].
    + left. now constructor.
    + right. exists (c :: a), b, t'. repeat split; auto. now constructor.
Qed.

Lemma no_crlf_tail (a : str) (b : ascii) (t' : str) :
  no_crlf (a ++ b :: t') -> no_crlf t' /\ (b = CR -> hd_error t' <> Some LF).
Proof.
  intros H. split.
  - intros j Hj Hj'. apply (H (List.length a + 1 + j)).
    + rewrite nth_error_app2 by lia.
      replace (List.length a + 1 + j - List.length a) with (S j) by lia. exact Hj.
    + rewrite nth_error_app2 by lia.
      replace (S (List.length a + 1 + j) - List.length a) with (S (S j)) by lia. exact Hj'.
  - intros -> Hh. apply (H (List.length a)).
    + rewrite nth_error_app2, Nat.sub_diag by lia. reflexivity.
    + rewrite nth_error_app2 by lia.
      replace (S (List.length a) - List.length a) with 1 by lia. simpl.
      destruct t'; simpl in *; congruence.
Qed.

(** A text without CR LF splits at its first line boundary. *)
Lemma splitlines_break (a : str) (b : ascii) (t' : str) :
  no_break a -> is_linebreak b = true ->
  (b = CR -> hd_error t' <> Some LF) ->
  splitlines (a ++ b :: t') = a :: splitlines t'.
Proof.
  intros Ha Hb Hcr. unfold splitlines.
  rewrite splitlines_aux_no_break by assumption. rewrite app_nil_r.
  cbn [splitlines_aux].
  replace ((match a with [] => false | _ => false end) && chr_eq LF b) with false
    by (destruct a; reflexivity).
  rewrite Hb, rev_involutive. f_equal.
  destruct (chr_eq CR b) eqn:E; [|reflexivity].
  apply chr_eq_true in E. apply splitlines_aux_cr. now apply Hcr.
Qed.

Lemma splitlines_no_break (a : str) :
  no_break a -> splitlines a = match a with [] => [] | _ => [a] end.
Proof.
  intros Ha. unfold splitlines. rewrite <- (app_nil_r a) at 1.
  rewrite splitlines_aux_no_break by assumption. rewrite app_nil_r. simpl.
  destruct a as [|c a]; [reflexivity|].
  destruct (rev (c :: a)) eqn:E.
  - apply (f_equal (@List.length ascii)) in E. rewrite length_rev in E. discriminate.
  - now rewrite <- E, rev_involutive.
Qed.

Lemma slice_app_shift (a : str) (b : ascii) (t' : str) (o e : nat) :
  slice (a ++ b :: t') (List.length a + 1 + o) (List.length a + 1 + e) = slice t' o e.
Proof.
  unfold slice. replace (List.length a + 1 + e - (List.length a + 1 + o)) with (e - o) by lia.
  f_equal. rewrite skipn_app.
  rewrite skipn_all2 by lia.
  replace (List.length a + 1 + o - List.length a) with (S o) by lia. reflexivity.
Qed.

Lemma firstn_app_shift (a : str) (b : ascii) (t' : str) (o : nat) :
  firstn (List.length a + 1 + o) (a ++ b :: t') = a ++ b :: firstn o t'.
Proof.
  rewrite firstn_app. rewrite firstn_all2 by lia.
  replace (List.length a + 1 + o - List.length a) with (S o) by lia. reflexivity.
Qed.

Lemma hd_error_firstn (t : str) (o : nat) (c : ascii) :
  hd_error (firstn o t) = Some c -> hd_error t = Some c.
Proof. destruct o, t; simpl; congruence. Qed.

Lemma lines_exact (n : nat) : forall (t : str),
  List.length t <= n -> no_crlf t ->
  forall i, i < List.length (splitlines t) ->
    let o := line_offset (splitlines t) i in
    slice t o (o + List.length (nth i (splitlines t) [])) = nth i (splitlines t) [] /\
    List.length (splitlines (firstn o t)) = i.
Proof.
  induction n as [|n IH]; intros t Hn Hc i Hi.
  - destruct t; [|simpl in Hn; lia]. simpl in Hi. lia.
  - destruct (break_split t) as [Ht|(a & b & t' & -> & Ha & Hb)].
    + rewrite (splitlines_no_break t Ht) in *.
      destruct t as [|c t]; [simpl in Hi; lia|]. simpl in Hi.
      assert (i = 0) by lia. subst i. cbn [line_offset nth]. cbv zeta.
      split; [apply (slice_full (c :: t))|reflexivity].
    + destruct (no_crlf_tail a b t' Hc) as [Hc' Hcr].
      rewrite (splitlines_break a b t' Ha Hb Hcr) in *.
      destruct i as [|i].
      * cbn [line_offset nth]. cbv zeta. split; [|reflexivity].
        unfold slice. cbn [skipn Nat.add].
        rewrite Nat.sub_0_r, firstn_app, firstn_all, Nat.sub_diag. simpl.
        apply app_nil_r.
      * cbn [line_offset nth]. cbv zeta. simpl in Hi.
        rewrite length_app in Hn. simpl in Hn.
        destruct (IH t' ltac:(lia) Hc' i ltac:(lia)) as [H1 H2]. cbv zeta in H1, H2.
        rewrite <- (Nat.add_assoc (List.length a + 1)).
        rewrite slice_app_shift. split; [exact H1|].
        rewrite firstn_app_shift.
        rewrite splitlines_break; try assumption.
        -- simpl. now rewrite H2.
        -- intros Hb' Hh. apply (Hcr Hb'). eapply hd_error_firstn; eassumption.
Qed.

(** On a text without CR LF the line table is exact. *)
Lemma char_pos_exact_without_crlf (t : str) :
  no_crlf t -> spec_char_pos_exact t.
Proof.
  intros Hc i Hi. unfold line_starts_at, char_pos, text_lines in *.
  rewrite char_pos_nth by lia.
  apply (lines_exact (List.length t) t (Nat.le_refl _) Hc i Hi).
Qed.

(** C10, the code at the failing input: for two CSV lines separated by CR LF
    the table is [[0, 4, 8]] while the second line starts at offset 5, and
    the CSV fragment derived from it ends at 7, one character before the end
    of the text. *)
Theorem char_pos_off_after_crlf :
  text_lines crlf_csv = [lit "a,b"; lit "c,d"] /\
  char_pos crlf_csv = [0; 4; 8] /\
  slice crlf_csv 5 8 = lit "c,d" /\
  ~ spec_char_pos_exact crlf_csv /\
  exists r b, parse_file crlf_csv = Some r /\ fragments r = [b] /\
    format_type b = "CSV"%string /\ start_index b = 0 /\ end_index b = 7 /\
    text b = esc "a,b\r\nc," /\ List.length crlf_csv = 8.
Proof.
  split; [reflexivity|]. split; [reflexivity|]. split; [reflexivity|]. split.
  - intros H. specialize (H 1). destruct H as [H _]; [vm_compute; lia|].
    vm_compute in H. discriminate.
  - destruct (parse_file crlf_csv) as [r|] eqn:Hr; [|vm_compute in Hr; discriminate].
    vm_compute in Hr. injection Hr as Hr. subst r.
    eexists. eexists. split; [reflexivity|]. split; [reflexivity|].
    repeat split; vm_compute; reflexivity.
Qed.

(** ** Plain prose *)







Lemma search_none_finditer (r : regex) (rest : str) : forall (pos : nat) (prev : option ascii),
  search_from r pos prev rest = None -> finditer_from r 0 pos prev rest = [].
Proof.
  induction rest as [|c rest IH]; intros pos prev H; simpl in *.
  - destruct (match_at r pos prev []); [discriminate|reflexivity].
  - destruct (match_at r pos prev (c :: rest)); [discriminate|]. now apply IH.
Qed.






(** ** The first turn of the global JSON scan *)





(** ** What the resolver keeps of a candidate *)

Lemma dedupe_step_found (kept : list DetectedBlock) (b k : DetectedBlock) :
  find_container b kept = Some k -> dedupe_step kept b = kept.
Proof.
  intros H. destruct (dedupe_step_cases kept b) as [[Hn _]|E]; [congruence|exact E].
Qed.

Lemma inside_self (b : DetectedBlock) : inside b b = true.
Proof. unfold inside. now rewrite !Nat.leb_refl. Qed.

Lemma covered_mono (b : DetectedBlock) (kept kept' : list DetectedBlock) :
  incl kept kept' -> covered b kept -> covered b kept'.
Proof. intros Hi (k & Hk & H). exists k. split; [now apply Hi|assumption]. Qed.

Lemma dedupe_step_incl (kept : list DetectedBlock) (b : DetectedBlock) :
  incl kept (dedupe_step kept b).
Proof.
  destruct (dedupe_step_cases kept b) as [[_ ->]| ->]; [apply incl_appl|]; apply incl_refl.
Qed.

Lemma dedupe_step_covers (kept : list DetectedBlock) (b : DetectedBlock) :
  covered b (dedupe_step kept b).
Proof.
  destruct (find_container b kept) as [k|] eqn:E.
  - rewrite (dedupe_step_found kept b k E).
    unfold find_container in E. apply find_some in E. destruct E as [Hk E].
    apply andb_true_iff in E. destruct E as [E1 E2]. apply Nat.leb_le in E2.
    exists k. auto.
  - unfold dedupe_step. rewrite E.
    exists b. split; [apply in_or_app; right; now left|].
    split; [apply inside_self|lia].
Qed.

Lemma fold_dedupe_covers (l : list DetectedBlock) : forall kept b,
  In b l \/ covered b kept -> covered b (fold_left dedupe_step l kept).
Proof.
  induction l as [|x l IH]; intros kept b [Hb|Hb]; simpl.
  - destruct Hb.
  - assumption.
  - apply IH. destruct Hb as [->|Hb]; [right; apply dedupe_step_covers|now left].
  - apply IH. right. eapply covered_mono; [apply dedupe_step_incl|assumption].
Qed.

(** A candidate is returned, or a returned block of at least its priority
    contains it. *)
Lemma dedupe_covers (bs : list DetectedBlock) (b : DetectedBlock) :
  In b bs ->
  exists k, In k bs /\ In (clamp_block k) (_dedupe_prioritize bs) /\
            inside b k = true /\ prio k <= prio b.
Proof.
  intros Hb.
  destruct (fold_dedupe_covers (sorted_by span_key_le bs) [] b) as (k & Hk & Hin & Hp).
  { left. now apply sorted_by_In. }
  exists k. split; [|split; [|split; assumption]].
  - destruct (fold_dedupe_inv (sorted_by span_key_le bs) []) as [_ H2].
    + constructor.
    + apply sorted_by_sorted; [apply span_key_le_total|apply span_key_le_trans].
    + intros ? ? [].
    + apply H2 in Hk. destruct Hk as [[]|Hk]. now apply sorted_by_In in Hk.
  - unfold _dedupe_prioritize. apply in_map. now apply sorted_by_In.
Qed.





(** ** A text that is one JSON object *)



Lemma nth_error_last_split (t : str) (x : ascii) :
  nth_error t (List.length t - 1) = Some x -> exists front, t = front ++ [x].
Proof.
  intros H. destruct (exists_last (l := t)) as (front & y & E).
  - intros ->. discriminate.
  - exists front. rewrite E in H. rewrite length_app in H. simpl in H.
    replace (List.length front + 1 - 1) with (List.length front) in H by lia.
    rewrite nth_error_app2, Nat.sub_diag in H by lia. simpl in H. congruence.
Qed.

Lemma strip_object (t : str) :
  nth_error t 0 = Some "{"%char ->
  nth_error t (List.length t - 1) = Some "}"%char ->
  strip t = t.
Proof.
  intros H0 Hl. unfold strip, strip_chars.
  destruct t as [|c tl]; [discriminate|]. simpl in H0. injection H0 as ->.
  change (dropwhile is_space ("{"%char :: tl)) with ("{"%char :: tl).
  destruct (nth_error_last_split _ _ Hl) as (front & E). rewrite E.
  rewrite rev_app_distr. cbn [rev app dropwhile].
  change (is_space "}") with false. cbv iota.
  cbn [rev]. now rewrite rev_involutive.
Qed.








(* ================================================================== *)
(** * Further properties of the code *)
(* ================================================================== *)

(** ** The resolver as a function on lists *)

Lemma clamp_conf_cases (c : Q) :
  clamp_conf c = 0%Q \/ clamp_conf c = 1%Q \/
  (clamp_conf c = c /\ (1 ?= c)%Q = Gt /\ (0 ?= c)%Q = Lt).
Proof.
  unfold clamp_conf, Qmax, Qmin, GenericMinMax.gmax, GenericMinMax.gmin.
  destruct (1 ?= c)%Q eqn:E1.
  - right; left. reflexivity.
  - right; left. reflexivity.
  - destruct (0 ?= c)%Q eqn:E0; auto.
Qed.

Lemma clamp_conf_idem (c : Q) : clamp_conf (clamp_conf c) = clamp_conf c.
Proof.
  destruct (clamp_conf_cases c) as [->|[->|(E & E1 & E0)]]; try reflexivity.
  rewrite E. unfold clamp_conf, Qmax, Qmin, GenericMinMax.gmax, GenericMinMax.gmin.
  now rewrite E1, E0.
Qed.

Lemma clamp_block_idem (b : DetectedBlock) : clamp_block (clamp_block b) = clamp_block b.
Proof. unfold clamp_block; simpl. now rewrite clamp_conf_idem. Qed.

Lemma span_key_le_start (x y : DetectedBlock) :
  span_key_le x y = true -> start_le x y = true.
Proof. rewrite span_key_le_spec. unfold start_le. rewrite Nat.leb_le. lia. Qed.

Lemma sorted_by_id {A : Type} (le : A -> A -> bool) (l : list A) :
  StronglySorted (fun a b => le a b = true) l -> sorted_by le l = l.
Proof.
  induction 1 as [|x l Hs IH Hx]; [reflexivity|].
  rewrite sorted_by_head; [now rewrite IH|]. now apply Forall_forall.
Qed.

Lemma StronglySorted_remove {A : Type} (R : A -> A -> Prop) (a : list A) (x : A) (c : list A) :
  StronglySorted R (a ++ x :: c) -> StronglySorted R (a ++ c).
Proof.
  induction a as [|y a IH]; simpl; intros H; inversion H as [|? ? Hs HF]; subst.
  - assumption.
  - constructor; [auto|]. apply Forall_app in HF. destruct HF as [H1 H2].
    inversion H2; subst. apply Forall_app. now split.
Qed.

Lemma fold_dedupe_sorted (R : DetectedBlock -> DetectedBlock -> Prop)
    (l : list DetectedBlock) : forall kept,
  StronglySorted R (kept ++ l) -> StronglySorted R (fold_left dedupe_step l kept).
Proof.
  induction l as [|b l IH]; intros kept H; simpl.
  - now rewrite app_nil_r in H.
  - destruct (dedupe_step_cases kept b) as [[_ ->]| ->].
    + apply IH. now rewrite <- app_assoc.
    + apply IH. eapply StronglySorted_remove; eassumption.
Qed.

Lemma StronglySorted_impl {A : Type} (R R' : A -> A -> Prop) (l : list A) :
  (forall x y, R x y -> R' x y) -> StronglySorted R l -> StronglySorted R' l.
Proof.
  intros HR. induction 1 as [|x l Hs IH Hx]; constructor; auto.
  eapply Forall_impl; [|exact Hx]. auto.
Qed.

Lemma StronglySorted_map {A B : Type} (R : A -> A -> Prop) (R' : B -> B -> Prop)
    (f : A -> B) (l : list A) :
  (forall x y, R x y -> R' (f x) (f y)) -> StronglySorted R l -> StronglySorted R' (map f l).
Proof.
  intros HR. induction 1 as [|x l Hs IH Hx]; simpl; constructor; auto.
  apply Forall_map. eapply Forall_impl; [|exact Hx]. auto.
Qed.

(** The blocks the resolver keeps, before the final sort and clamp. *)
Lemma kept_sorted (bs : list DetectedBlock) :
  StronglySorted (fun a b => span_key_le a b = true)
                 (fold_left dedupe_step (sorted_by span_key_le bs) []).
Proof.
  apply fold_dedupe_sorted. simpl.
  apply sorted_by_sorted; [apply span_key_le_total|apply span_key_le_trans].
Qed.

Lemma dedupe_as_kept (bs : list DetectedBlock) :
  _dedupe_prioritize bs
  = map clamp_block (fold_left dedupe_step (sorted_by span_key_le bs) []).
Proof.
  unfold _dedupe_prioritize. f_equal. apply sorted_by_id.
  eapply StronglySorted_impl; [|apply kept_sorted]. apply span_key_le_start.
Qed.

Lemma find_container_clamp (b : DetectedBlock) (kept : list DetectedBlock) :
  find_container b kept = None ->
  find_container (clamp_block b) (map clamp_block kept) = None.
Proof.
  unfold find_container. induction kept as [|k kept IH]; simpl; [reflexivity|].
  change (inside (clamp_block b) (clamp_block k)) with (inside b k).
  destruct (inside b k && _); [discriminate|]. exact IH.
Qed.

Lemma find_none_all {A : Type} (f : A -> bool) (l : list A) :
  (forall x, In x l -> f x = false) -> List.find f l = None.
Proof.
  induction l as [|x l IH]; intros H; simpl; [reflexivity|].
  rewrite (H x) by now left. apply IH. intros y Hy. apply H. now right.
Qed.

(** A list in which no block has an earlier container of at least its
    priority passes through the inner loop unchanged. *)
Lemma fold_dedupe_keeps (l : list DetectedBlock) : forall kept,
  ForallOrdPairs kept_before (kept ++ l) ->
  fold_left dedupe_step l kept = kept ++ l.
Proof.
  induction l as [|b l IH]; intros kept H; simpl; [now rewrite app_nil_r|].
  assert (Hn : find_container b kept = None).
  { unfold find_container. apply find_none_all. intros k Hk.
    assert (Hkb : kept_before k b).
    { clear IH. induction kept as [|y kept IHk]; [destruct Hk|].
      simpl in H. inversion H as [|? ? HF Hrest]; subst.
      destruct Hk as [->|Hk]; [|auto].
      rewrite Forall_forall in HF. apply HF. apply in_or_app. right. now left. }
    destruct Hkb as [_ Hkb].
    destruct (inside b k) eqn:Ei; [|reflexivity]. simpl.
    apply Nat.leb_gt. destruct (Nat.le_gt_cases (prio k) (prio b)); [|assumption].
    exfalso. apply Hkb. auto. }
  unfold dedupe_step at 2. rewrite Hn. rewrite IH; [now rewrite <- app_assoc|].
  now rewrite <- app_assoc.
Qed.

Lemma ForallOrdPairs_map {A B : Type} (R : A -> A -> Prop) (R' : B -> B -> Prop)
    (f : A -> B) (l : list A) :
  (forall x y, R x y -> R' (f x) (f y)) -> ForallOrdPairs R l -> ForallOrdPairs R' (map f l).
Proof.
  intros HR. induction 1 as [|x l Hx Hl IH]; simpl; constructor; auto.
  apply Forall_map. eapply Forall_impl; [|exact Hx]. auto.
Qed.

Lemma kept_before_clamp (k b : DetectedBlock) :
  kept_before k b -> kept_before (clamp_block k) (clamp_block b).
Proof. intros H. exact H. Qed.

(** X1. Resolving an already resolved list changes nothing: the resolver is
    idempotent. *)
Theorem dedupe_prioritize_idempotent (bs : list DetectedBlock) :
  _dedupe_prioritize (_dedupe_prioritize bs) = _dedupe_prioritize bs.
Proof.
  rewrite (dedupe_as_kept bs).
  set (K := fold_left dedupe_step (sorted_by span_key_le bs) []).
  assert (Hs : StronglySorted (fun a b => span_key_le a b = true) (map clamp_block K)).
  { eapply StronglySorted_map; [|apply kept_sorted]. intros x y H. exact H. }
  assert (Hp : ForallOrdPairs kept_before (map clamp_block K)).
  { eapply ForallOrdPairs_map; [apply kept_before_clamp|].
    apply fold_dedupe_inv; [constructor| |intros ? ? []].
    apply sorted_by_sorted; [apply span_key_le_total|apply span_key_le_trans]. }
  rewrite dedupe_as_kept. rewrite (sorted_by_id _ _ Hs).
  rewrite (fold_dedupe_keeps (map clamp_block K) []); [|exact Hp]. simpl.
  rewrite map_map. apply map_ext. apply clamp_block_idem.
Qed.

Lemma dedupe_sorted_start (bs : list DetectedBlock) :
  StronglySorted (fun a b => start_index a <= start_index b) (_dedupe_prioritize bs).
Proof.
  unfold _dedupe_prioritize.
  eapply StronglySorted_map; [|apply sorted_by_sorted; [apply start_le_total|apply start_le_trans]].
  intros x y H. simpl. now apply Nat.leb_le.
Qed.

Lemma fold_dedupe_split (l : list DetectedBlock) : forall kept,
  exists dropped, Permutation (kept ++ l) (fold_left dedupe_step l kept ++ dropped).
Proof.
  induction l as [|b l IH]; intros kept; simpl.
  - exists []. reflexivity.
  - destruct (dedupe_step_cases kept b) as [[_ ->]| ->].
    + destruct (IH (kept ++ [b])) as (dr & H). exists dr. now rewrite <- app_assoc in H.
    + destruct (IH kept) as (dr & H). exists (b :: dr).
      rewrite <- Permutation_middle. rewrite <- Permutation_middle. now constructor.
Qed.

(** X2. The resolver only removes: its output, together with the blocks it
    dropped, is a rearrangement of its (confidence-clamped) input, so no block
    is invented or returned twice. *)
Theorem dedupe_prioritize_only_removes (bs : list DetectedBlock) :
  exists dropped, Permutation (map clamp_block bs) (_dedupe_prioritize bs ++ map clamp_block dropped).
Proof.
  rewrite dedupe_as_kept.
  destruct (fold_dedupe_split (sorted_by span_key_le bs) []) as (dr & H). simpl in H.
  exists dr. rewrite <- map_app. apply Permutation_map.
  rewrite <- H. symmetry. apply sorted_by_perm.
Qed.

Lemma unnested_pairs (l : list DetectedBlock) :
  NoDup l -> StronglySorted (fun a b => span_key_le a b = true) l ->
  (forall x y, In x l -> In y l -> x <> y -> inside x y = false) ->
  ForallOrdPairs kept_before l.
Proof.
  intros Hnd Hss. induction Hss as [|x l Hs IH Hx]; intros Hun; [constructor|].
  inversion Hnd as [|? ? Hnx Hndl]; subst.
  constructor.
  - rewrite Forall_forall in *. intros y Hy. split; [now apply Hx|].
    intros [Hi _]. rewrite Hun in Hi; [discriminate| | |]; simpl; auto.
    intros ->. contradiction.
  - apply IH; auto. intros y z Hy Hz. apply Hun; simpl; auto.
Qed.

(** X3. From a list of distinct blocks none of which lies inside another
    the resolver drops nothing. *)
Theorem dedupe_prioritize_keeps_unnested (bs : list DetectedBlock) :
  NoDup bs ->
  (forall x y, In x bs -> In y bs -> x <> y -> inside x y = false) ->
  Permutation (map clamp_block bs) (_dedupe_prioritize bs).
Proof.
  intros Hnd Hun. rewrite dedupe_as_kept. apply Permutation_map.
  assert (Hperm : Permutation (sorted_by span_key_le bs) bs) by apply sorted_by_perm.
  rewrite (fold_dedupe_keeps (sorted_by span_key_le bs) []); [simpl; now symmetry|].
  simpl. apply unnested_pairs.
  - eapply Permutation_NoDup; [symmetry; exact Hperm|exact Hnd].
  - apply sorted_by_sorted; [apply span_key_le_total|apply span_key_le_trans].
  - intros x y Hx Hy. apply Hun; now apply sorted_by_In in Hx, Hy.
Qed.

(** X4. A candidate block is never lost without cover: the resolver returns
    a block that contains it (possibly the block itself) and whose priority
    index is not larger. *)
Theorem dedupe_prioritize_covers (bs : list DetectedBlock) (b : DetectedBlock) :
  In b bs ->
  exists k, In k bs /\ In (clamp_block k) (_dedupe_prioritize bs) /\
            inside b k = true /\ prio k <= prio b.
Proof. apply dedupe_covers. Qed.

(** X4 at a RAW_TEXT block inside an HTML block: only the latter is kept. *)
Lemma dedupe_prioritize_covers_witness :
  In inner_block [inner_block; outer_block] /\
  _dedupe_prioritize [inner_block; outer_block] = [outer_block] /\
  exists k, In k [inner_block; outer_block] /\
            In (clamp_block k) (_dedupe_prioritize [inner_block; outer_block]) /\
            inside inner_block k = true /\ prio k <= prio inner_block.
Proof.
  assert (H : In inner_block [inner_block; outer_block]) by now left.
  split; [exact H|]. split; [reflexivity|].
  exact (dedupe_prioritize_covers _ _ H).
Defined.

(** X3 at two blocks that lie apart. *)
Lemma dedupe_prioritize_keeps_unnested_witness :
  NoDup [apart_block; outer_block] /\
  Permutation (map clamp_block [apart_block; outer_block])
              (_dedupe_prioritize [apart_block; outer_block]).
Proof.
  assert (H1 : NoDup [apart_block; outer_block]).
  { constructor; [simpl; intuition discriminate|]. constructor; [intros []|constructor]. }
  split; [exact H1|].
  apply (dedupe_prioritize_keeps_unnested _ H1).
  intros x y [<-|[<-|[]]] [<-|[<-|[]]] Hne; try reflexivity; congruence.
Defined.

(** ** The confidence clamp, the summary and the order of the result *)

(** X5. [clamp_conf] maps every number into [[0, 1]], leaves the numbers of
    that interval as they are, and is idempotent. *)
Theorem clamp_conf_range (c : Q) :
  (0 <= clamp_conf c)%Q /\ (clamp_conf c <= 1)%Q /\
  ((0 <= c)%Q -> (c <= 1)%Q -> (clamp_conf c == c)%Q) /\
  clamp_conf (clamp_conf c) = clamp_conf c.
Proof.
  unfold clamp_conf. split; [apply Q.le_max_l|]. split; [|split].
  - apply Q.max_lub; [discriminate|apply Q.le_min_l].
  - intros H0 H1. rewrite Q.min_r by assumption. now rewrite Q.max_r.
  - apply clamp_conf_idem.
Qed.

Lemma summary_get_count_set (f k : string) (d : list (string * nat)) :
  summary_get f (count_set k d)
  = if String.eqb k f then S (summary_get f d) else summary_get f d.
Proof.
  induction d as [|[k' c] d IH]; simpl.
  - destruct (String.eqb k f); reflexivity.
  - destruct (String.eqb k' k) eqn:E; simpl.
    + apply String.eqb_eq in E. subst k'.
      destruct (String.eqb k f); [lia|reflexivity].
    + destruct (String.eqb k' f) eqn:E'; [|exact IH].
      apply String.eqb_eq in E'. subst k'.
      rewrite String.eqb_sym, E. reflexivity.
Qed.

Lemma keys_count_set (k : string) (d : list (string * nat)) :
  (In k (map fst d) /\ map fst (count_set k d) = map fst d) \/
  (~ In k (map fst d) /\ map fst (count_set k d) = map fst d ++ [k]).
Proof.
  induction d as [|[k' c] d IH]; simpl; [right; auto|].
  destruct (String.eqb k' k) eqn:E; simpl.
  - apply String.eqb_eq in E. left. auto.
  - apply String.eqb_neq in E. destruct IH as [[H1 H2]|[H1 H2]].
    + left. split; [auto|congruence].
    + right. split; [tauto|congruence].
Qed.

Lemma positive_count_set (k : string) (d : list (string * nat)) :
  Forall (fun p => 1 <= snd p) d -> Forall (fun p => 1 <= snd p) (count_set k d).
Proof.
  induction 1 as [|[k' c] d Hc Hd IH]; simpl.
  - constructor; [simpl; lia|constructor].
  - destruct (String.eqb k' k); constructor; simpl in *; auto; lia.
Qed.

Lemma summary_fold (l : list DetectedBlock) : forall (pre : list DetectedBlock) sm,
  (forall f, summary_get f sm = count_format f pre) ->
  NoDup (map fst sm) -> Forall (fun p => 1 <= snd p) sm ->
  let sm' := fold_left (fun sm b => count_set (format_type b) sm) l sm in
  (forall f, summary_get f sm' = count_format f (pre ++ l)) /\
  NoDup (map fst sm') /\ Forall (fun p => 1 <= snd p) sm'.
Proof.
  induction l as [|b l IH]; intros pre sm Hg Hn Hp; simpl.
  - rewrite app_nil_r. auto.
  - replace (pre ++ b :: l) with ((pre ++ [b]) ++ l) by now rewrite <- app_assoc.
    apply IH.
    + intros f. rewrite summary_get_count_set, Hg. unfold count_format.
      rewrite filter_app, length_app. simpl.
      destruct (String.eqb (format_type b) f); simpl; lia.
    + destruct (keys_count_set (format_type b) sm) as [[_ ->]|[Hni ->]]; [assumption|].
      apply NoDup_app; [assumption|repeat constructor; auto| ].
      intros x Hx [<-|[]]. contradiction.
    + now apply positive_count_set.
Qed.

(** X6. The summary of [parse_file] maps every format to the number of
    returned fragments of that format ([summary.get(f, 0)] is 0 for a format
    without fragments), without repeated keys or zero counts. *)
Theorem summary_counts_fragments (t : str) :
  exists r, parse_file t = Some r /\
    (forall f, summary_get f (summary r) = count_format f (fragments r)) /\
    NoDup (map fst (summary r)) /\
    Forall (fun p => 1 <= snd p) (summary r).
Proof.
  destruct (parse_file_total t) as (r & Hr). exists r. split; [assumption|].
  unfold parse_file in Hr. destruct (run_all t) as [bs|]; [|discriminate].
  injection Hr as <-. simpl.
  apply (summary_fold bs [] []); [reflexivity|constructor|constructor].
Qed.

Lemma StronglySorted_flat_map {A B : Type} (R : A -> A -> Prop) (R' : B -> B -> Prop)
    (g : A -> list B) (l : list A) :
  (forall x, g x = [] \/ exists y, g x = [y]) ->
  (forall x y x' y', R x y -> In x' (g x) -> In y' (g y) -> R' x' y') ->
  StronglySorted R l -> StronglySorted R' (flat_map g l).
Proof.
  intros Hg HR. induction 1 as [|x l Hs IH Hx]; simpl; [constructor|].
  destruct (Hg x) as [E|(y & E)]; rewrite E; simpl; [assumption|].
  constructor; [assumption|]. apply Forall_forall. intros z Hz.
  apply in_flat_map in Hz. destruct Hz as (w & Hw & Hz).
  rewrite Forall_forall in Hx. apply (HR x w); auto. rewrite E. now left.
Qed.

(** X7. The fragments of [parse_file] come in non-decreasing order of their
    start offset, and so do the records. *)
Theorem fragments_and_records_sorted (t : str) :
  exists r, parse_file t = Some r /\
    StronglySorted (fun a b => start_index a <= start_index b) (fragments r) /\
    StronglySorted (fun x y => r_start x <= r_start y) (records r).
Proof.
  destruct (parse_file_total t) as (r & Hr). exists r. split; [assumption|].
  assert (Hs : StronglySorted (fun a b => start_index a <= start_index b) (fragments r)).
  { unfold parse_file in Hr. destruct (run_all_shape t) as (d & E & _). rewrite E in Hr.
    injection Hr as <-. simpl. apply dedupe_sorted_start. }
  split; [assumption|].
  rewrite (records_of_fragments t r Hr).
  eapply StronglySorted_flat_map; [| |exact Hs].
  - intros b. destruct (normalize b); eauto.
  - intros x y x' y' Hxy Hx' Hy'. destruct (normalize x); [|destruct Hx'].
    destruct (normalize y); [|destruct Hy'].
    destruct Hx' as [<-|[]]. destruct Hy' as [<-|[]]. exact Hxy.
Qed.

(** ** What the detectors establish about the blocks they add *)

Lemma grows_trans (Q : detector -> DetectedBlock -> Prop) (d1 d2 d3 : detector) :
  grows Q d1 d2 -> grows Q d2 d3 -> grows Q d1 d3.
Proof. intros H1 H2. induction H2; [assumption|]. constructor; auto. Qed.

Lemma grows_weaken (Q Q' : detector -> DetectedBlock -> Prop) (d d' : detector) :
  (forall d0 b, Q d0 b -> Q' d0 b) -> grows Q d d' -> grows Q' d d'.
Proof. intros H. induction 1; constructor; auto. Qed.

Lemma grows_one (Q : detector -> DetectedBlock -> Prop) (d : detector) (b : DetectedBlock) :
  Q d b -> grows Q d (add_block d b).
Proof. intros H. constructor; [constructor|assumption]. Qed.

Lemma grows_fold {X : Type} (Q : detector -> DetectedBlock -> Prop)
    (f : detector -> X -> detector) (l : list X) :
  (forall d x, grows Q d (f d x)) -> forall d, grows Q d (fold_left f l d).
Proof.
  intros Hstep. induction l as [|x l IH]; intros d; simpl; [constructor|].
  eapply grows_trans; [apply Hstep|apply IH].
Qed.

Lemma reserving_spec (f : string) :
  existsb (String.eqb f) reserving = true <-> In f reserving.
Proof.
  rewrite existsb_exists. split.
  - intros (x & Hx & E). apply String.eqb_eq in E. now subst.
  - intros H. exists f. split; [assumption|apply String.eqb_refl].
Qed.

Lemma add_block_tracked (d : detector) (b : DetectedBlock) :
  reserved_tracked d -> reserved_tracked (add_block d b).
Proof.
  intros H k Hk Hr. rewrite blocks_add_block in Hk. unfold add_block.
  destruct (existsb (String.eqb (format_type b)) reserving) eqn:E; simpl.
  - apply in_or_app. apply in_app_or in Hk. destruct Hk as [Hk|[<-|[]]]; [left; auto|right; now left].
  - apply in_app_or in Hk. destruct Hk as [Hk|[<-|[]]]; [auto|].
    apply reserving_spec in Hr. congruence.
Qed.

Lemma not_occupied_disjoint (d : detector) (b k : DetectedBlock) :
  is_occupied d (start_index b) (end_index b) = false ->
  In (start_index k, end_index k) (occupied d) ->
  disjoint_spans b k.
Proof.
  unfold is_occupied. intros H Hin.
  assert (E : overlaps (start_index b) (end_index b) (start_index k, end_index k) = false).
  { destruct (overlaps _ _ _) eqn:E; [|reflexivity].
    assert (existsb (overlaps (start_index b) (end_index b)) (occupied d) = true)
      by (apply existsb_exists; eauto). congruence. }
  unfold overlaps in E. simpl in E. apply negb_false_iff, orb_true_iff in E.
  unfold disjoint_spans. rewrite !Nat.leb_le in E. exact E.
Qed.

(** A run of [add_block] calls from a state that tracks its reserved spans:
    what it appends avoids, when guarded, all reserving blocks that were
    already there, those of the run itself included. *)
Lemma grows_stage (fmts guarded : list string) (d d' : detector) :
  reserved_tracked d -> grows (adds fmts guarded) d d' ->
  reserved_tracked d' /\
  exists new, blocks d' = blocks d ++ new /\
    Forall (fun b => In (format_type b) fmts /\ block_facts b /\
                     (In (format_type b) guarded ->
                      forall k, In k (blocks d) -> In (format_type k) reserving ->
                                disjoint_spans b k)) new /\
    ForallOrdPairs (fun k b => In (format_type k) reserving ->
                               In (format_type b) guarded -> disjoint_spans b k) new.
Proof.
  intros Ht. induction 1 as [|d d' b Hg IH (Hf & Hocc & Hfacts)].
  - split; [assumption|]. exists []. split; [now rewrite app_nil_r|].
    split; constructor.
  - destruct (IH Ht) as (Ht' & new & Hb & HF & HP).
    split; [now apply add_block_tracked|].
    exists (new ++ [b]). split; [rewrite blocks_add_block, Hb; now rewrite app_assoc|].
    split.
    + apply Forall_app. split; [assumption|]. constructor; [|constructor].
      split; [assumption|]. split; [assumption|].
      intros Hgd k Hk Hr. apply (not_occupied_disjoint d'); [auto|].
      apply Ht'; [|assumption]. rewrite Hb. apply in_or_app. now left.
    + apply ForallOrdPairs_snoc; [assumption|].
      apply Forall_forall. intros k Hk Hr Hgd.
      apply (not_occupied_disjoint d'); [auto|].
      apply Ht'; [|assumption]. rewrite Hb. apply in_or_app. now right.
Qed.

(** *** JSON spans parse to objects *)

Lemma parse_members_obj (fuel : nat) : forall (t : str) (acc : list (ustr * json)) v r,
  parse_members fuel t acc = Some (v, r) -> exists fields, v = JObj fields.
Proof.
  induction fuel as [|f IH]; intros t acc v r H; simpl in H; [discriminate|].
  destruct t as [|q t']; [discriminate|].
  destruct (chr_eq DQ q); [|discriminate].
  destruct (scan_string _ _ _) as [[k r0]|]; [|discriminate].
  destruct (skip_ws r0) as [|c r1]; [discriminate|].
  destruct (chr_eq ":" c); [|discriminate].
  destruct (parse_value f (skip_ws r1)) as [[v0 r2]|]; [|discriminate].
  destruct (skip_ws r2) as [|d r3]; [discriminate|].
  destruct (chr_eq "}" d).
  - injection H as <- _. eauto.
  - destruct (chr_eq "," d); [|discriminate]. eapply IH; eassumption.
Qed.

Lemma json_loads_object (x : str) (v : json) :
  nth_error x 0 = Some "{"%char -> json_loads x = Some v -> exists fields, v = JObj fields.
Proof.
  intros Hx H. destruct x as [|c x']; [discriminate|]. injection Hx as ->.
  unfold json_loads in H.
  change (skip_ws ("{"%char :: x')) with ("{"%char :: x') in H.
  destruct (parse_value _ _) as [[v0 r]|] eqn:E; [|discriminate].
  destruct (skip_ws r); [|discriminate]. injection H as ->.
  rewrite Nat.add_comm in E. cbn [Nat.add parse_value] in E.
  change (chr_eq DQ "{") with false in E. change (chr_eq "{" "{") with true in E.
  cbv iota in E.
  destruct (skip_ws x') as [|d r']; [discriminate|].
  destruct (chr_eq "}" d).
  - injection E as <- _. eauto.
  - destruct (chr_eq DQ d); [|discriminate]. eapply parse_members_obj; eassumption.
Qed.

Lemma nth_error_slice (t : str) (s e k : nat) :
  k < e - s -> nth_error (slice t s e) k = nth_error t (s + k).
Proof.
  intros H. unfold slice. rewrite nth_error_firstn.
  destruct (k <? e - s) eqn:E; [|apply Nat.ltb_ge in E; lia].
  apply nth_error_skipn.
Qed.

Lemma span_json_fact (t : str) (p m s e : nat) (v : json) :
  find_json_span t p m = Some (s, e) ->
  json_loads (span_text t s e) = Some v ->
  exists fields, json_loads (strip (span_text t s e)) = Some (JObj fields).
Proof.
  intros Hf Hv. pose proof (find_json_span_cases t p m) as Hs. rewrite Hf in Hs.
  destruct Hs as ((_ & Hb & _) & (Hse & Hel & Hc & _) & _).
  assert (H0 : nth_error (span_text t s e) 0 = Some "{"%char).
  { unfold span_text. rewrite nth_error_slice by lia. now rewrite Nat.add_0_r. }
  assert (Hl : List.length (span_text t s e) = e - s).
  { unfold span_text. rewrite length_slice; lia. }
  assert (H1 : nth_error (span_text t s e) (List.length (span_text t s e) - 1) = Some "}"%char).
  { rewrite Hl. unfold span_text. rewrite nth_error_slice by lia.
    replace (s + (e - s - 1)) with (e - 1) by lia. exact Hc. }
  rewrite (strip_object _ H0 H1).
  destruct (json_loads_object _ v H0 Hv) as (fields & ->). eauto.
Qed.

(** *** [strip] and [find] *)

Lemma dropwhile_fixed (p : ascii -> bool) (s : str) :
  match s with [] => True | c :: _ => p c = false end -> dropwhile p s = s.
Proof. destruct s as [|c s]; simpl; [reflexivity|]. now intros ->. Qed.

Lemma dropwhile_head (p : ascii -> bool) (s : str) :
  match dropwhile p s with [] => True | c :: _ => p c = false end.
Proof.
  induction s as [|c s IH]; simpl; [exact I|].
  destruct (p c) eqn:E; [exact IH|exact E].
Qed.

Lemma dropwhile_app_keep (p : ascii -> bool) (s : str) (c : ascii) :
  p c = false -> dropwhile p (s ++ [c]) = dropwhile p s ++ [c].
Proof.
  intros Hc. induction s as [|x s IH]; simpl; [now rewrite Hc|].
  destruct (p x); [exact IH|reflexivity].
Qed.

(** A stripped text neither begins nor ends with a stripped character. *)
Lemma strip_chars_ends (p : ascii -> bool) (s : str) :
  strip_chars p s = [] \/
  exists c d,
    hd_error (strip_chars p s) = Some c /\ p c = false /\
    hd_error (rev (strip_chars p s)) = Some d /\ p d = false.
Proof.
  unfold strip_chars. rewrite rev_involutive.
  pose proof (dropwhile_head p s) as H1.
  destruct (dropwhile p s) as [|c a] eqn:Ea.
  - left. reflexivity.
  - right. pose proof (dropwhile_head p (rev (c :: a))) as H2.
    simpl rev in *. rewrite (dropwhile_app_keep p (rev a) c H1) in *.
    destruct (dropwhile p (rev a) ++ [c]) as [|d w] eqn:Ew.
    + destruct (dropwhile p (rev a)); discriminate.
    + exists c, d. split; [|split; [exact H1|split; [reflexivity|exact H2]]].
      rewrite <- Ew. rewrite rev_app_distr. reflexivity.
Qed.

Lemma strip_chars_idem (p : ascii -> bool) (s : str) :
  strip_chars p (strip_chars p s) = strip_chars p s.
Proof.
  destruct (strip_chars_ends p s) as [->|(c & d & Hc & Hpc & Hd & Hpd)]; [reflexivity|].
  set (u := strip_chars p s) in *. unfold strip_chars at 1.
  rewrite (dropwhile_fixed p u).
  - rewrite (dropwhile_fixed p (rev u)); [apply rev_involutive|].
    destruct (rev u); [exact I|]. injection Hd as ->. exact Hpd.
  - destruct u; [exact I|]. injection Hc as ->. exact Hpc.
Qed.

Lemma is_prefix_firstn (p rest : str) :
  is_prefix p rest = true -> firstn (List.length p) rest = p.
Proof.
  revert rest. induction p as [|x p IH]; intros [|y rest] H; simpl in *; try reflexivity;
    try discriminate.
  apply andb_true_iff in H. destruct H as [H1 H2]. apply Ascii.eqb_eq in H1. subst y.
  f_equal. now apply IH.
Qed.

Lemma find_from_spec (p : str) (hi : nat) (rest : str) : forall (i k : nat),
  find_from p i hi rest = Some k ->
  i <= k /\ firstn (List.length p) (skipn (k - i) rest) = p.
Proof.
  induction rest as [|c rest IH]; intros i k H; simpl in H.
  - destruct ((i + List.length p <=? hi) && is_prefix p []) eqn:E; [|discriminate].
    injection H as <-. apply andb_true_iff in E. destruct E as [_ E].
    split; [lia|]. rewrite Nat.sub_diag. simpl. now apply is_prefix_firstn.
  - destruct ((i + List.length p <=? hi) && is_prefix p (c :: rest)) eqn:E.
    + injection H as <-. apply andb_true_iff in E. destruct E as [_ E].
      split; [lia|]. rewrite Nat.sub_diag. simpl skipn. now apply is_prefix_firstn.
    + apply IH in H. destruct H as [H1 H2]. split; [lia|].
      replace (k - i) with (S (k - S i)) by lia. exact H2.
Qed.

(** [t.find(p, lo, hi)] returns an offset at which [p] stands. *)
Lemma find_sub_spec (p t : str) (lo hi k : nat) :
  find_sub p t lo hi = Some k -> slice t k (k + List.length p) = p.
Proof.
  unfold find_sub. destruct (lo <=? List.length t); [|discriminate].
  intros H. apply find_from_spec in H. destruct H as [H1 H2].
  unfold slice. replace (k + List.length p - k) with (List.length p) by lia.
  rewrite skipn_skipn in H2. replace (k - lo + lo) with k in H2 by lia. exact H2.
Qed.

(** *** Confidences *)

Lemma clamp_conf_fixed (c : Q) : (0 <= c)%Q -> (c <= 1)%Q -> (clamp_conf c == c)%Q.
Proof.
  intros H0 H1. unfold clamp_conf. rewrite Q.min_r by assumption. now rewrite Q.max_r.
Qed.

Lemma html_conf_bounds (k : nat) :
  let c := clamp_conf (0.5 + Qmin 0.4 (inject_Z (Z.of_nat k) * 0.03))%Q in
  (0.5 <= c)%Q /\ (c <= 0.9)%Q.
Proof.
  cbv zeta. set (y := (inject_Z (Z.of_nat k) * 0.03)%Q).
  assert (Hy : (0 <= y)%Q).
  { unfold y. apply Qmult_le_0_compat; [|discriminate].
    change 0%Q with (inject_Z 0). rewrite <- Zle_Qle. lia. }
  assert (Hm0 : (0 <= Qmin 0.4 y)%Q) by (apply Q.min_glb; [discriminate|assumption]).
  assert (Hm1 : (Qmin 0.4 y <= 0.4)%Q) by apply Q.le_min_l.
  assert (Hlo : (0.5 <= 0.5 + Qmin 0.4 y)%Q).
  { rewrite <- (Qplus_0_r 0.5) at 1. apply Qplus_le_r. exact Hm0. }
  assert (Hhi : (0.5 + Qmin 0.4 y <= 0.9)%Q).
  { setoid_replace 0.9%Q with (0.5 + 0.4)%Q by reflexivity. apply Qplus_le_r. exact Hm1. }
  rewrite clamp_conf_fixed.
  - split; assumption.
  - eapply Qle_trans; [|exact Hlo]. discriminate.
  - eapply Qle_trans; [exact Hhi|]. discriminate.
Qed.

(** *** The detectors, one by one *)

Ltac wrong_format :=
  let H := fresh in
  intros H; simpl in H; first [discriminate H | destruct H as [H|H]; discriminate H].

Ltac conf_listed :=
  unfold conf_ok; cbn [format_type confidence]; simpl;
  repeat first [left; reflexivity | right].

Ltac facts_by tac := constructor; [tac | ..]; try wrong_format.

Ltac adds_intro := split; [simpl; tauto | split].

Lemma detect_json_ld_grows (t : str) (d : detector) :
  grows (adds ["JSON_LD"%string] []) d (detect_json_ld t d).
Proof.
  unfold detect_json_ld. apply grows_fold. intros d0 m.
  destruct (group_span m 1) as [s e].
  apply grows_one. adds_intro; [intros []|].
  destruct (json_loads _); facts_by conf_listed.
Qed.

Lemma detect_yaml_frontmatter_grows (t : str) (d : detector) :
  grows (adds ["YAML_FRONTMATTER"%string] ["YAML_FRONTMATTER"%string]) d
        (detect_yaml_frontmatter t d).
Proof.
  unfold detect_yaml_frontmatter. apply grows_fold. intros d0 m.
  destruct (group_span m 2) as [s e].
  destruct (is_occupied d0 s e) eqn:Eo; simpl; [constructor|].
  apply grows_one. adds_intro; [intros _; exact Eo|].
  destruct (Qle_bool _ _); facts_by conf_listed.
Qed.

Lemma detect_sectioned_jsons_grows (t : str) (d : detector) :
  grows (adds ["JSON"; "MALFORMED_JSON"]%string []) d (detect_sectioned_jsons t d).
Proof.
  unfold detect_sectioned_jsons. apply grows_fold. intros d0 m.
  destruct (group_span m 2) as [hs he].
  destruct (strip (span_text t _ _)) as [|c0 body]; [constructor|].
  destruct (contains_sub _ _ && _); [|constructor].
  destruct (find_json_span t _ default_max_len) as [[s e]|] eqn:Ef.
  - destruct (json_loads (span_text t s e)) as [v|] eqn:Ev.
    + apply grows_one. adds_intro; [intros []|]. facts_by conf_listed.
      intros _. cbn [text]. eapply span_json_fact; eassumption.
    + apply grows_one. adds_intro; [intros []|]. facts_by conf_listed.
  - destruct (negb _); [|constructor].
    apply grows_one. adds_intro; [intros []|]. facts_by conf_listed.
Qed.

Lemma slice_length_le (t : str) (a b : nat) : List.length (slice t a b) <= b - a.
Proof. unfold slice. rewrite length_firstn. lia. Qed.

Lemma unclosed_end_le (t : str) (pos : nat) : unclosed_end t pos <= pos + 2000.
Proof.
  unfold unclosed_end. destruct (re_search _ _) as [dn|] eqn:E; [|lia].
  pose proof (re_search_ok _ _ _ E) as (_ & H1 & H2 & _).
  pose proof (slice_length_le t pos (Nat.min (self_n t) (pos + 2000))) as H3.
  unfold span_text in H2. lia.
Qed.

Lemma jsons_global_loop_grows (t : str) : forall (fuel i : nat) (d d' : detector),
  jsons_global_loop t fuel i d = Some d' ->
  grows (adds ["JSON"; "MALFORMED_JSON"]%string ["JSON"; "MALFORMED_JSON"]%string) d d'.
Proof.
  induction fuel as [|fuel IH]; intros i d d' H; [discriminate|]. cbn [jsons_global_loop] in H.
  destruct (re_search Pat.lbrace (skipn i t)) as [m|]; [|injection H as <-; constructor].
  destruct (is_occupied d _ _); [eapply IH; eassumption|].
  destruct (find_json_span t _ default_max_len) as [[s e]|] eqn:Ef.
  - destruct (is_occupied d s e) eqn:Eo; [eapply IH; eassumption|].
    destruct (json_loads (span_text t s e)) as [v|] eqn:Ev.
    + eapply grows_trans; [|eapply IH; eassumption].
      apply grows_one. adds_intro; [intros _; exact Eo|]. facts_by conf_listed.
      intros _. cbn [text]. eapply span_json_fact; eassumption.
    + eapply grows_trans; [|eapply IH; eassumption].
      apply grows_one. adds_intro; [intros _; exact Eo|].
      destruct (2 <=? _); facts_by conf_listed.
  - cbv zeta in H.
    match type of H with jsons_global_loop t fuel ?e0 _ = _ =>
      change e0 with (unclosed_end t (i + mt_start m)) in H end.
    pose proof (unclosed_end_le t (i + mt_start m)) as Hle.
    set (e := unclosed_end t (i + mt_start m)) in *.
    eapply grows_trans; [|eapply IH; exact H].
    destruct (is_occupied d _ e) eqn:Eo; simpl; [constructor|].
    destruct (re_search Pat.any_quoted_key _);
      [|destruct (re_search Pat.bare_key_ws _); [|constructor]];
      (apply grows_one; adds_intro; [intros _; exact Eo|]; facts_by conf_listed;
       intros _; simpl; lia).
Qed.

Lemma detect_html_tables_grows (t : str) (d : detector) :
  grows (adds ["HTML_TABLE"%string] ["HTML_TABLE"%string]) d (detect_html_tables t d).
Proof.
  unfold detect_html_tables. apply grows_fold. intros d0 m.
  destruct (is_occupied d0 (mt_start m) _); [constructor|].
  destruct (re_search Pat.table_close _) as [et|]; [|constructor].
  destruct (table_shape _) as [rows cols].
  destruct (is_occupied d0 _ _) eqn:Eo; simpl; [constructor|].
  apply grows_one. adds_intro; [intros _; exact Eo|].
  destruct (_ && _); facts_by conf_listed.
Qed.

Lemma detect_html_blocks_grows (t : str) (d : detector) :
  grows (adds ["HTML"%string] ["HTML"%string]) d (detect_html_blocks t d).
Proof.
  unfold detect_html_blocks. apply grows_fold. intros d0 m.
  destruct (is_occupied d0 (mt_start m) _); [constructor|].
  destruct (group_span m 1) as [ts te].
  destruct (re_search _ _) as [cm|]; [|constructor].
  destruct (20 <? _) eqn:El; simpl; [|constructor].
  destruct (is_occupied d0 _ _) eqn:Eo; simpl; [constructor|].
  apply grows_one. adds_intro; [intros _; exact Eo|].
  facts_by idtac.
  - unfold conf_ok. cbn [format_type confidence]. simpl String.eqb. cbv iota.
    apply html_conf_bounds.
  - intros _. simpl. now apply Nat.ltb_lt.
Qed.

Lemma detect_js_objects_grows (t : str) (d : detector) :
  grows (adds ["JS_OBJECT"%string] []) d (detect_js_objects t d).
Proof.
  unfold detect_js_objects. apply grows_fold. intros d0 m.
  destruct (is_occupied d0 (mt_start m) _); [constructor|].
  destruct (find_json_span t _ default_max_len) as [[s e]|]; [|constructor].
  destruct (negb _); [|constructor].
  destruct (group_span m 2) as [vs ve].
  apply grows_one. adds_intro; [intros []|]. facts_by conf_listed.
Qed.

Lemma detect_sql_grows (t : str) (d : detector) :
  grows (adds ["SQL"%string] ["SQL"%string]) d (detect_sql t d).
Proof.
  unfold detect_sql. apply grows_fold. intros d0 m.
  destruct (is_occupied d0 _ _) eqn:Eo; simpl; [constructor|].
  apply grows_one. adds_intro; [intros _; exact Eo|]. facts_by conf_listed.
Qed.

Lemma csv_loop_grows (t : str) : forall (fuel i : nat) (d d' : detector),
  csv_loop t fuel i d = Some d' ->
  grows (adds ["CSV"; "CSV_NO_HEADER"]%string ["CSV"; "CSV_NO_HEADER"]%string) d d'.
Proof.
  induction fuel as [|fuel IH]; intros i d d' H; [discriminate|]. cbn [csv_loop] in H.
  destruct (i <? List.length (text_lines t)); [|injection H as <-; constructor].
  destruct (str_eqb _ _); [eapply IH; eassumption|].
  destruct (csv_candidate _) as [cand|] eqn:Ecand; [|eapply IH; eassumption].
  set (counts := count_char cand (nth i (text_lines t) [])
                 :: csv_extend cand 199 (skipn (i + 1) (text_lines t))) in *.
  destruct ((2 <=? List.length counts) && _) eqn:Ec; [|eapply IH; eassumption].
  apply andb_true_iff in Ec. destruct Ec as [Ec _]. apply Nat.leb_le in Ec.
  assert (Hlen : List.length counts <= 200).
  { unfold counts. cbn [List.length].
    assert (Hb : forall rest b, List.length (csv_extend cand b rest) <= b).
    { induction rest as [|ln rest IHr]; intros [|b]; simpl; try lia.
      destruct (_ && _); simpl; [specialize (IHr b)|]; lia. }
    specialize (Hb (skipn (i + 1) (text_lines t)) 199). lia. }
  assert (Hcand : In cand [","%char; TAB; ";"%char]).
  { unfold csv_candidate in Ecand. apply find_some in Ecand. tauto. }
  clearbody counts.
  destruct (is_occupied d _ _) eqn:Eo; simpl in H; [eapply IH; eassumption|].
  eapply grows_trans; [|eapply IH; exact H].
  destruct (re_search Pat.letter _);
    (apply grows_one; adds_intro; [intros _; exact Eo|];
     facts_by conf_listed; intros _; simpl; eauto 6).
Qed.

Lemma kv_loop_grows (t : str) : forall (fuel i : nat) (d d' : detector),
  kv_loop t fuel i d = Some d' ->
  grows (adds ["KEY_VALUE"%string] ["KEY_VALUE"%string]) d d'.
Proof.
  induction fuel as [|fuel IH]; intros i d d' H; [discriminate|]. cbn [kv_loop] in H.
  destruct (i <? List.length (text_lines t)); [|injection H as <-; constructor].
  destruct (matches Pat.kv_first _); [|eapply IH; eassumption].
  destruct (2 <=? kv_run (skipn i (text_lines t))) eqn:Ec; [|eapply IH; eassumption].
  apply Nat.leb_le in Ec.
  destruct (is_occupied d _ _) eqn:Eo; simpl in H; [eapply IH; eassumption|].
  eapply grows_trans; [|eapply IH; exact H].
  apply grows_one. adds_intro; [intros _; exact Eo|].
  facts_by conf_listed. intros _. simpl. eauto.
Qed.

Lemma raw_part_grows (t : str) (e pos : nat) (d : detector) (part : str) :
  grows (adds ["RAW_TEXT"%string] ["RAW_TEXT"%string]) d (snd (raw_part t e (pos, d) part)).
Proof.
  unfold raw_part.
  destruct (strip part) as [|c p] eqn:Ep; [constructor|].
  destruct (find_sub _ t pos e) as [start|] eqn:Ef; [|constructor].
  simpl snd.
  destruct (is_occupied d _ _) eqn:Eo; simpl; [constructor|].
  apply grows_one. adds_intro; [intros _; exact Eo|].
  facts_by conf_listed. intros _. cbn [text].
  pose proof (find_sub_spec _ _ _ _ _ Ef) as Hs.
  unfold span_text. simpl in Hs |- *. rewrite Hs.
  split; [discriminate|]. rewrite <- Ep. apply strip_chars_idem.
Qed.

Lemma raw_parts_grows (t : str) (e : nat) (parts : list str) : forall (pos : nat) (d : detector),
  grows (adds ["RAW_TEXT"%string] ["RAW_TEXT"%string]) d
        (snd (fold_left (raw_part t e) parts (pos, d))).
Proof.
  induction parts as [|p parts IH]; intros pos d; cbn [fold_left]; [constructor|].
  pose proof (raw_part_grows t e pos d p) as H1.
  destruct (raw_part t e (pos, d) p) as [pos' d'] eqn:E. simpl in H1.
  eapply grows_trans; [exact H1|]. apply IH.
Qed.

Lemma detect_raw_text_grows (t : str) (d : detector) :
  grows (adds ["RAW_TEXT"%string] ["RAW_TEXT"%string]) d (detect_raw_text t d).
Proof.
  unfold detect_raw_text. apply grows_fold. intros d0 [s e]. unfold raw_span.
  destruct (20 <=? _); [|constructor]. apply raw_parts_grows.
Qed.

(** *** The stages of [run_all] *)

Lemma adds_weaken (fmts g fmts' g' : list string) (d : detector) (b : DetectedBlock) :
  incl fmts fmts' -> (forall f, In f fmts -> In f g' -> In f g) ->
  adds fmts g d b -> adds fmts' g' d b.
Proof.
  intros Hi Hg (Hf & Ho & Hfacts). split; [auto|]. split; [|assumption].
  intros H. apply Ho. now apply Hg.
Qed.

Lemma grows_adds_weaken (fmts g fmts' g' : list string) (d d' : detector) :
  incl fmts fmts' -> (forall f, In f fmts -> In f g' -> In f g) ->
  grows (adds fmts g) d d' -> grows (adds fmts' g') d d'.
Proof. intros Hi Hg. apply grows_weaken. intros d0 b. now apply adds_weaken. Qed.

Ltac fmts_sub :=
  let f := fresh "f" in let Hf := fresh in
  intros f Hf; simpl in *; intuition (try discriminate; subst; auto).
Ltac guard_sub :=
  let f := fresh "f" in let H1 := fresh in let H2 := fresh in
  intros f H1 H2; simpl in *;
  repeat match goal with H : _ \/ _ |- _ => destruct H end;
  subst; try contradiction; try discriminate; auto 10.

Lemma early_reserving (f : string) : In f early_formats -> In f reserving.
Proof. simpl. intuition. Qed.

Lemma ForallOrdPairs_same (fmts : list string) (l : list DetectedBlock) :
  ForallOrdPairs (fun k b => In (format_type k) reserving ->
                             In (format_type b) fmts -> disjoint_spans b k) l ->
  Forall (fun b => In (format_type b) reserving /\ In (format_type b) fmts) l ->
  ForallOrdPairs (fun k b => disjoint_spans b k) l.
Proof.
  induction 1 as [|k l Hk Hl IH]; intros HF; [constructor|].
  inversion HF as [|? ? [Hr Hf] HF']; subst. constructor; [|auto].
  rewrite Forall_forall in *. intros b Hb. apply Hk; [assumption..|]. now apply HF'.
Qed.

(** The four stages of [run_all]: the blocks each appends, and what they
    avoid. *)
Lemma run_all_stages (t : str) :
  exists A T H L,
    run_all t = Some (_dedupe_prioritize (sorted_by start_le (A ++ T ++ H ++ L))) /\
    Forall (fun b => In (format_type b) early_formats /\ block_facts b) A /\
    Forall (fun b => format_type b = "HTML_TABLE"%string /\ block_facts b /\
                     forall k, In k A -> disjoint_spans b k) T /\
    Forall (fun b => format_type b = "HTML"%string /\ block_facts b /\
                     forall k, In k (A ++ T) -> disjoint_spans b k) H /\
    Forall (fun b => In (format_type b) low_formats /\ block_facts b /\
                     (In (format_type b) low_guarded ->
                      forall k, In k (A ++ T ++ H) -> disjoint_spans b k)) L /\
    ForallOrdPairs (fun k b => disjoint_spans b k) T /\
    ForallOrdPairs (fun k b => disjoint_spans b k) H.
Proof.
  unfold run_all.
  set (d0 := detect_sectioned_jsons t (detect_yaml_frontmatter t (detect_json_ld t init_detector))).
  destruct (detect_jsons_global_ext t d0) as (dA & EA & _). rewrite EA.
  set (dT := detect_html_tables t dA).
  set (dH := detect_html_blocks t dT).
  destruct (later_detectors t dA) as (d3 & d4 & E3 & E4 & _).
  unfold detect_html_tables_and_blocks in *. fold dT in E3 |- *. fold dH in E3 |- *.
  rewrite E3, E4.
  (* stage A *)
  assert (GA : grows (adds early_formats []) init_detector dA).
  { eapply grows_trans; [eapply grows_adds_weaken; [| |apply detect_json_ld_grows]|];
      [fmts_sub|guard_sub|].
    eapply grows_trans; [eapply grows_adds_weaken; [| |apply detect_yaml_frontmatter_grows]|];
      [fmts_sub|guard_sub|].
    eapply grows_trans; [eapply grows_adds_weaken; [| |apply detect_sectioned_jsons_grows]|];
      [fmts_sub|guard_sub|]. fold d0.
    eapply grows_adds_weaken; [| |eapply jsons_global_loop_grows; exact EA];
      [fmts_sub|guard_sub]. }
  assert (T0 : reserved_tracked init_detector) by (intros k []).
  destruct (grows_stage _ _ _ _ T0 GA) as (TA & A & HA & FA & _). simpl in HA.
  (* stage T *)
  destruct (grows_stage _ _ _ _ TA (detect_html_tables_grows t dA)) as (TT & T & HT & FT & PT).
  fold dT in TT, HT.
  (* stage H *)
  destruct (grows_stage _ _ _ _ TT (detect_html_blocks_grows t dT)) as (TH & H & HH & FH & PH).
  fold dH in TH, HH.
  (* stage L *)
  assert (GL : grows (adds low_formats low_guarded) dH (detect_raw_text t (detect_sql t d4))).
  { eapply grows_trans; [eapply grows_adds_weaken; [| |apply detect_js_objects_grows]|];
      [fmts_sub|guard_sub|].
    eapply grows_trans; [eapply grows_adds_weaken; [| |eapply csv_loop_grows; exact E3]|];
      [fmts_sub|guard_sub|].
    eapply grows_trans; [eapply grows_adds_weaken; [| |eapply kv_loop_grows; exact E4]|];
      [fmts_sub|guard_sub|].
    eapply grows_trans; [eapply grows_adds_weaken; [| |apply detect_sql_grows]|];
      [fmts_sub|guard_sub|].
    eapply grows_adds_weaken; [| |apply detect_raw_text_grows]; [fmts_sub|guard_sub]. }
  destruct (grows_stage _ _ _ _ TH GL) as (_ & L & HL & FL & _).
  exists A, T, H, L.
  assert (RA : forall k, In k A -> In (format_type k) reserving).
  { intros k Hk. rewrite Forall_forall in FA. apply early_reserving. now apply FA. }
  assert (RT : forall k, In k T -> In (format_type k) reserving).
  { intros k Hk. rewrite Forall_forall in FT. destruct (FT k Hk) as ([<-|[]] & _). simpl. auto 10. }
  assert (RH : forall k, In k H -> In (format_type k) reserving).
  { intros k Hk. rewrite Forall_forall in FH. destruct (FH k Hk) as ([<-|[]] & _). simpl. auto 10. }
  split; [rewrite HL, HH, HT, HA; now rewrite <- !app_assoc|].
  split; [eapply Forall_impl; [|exact FA]; simpl; tauto|].
  split; [|split; [|split; [|split]]].
  - eapply Forall_impl; [|exact FT]. intros b (Hf & Hfacts & Hd).
    destruct Hf as [Hf|[]]. split; [now symmetry|]. split; [assumption|].
    intros k Hk. apply Hd; [now left|rewrite HA; exact Hk|now apply RA].
  - eapply Forall_impl; [|exact FH]. intros b (Hf & Hfacts & Hd).
    destruct Hf as [Hf|[]]. split; [now symmetry|]. split; [assumption|].
    intros k Hk. apply Hd; [now left|rewrite HT, HA; exact Hk|].
    apply in_app_or in Hk. destruct Hk; auto.
  - eapply Forall_impl; [|exact FL]. intros b (Hf & Hfacts & Hd).
    split; [assumption|]. split; [assumption|].
    intros Hg k Hk. apply Hd; [assumption|rewrite HH, HT, HA; now rewrite <- app_assoc|].
    apply in_app_or in Hk. destruct Hk as [Hk|Hk]; [auto|].
    apply in_app_or in Hk. destruct Hk; auto.
  - eapply ForallOrdPairs_same; [exact PT|].
    eapply Forall_impl; [|exact FT]. intros b ([<-|[]] & _). simpl. auto 10.
  - eapply ForallOrdPairs_same; [exact PH|].
    eapply Forall_impl; [|exact FH]. intros b ([<-|[]] & _). simpl. auto 10.
Qed.

Lemma conf_ok_clamp (x : DetectedBlock) : conf_ok x -> conf_ok (clamp_block x).
Proof.
  unfold conf_ok. cbn [format_type confidence clamp_block].
  destruct (String.eqb (format_type x) "HTML").
  - intros [H1 H2]. rewrite clamp_conf_fixed; [auto| |].
    + eapply Qle_trans; [|exact H1]. discriminate.
    + eapply Qle_trans; [exact H2|]. discriminate.
  - unfold assigned_confidences.
    repeat (destruct (String.eqb (format_type x) _);
            [simpl; intros H;
             repeat (destruct H as [<-|H]; [repeat first [left; reflexivity | right]|]);
             destruct H|]).
    intros [].
Qed.

Lemma block_facts_clamp (x : DetectedBlock) : block_facts x -> block_facts (clamp_block x).
Proof.
  intros [H1 H2 H3 H4 H5 H6 H7]. constructor; auto. now apply conf_ok_clamp.
Qed.

(** Every returned fragment is a block one of the stages added. *)
Lemma fragments_staged (t : str) :
  exists A T H L,
    Forall (fun b => In (format_type b) early_formats /\ block_facts b) A /\
    Forall (fun b => format_type b = "HTML_TABLE"%string /\ block_facts b /\
                     forall k, In k A -> disjoint_spans b k) T /\
    Forall (fun b => format_type b = "HTML"%string /\ block_facts b /\
                     forall k, In k (A ++ T) -> disjoint_spans b k) H /\
    Forall (fun b => In (format_type b) low_formats /\ block_facts b /\
                     (In (format_type b) low_guarded ->
                      forall k, In k (A ++ T ++ H) -> disjoint_spans b k)) L /\
    ForallOrdPairs (fun k b => disjoint_spans b k) T /\
    ForallOrdPairs (fun k b => disjoint_spans b k) H /\
    forall r, parse_file t = Some r ->
      forall b, In b (fragments r) ->
        exists x, b = clamp_block x /\ In x (A ++ T ++ H ++ L).
Proof.
  destruct (run_all_stages t) as (A & T & H & L & Hr & FA & FT & FH & FL & PT & PH).
  exists A, T, H, L. repeat (split; [assumption|]).
  intros r Hp b Hb. unfold parse_file in Hp. rewrite Hr in Hp. injection Hp as <-.
  simpl in Hb. apply dedupe_sub in Hb. destruct Hb as (x & -> & Hx).
  exists x. split; [reflexivity|]. now apply sorted_by_In in Hx.
Qed.

Lemma fragment_facts (t : str) (r : result) (b : DetectedBlock) :
  parse_file t = Some r -> In b (fragments r) -> block_facts b.
Proof.
  intros Hr Hb.
  destruct (fragments_staged t) as (A & T & H & L & FA & FT & FH & FL & PT & PH & Hall).
  destruct (Hall r Hr b Hb) as (x & -> & Hx). apply block_facts_clamp.
  rewrite Forall_forall in FA, FT, FH, FL.
  apply in_app_or in Hx. destruct Hx as [Hx|Hx]; [now apply FA|].
  apply in_app_or in Hx. destruct Hx as [Hx|Hx]; [now apply FT|].
  apply in_app_or in Hx. destruct Hx as [Hx|Hx]; [now apply FH|now apply FL].
Qed.

Lemma disjoint_spans_sym (b k : DetectedBlock) : disjoint_spans b k -> disjoint_spans k b.
Proof. unfold disjoint_spans. tauto. Qed.

Lemma staged_disjoint (t : str) (r : result) (b k : DetectedBlock) :
  parse_file t = Some r -> In b (fragments r) -> In k (fragments r) ->
  (In (format_type b) low_guarded /\ In (format_type k) reserving) \/
  (format_type b = "HTML"%string /\ In (format_type k) ("HTML_TABLE"%string :: early_formats)) \/
  (format_type b = "HTML_TABLE"%string /\ In (format_type k) early_formats) ->
  disjoint_spans b k.
Proof.
  intros Hr Hb Hk Hcase.
  destruct (fragments_staged t) as (A & T & H & L & FA & FT & FH & FL & PT & PH & Hall).
  destruct (Hall r Hr b Hb) as (x & -> & Hx).
  destruct (Hall r Hr k Hk) as (y & -> & Hy).
  change (disjoint_spans x y). cbn [format_type clamp_block] in Hcase.
  rewrite Forall_forall in FA, FT, FH, FL.
  assert (FA' : forall z, In z A -> In (format_type z) early_formats) by (intros; now apply FA).
  assert (FT' : forall z, In z T -> format_type z = "HTML_TABLE"%string) by (intros; now apply FT).
  assert (FH' : forall z, In z H -> format_type z = "HTML"%string) by (intros; now apply FH).
  assert (FL' : forall z, In z L -> In (format_type z) low_formats) by (intros; now apply FL).
  assert (where_x : In x A \/ In x T \/ In x H \/ In x L).
  { apply in_app_or in Hx. destruct Hx as [Hx|Hx]; [auto|].
    apply in_app_or in Hx. destruct Hx as [Hx|Hx]; [auto|].
    apply in_app_or in Hx. tauto. }
  assert (where_y : In y A \/ In y T \/ In y H \/ In y L).
  { apply in_app_or in Hy. destruct Hy as [Hy|Hy]; [auto|].
    apply in_app_or in Hy. destruct Hy as [Hy|Hy]; [auto|].
    apply in_app_or in Hy. tauto. }
  assert (clash : forall (f : string) (l1 l2 : list string),
             In f l1 -> In f l2 ->
             forallb (fun a => negb (existsb (String.eqb a) l2)) l1 = true -> False).
  { intros f l1 l2 H1 H2 Hc. rewrite forallb_forall in Hc. specialize (Hc f H1).
    apply negb_true_iff in Hc.
    assert (existsb (String.eqb f) l2 = true)
      by (apply existsb_exists; exists f; split; [assumption|apply String.eqb_refl]).
    congruence. }
  destruct Hcase as [[Hfb Hfk]|[[Hfb Hfk]|[Hfb Hfk]]].
  - (* b low and guarded, k reserving *)
    destruct where_x as [Hx'|[Hx'|[Hx'|Hx']]].
    + exfalso. apply (clash _ _ _ Hfb (FA' _ Hx')). reflexivity.
    + exfalso. rewrite (FT' _ Hx') in Hfb. simpl in Hfb. intuition discriminate.
    + exfalso. rewrite (FH' _ Hx') in Hfb. simpl in Hfb. intuition discriminate.
    + destruct (FL x Hx') as (_ & _ & Hd). apply (Hd Hfb). rewrite !in_app_iff.
      destruct where_y as [Hy'|[Hy'|[Hy'|Hy']]]; [tauto|tauto|tauto|].
      exfalso. apply (clash _ _ _ Hfk (FL' _ Hy')). reflexivity.
  - (* b HTML, k a table or an early block *)
    destruct where_x as [Hx'|[Hx'|[Hx'|Hx']]].
    + exfalso. pose proof (FA' _ Hx') as E. rewrite Hfb in E. simpl in E. intuition discriminate.
    + exfalso. rewrite (FT' _ Hx') in Hfb. discriminate.
    + destruct (FH x Hx') as (_ & _ & Hd). apply Hd. rewrite in_app_iff.
      destruct where_y as [Hy'|[Hy'|[Hy'|Hy']]]; [tauto|tauto| |].
      * exfalso. rewrite (FH' _ Hy') in Hfk. simpl in Hfk. intuition discriminate.
      * exfalso. apply (clash _ _ _ Hfk (FL' _ Hy')). reflexivity.
    + exfalso. pose proof (FL' _ Hx') as E. rewrite Hfb in E. simpl in E. intuition discriminate.
  - (* b a table, k an early block *)
    destruct where_x as [Hx'|[Hx'|[Hx'|Hx']]].
    + exfalso. pose proof (FA' _ Hx') as E. rewrite Hfb in E. simpl in E. intuition discriminate.
    + destruct (FT x Hx') as (_ & _ & Hd). apply Hd.
      destruct where_y as [Hy'|[Hy'|[Hy'|Hy']]]; [assumption| | |].
      * exfalso. rewrite (FT' _ Hy') in Hfk. simpl in Hfk. intuition discriminate.
      * exfalso. rewrite (FH' _ Hy') in Hfk. simpl in Hfk. intuition discriminate.
      * exfalso. apply (clash _ _ _ Hfk (FL' _ Hy')). reflexivity.
    + exfalso. rewrite (FH' _ Hx') in Hfb. discriminate.
    + exfalso. pose proof (FL' _ Hx') as E. rewrite Hfb in E. simpl in E. intuition discriminate.
Qed.

Lemma staged_same_format (t : str) (r : result) (b k : DetectedBlock) :
  parse_file t = Some r -> In b (fragments r) -> In k (fragments r) -> b <> k ->
  (format_type b = "HTML_TABLE"%string /\ format_type k = "HTML_TABLE"%string) \/
  (format_type b = "HTML"%string /\ format_type k = "HTML"%string) ->
  disjoint_spans b k.
Proof.
  intros Hr Hb Hk Hne Hcase.
  destruct (fragments_staged t) as (A & T & H & L & FA & FT & FH & FL & PT & PH & Hall).
  destruct (Hall r Hr b Hb) as (x & -> & Hx).
  destruct (Hall r Hr k Hk) as (y & -> & Hy).
  change (disjoint_spans x y). cbn [format_type clamp_block] in Hcase.
  assert (Hxy : x <> y) by congruence.
  rewrite Forall_forall in FA, FT, FH, FL.
  assert (where_is : forall z, In z (A ++ T ++ H ++ L) ->
            (In z A /\ In (format_type z) early_formats) \/
            (In z T /\ format_type z = "HTML_TABLE"%string) \/
            (In z H /\ format_type z = "HTML"%string) \/
            (In z L /\ In (format_type z) low_formats)).
  { intros z Hz. rewrite !in_app_iff in Hz.
    destruct Hz as [Hz|[Hz|[Hz|Hz]]];
      [left|right; left|right; right; left|right; right; right];
      (split; [assumption|]); [apply FA|apply FT|apply FH|apply FL]; assumption. }
  assert (Hin : (In x T /\ In y T) \/ (In x H /\ In y H)).
  { destruct Hcase as [[Ex Ey]|[Ex Ey]];
      destruct (where_is x Hx) as [[Hx' Fx]|[[Hx' Fx]|[[Hx' Fx]|[Hx' Fx]]]];
      destruct (where_is y Hy) as [[Hy' Fy]|[[Hy' Fy]|[[Hy' Fy]|[Hy' Fy]]]];
      rewrite ?Ex in Fx; rewrite ?Ey in Fy; simpl in Fx, Fy;
      try (exfalso; intuition discriminate); auto. }
  destruct Hin as [[Hx' Hy']|[Hx' Hy']].
  - destruct (ForallOrdPairs_In PT x y Hx' Hy') as [E|[Hd|Hd]];
      [contradiction|now apply disjoint_spans_sym|assumption].
  - destruct (ForallOrdPairs_In PH x y Hx' Hy') as [E|[Hd|Hd]];
      [contradiction|now apply disjoint_spans_sym|assumption].
Qed.

(** *** Properties of the returned fragments *)

(** X8. A returned fragment of type CSV, CSV_NO_HEADER, KEY_VALUE, SQL or
    RAW_TEXT never overlaps a returned fragment of a reserving type (JSON_LD,
    JSON, MALFORMED_JSON, HTML_TABLE, HTML, YAML_FRONTMATTER). *)
Theorem low_priority_avoids_reserved (t : str) (r : result) (b k : DetectedBlock) :
  parse_file t = Some r -> In b (fragments r) -> In k (fragments r) ->
  In (format_type b) low_guarded -> In (format_type k) reserving ->
  disjoint_spans b k.
Proof.
  intros Hr Hb Hk Hfb Hfk. apply (staged_disjoint t r b k Hr Hb Hk). now left.
Qed.

(** X8 at an object followed by a paragraph of prose. *)
Lemma low_priority_avoids_reserved_witness :
  exists r b k,
    parse_file json_then_prose = Some r /\ In b (fragments r) /\ In k (fragments r) /\
    format_type b = "RAW_TEXT"%string /\ format_type k = "JSON"%string /\
    disjoint_spans b k.
Proof.
  destruct (parse_file json_then_prose) as [r|] eqn:Hr; [|vm_compute in Hr; discriminate].
  pose proof Hr as E. vm_compute in E. injection E as E.
  exists r, (nth 1 (fragments r) no_block), (nth 0 (fragments r) no_block).
  assert (Hb : In (nth 1 (fragments r) no_block) (fragments r)) by (subst r; simpl; auto).
  assert (Hk : In (nth 0 (fragments r) no_block) (fragments r)) by (subst r; simpl; auto).
  assert (Hfb : format_type (nth 1 (fragments r) no_block) = "RAW_TEXT"%string)
    by (subst r; reflexivity).
  assert (Hfk : format_type (nth 0 (fragments r) no_block) = "JSON"%string)
    by (subst r; reflexivity).
  split; [reflexivity|]. split; [exact Hb|]. split; [exact Hk|].
  split; [exact Hfb|]. split; [exact Hfk|].
  apply (low_priority_avoids_reserved json_then_prose r _ _ Hr Hb Hk).
  - rewrite Hfb. simpl. auto 10.
  - rewrite Hfk. simpl. auto 10.
Defined.

(** X9. A returned HTML fragment never overlaps a returned HTML_TABLE,
    JSON_LD, YAML_FRONTMATTER, JSON or MALFORMED_JSON fragment, and a
    returned HTML_TABLE fragment never overlaps one of the latter four: a
    generic block that encloses a table is not reported. *)
Theorem markup_avoids_earlier_stages (t : str) (r : result) (b k : DetectedBlock) :
  parse_file t = Some r -> In b (fragments r) -> In k (fragments r) ->
  (format_type b = "HTML"%string /\ In (format_type k) ("HTML_TABLE"%string :: early_formats)) \/
  (format_type b = "HTML_TABLE"%string /\ In (format_type k) early_formats) ->
  disjoint_spans b k.
Proof.
  intros Hr Hb Hk Hc. apply (staged_disjoint t r b k Hr Hb Hk). now right.
Qed.

(** X9 at a generic block followed by a table. *)
Lemma markup_avoids_earlier_stages_witness :
  exists r b k,
    parse_file block_then_table = Some r /\ In b (fragments r) /\ In k (fragments r) /\
    format_type b = "HTML"%string /\ format_type k = "HTML_TABLE"%string /\
    disjoint_spans b k.
Proof.
  destruct (parse_file block_then_table) as [r|] eqn:Hr; [|vm_compute in Hr; discriminate].
  pose proof Hr as E. vm_compute in E. injection E as E.
  exists r, (nth 0 (fragments r) no_block), (nth 1 (fragments r) no_block).
  assert (Hb : In (nth 0 (fragments r) no_block) (fragments r)) by (subst r; simpl; auto).
  assert (Hk : In (nth 1 (fragments r) no_block) (fragments r)) by (subst r; simpl; auto).
  assert (Hfb : format_type (nth 0 (fragments r) no_block) = "HTML"%string)
    by (subst r; reflexivity).
  assert (Hfk : format_type (nth 1 (fragments r) no_block) = "HTML_TABLE"%string)
    by (subst r; reflexivity).
  split; [reflexivity|]. split; [exact Hb|]. split; [exact Hk|].
  split; [exact Hfb|]. split; [exact Hfk|].
  apply (markup_avoids_earlier_stages block_then_table r _ _ Hr Hb Hk).
  left. split; [exact Hfb|]. rewrite Hfk. now left.
Defined.

(** X10. The confidence of a returned fragment is one of the constants the
    detector of its format assigns (0.35 for RAW_TEXT, 0.98 or 0.99 for JSON,
    ...), and lies between 0.5 and 0.9 for HTML. *)
Theorem confidence_by_format (t : str) (r : result) (b : DetectedBlock) :
  parse_file t = Some r -> In b (fragments r) -> conf_ok b.
Proof. intros Hr Hb. apply (fragment_facts t r b Hr Hb). Qed.

(** X10 at the HTML fragment of a generic block followed by a table. *)
Lemma confidence_by_format_witness :
  exists r b,
    parse_file block_then_table = Some r /\ In b (fragments r) /\
    format_type b = "HTML"%string /\ conf_ok b.
Proof.
  destruct (parse_file block_then_table) as [r|] eqn:Hr; [|vm_compute in Hr; discriminate].
  pose proof Hr as E. vm_compute in E. injection E as E.
  exists r, (nth 0 (fragments r) no_block).
  assert (Hb : In (nth 0 (fragments r) no_block) (fragments r)) by (subst r; simpl; auto).
  split; [reflexivity|]. split; [exact Hb|]. split; [subst r; reflexivity|].
  exact (confidence_by_format block_then_table r _ Hr Hb).
Defined.

(** X11. Every returned fragment of type JSON normalizes to a JSON object,
    and the records list holds its entry. *)
Theorem json_fragment_has_object_record (t : str) (r : result) (b : DetectedBlock) :
  parse_file t = Some r -> In b (fragments r) -> format_type b = "JSON"%string ->
  exists fields, normalize b = Some (JObj fields) /\
                 In (record_of b (JObj fields)) (records r).
Proof.
  intros Hr Hb Hf.
  destruct (bf_json b (fragment_facts t r b Hr Hb) Hf) as (fields & Hv).
  exists fields.
  assert (Hn : normalize b = Some (JObj fields)).
  { unfold normalize. rewrite Hf.
    change (is_type "JSON" "JSON" || is_type "JSON" "JSON_LD") with true. cbv iota.
    now rewrite Hv. }
  split; [exact Hn|].
  rewrite (records_of_fragments t r Hr). apply in_flat_map. exists b.
  split; [assumption|]. rewrite Hn. now left.
Qed.

(** X11 at an object followed by a paragraph of prose. *)
Lemma json_fragment_has_object_record_witness :
  exists r b,
    parse_file json_then_prose = Some r /\ In b (fragments r) /\
    format_type b = "JSON"%string /\
    exists fields, normalize b = Some (JObj fields) /\
                   In (record_of b (JObj fields)) (records r).
Proof.
  destruct (parse_file json_then_prose) as [r|] eqn:Hr; [|vm_compute in Hr; discriminate].
  pose proof Hr as E. vm_compute in E. injection E as E.
  exists r, (nth 0 (fragments r) no_block).
  assert (Hb : In (nth 0 (fragments r) no_block) (fragments r)) by (subst r; simpl; auto).
  assert (Hf : format_type (nth 0 (fragments r) no_block) = "JSON"%string)
    by (subst r; reflexivity).
  split; [reflexivity|]. split; [exact Hb|]. split; [exact Hf|].
  exact (json_fragment_has_object_record json_then_prose r _ Hr Hb Hf).
Defined.

(** X12. The text of a returned RAW_TEXT fragment is not empty and neither
    begins nor ends with whitespace. *)
Theorem raw_text_fragments_are_trimmed (t : str) (r : result) (b : DetectedBlock) :
  parse_file t = Some r -> In b (fragments r) -> format_type b = "RAW_TEXT"%string ->
  text b <> [] /\ strip (text b) = text b.
Proof. intros Hr Hb. apply (fragment_facts t r b Hr Hb). Qed.

(** X12 at an object followed by a paragraph of prose. *)
Lemma raw_text_fragments_are_trimmed_witness :
  exists r b,
    parse_file json_then_prose = Some r /\ In b (fragments r) /\
    format_type b = "RAW_TEXT"%string /\
    text b <> [] /\ strip (text b) = text b.
Proof.
  destruct (parse_file json_then_prose) as [r|] eqn:Hr; [|vm_compute in Hr; discriminate].
  pose proof Hr as E. vm_compute in E. injection E as E.
  exists r, (nth 1 (fragments r) no_block).
  assert (Hb : In (nth 1 (fragments r) no_block) (fragments r)) by (subst r; simpl; auto).
  assert (Hf : format_type (nth 1 (fragments r) no_block) = "RAW_TEXT"%string)
    by (subst r; reflexivity).
  split; [reflexivity|]. split; [exact Hb|]. split; [exact Hf|].
  exact (raw_text_fragments_are_trimmed json_then_prose r _ Hr Hb Hf).
Defined.

(** X13. A returned HTML fragment is longer than 20 characters; a CSV or
    CSV_NO_HEADER fragment reports 2 to 200 rows and one of the delimiters
    comma, tab, semicolon; a KEY_VALUE fragment reports at least 2 pairs; a
    fragment noted as unclosed spans at most 2000 characters. *)
Theorem fragment_size_guards (t : str) (r : result) (b : DetectedBlock) :
  parse_file t = Some r -> In b (fragments r) ->
  (format_type b = "HTML"%string -> 20 < end_index b - start_index b) /\
  (format_type b = "CSV"%string \/ format_type b = "CSV_NO_HEADER"%string ->
   exists cand n, meta b = [("delimiter"%string, MStr [cand]); ("rows"%string, MNat n)] /\
                  In cand [","%char; TAB; ";"%char] /\ 2 <= n <= 200) /\
  (format_type b = "KEY_VALUE"%string ->
   exists n, meta b = [("pairs"%string, MNat n)] /\ 2 <= n) /\
  (meta b = [("note"%string, MStr (lit "unclosed"))] ->
   end_index b - start_index b <= 2000).
Proof.
  intros Hr Hb. destruct (fragment_facts t r b Hr Hb) as [_ _ _ H4 H5 H6 H7]. auto.
Qed.

(** X13 at scenario C. *)
Lemma fragment_size_guards_witness :
  exists r b,
    parse_file two_csv_lines = Some r /\ In b (fragments r) /\
    format_type b = "CSV"%string /\
    meta b = [("delimiter"%string, MStr [","%char]); ("rows"%string, MNat 2)] /\
    ((format_type b = "HTML"%string -> 20 < end_index b - start_index b) /\
     (format_type b = "CSV"%string \/ format_type b = "CSV_NO_HEADER"%string ->
      exists cand n, meta b = [("delimiter"%string, MStr [cand]); ("rows"%string, MNat n)] /\
                     In cand [","%char; TAB; ";"%char] /\ 2 <= n <= 200) /\
     (format_type b = "KEY_VALUE"%string ->
      exists n, meta b = [("pairs"%string, MNat n)] /\ 2 <= n) /\
     (meta b = [("note"%string, MStr (lit "unclosed"))] ->
      end_index b - start_index b <= 2000)).
Proof.
  destruct (parse_file two_csv_lines) as [r|] eqn:Hr; [|vm_compute in Hr; discriminate].
  pose proof Hr as E. vm_compute in E. injection E as E.
  exists r, (nth 0 (fragments r) no_block).
  assert (Hb : In (nth 0 (fragments r) no_block) (fragments r)) by (subst r; simpl; auto).
  split; [reflexivity|]. split; [exact Hb|]. split; [subst r; reflexivity|].
  split; [subst r; reflexivity|].
  exact (fragment_size_guards two_csv_lines r _ Hr Hb).
Defined.

(** X14. The format of every returned fragment is one of the twelve of
    [FORMAT_PRIORITY]: the resolver's fallback priority for an unknown format
    is never used on the detectors' output. *)
Theorem fragments_have_known_format (t : str) (r : result) (b : DetectedBlock) :
  parse_file t = Some r -> In b (fragments r) ->
  In (format_type b) FORMAT_PRIORITY /\
  list_index (format_type b) FORMAT_PRIORITY = Some (prio b) /\
  prio b < List.length FORMAT_PRIORITY.
Proof.
  intros Hr Hb. destruct (fragments_emitted t r b Hr Hb) as (x & -> & (_ & Hf & _)).
  change (format_type (clamp_block x)) with (format_type x).
  change (prio (clamp_block x)) with (prio x).
  split; [exact Hf|]. unfold prio, priority_or_len. simpl in Hf.
  repeat (destruct Hf as [<-|Hf]; [split; [reflexivity|vm_compute; lia]|]). destruct Hf.
Qed.

(** X14 at scenario C. *)
Lemma fragments_have_known_format_witness :
  exists r b, parse_file two_csv_lines = Some r /\ In b (fragments r) /\
    In (format_type b) FORMAT_PRIORITY /\
    list_index (format_type b) FORMAT_PRIORITY = Some (prio b) /\
    prio b < List.length FORMAT_PRIORITY.
Proof.
  destruct (parse_file two_csv_lines) as [r|] eqn:Hr; [|vm_compute in Hr; discriminate].
  pose proof Hr as E. vm_compute in E. injection E as E.
  exists r, (nth 0 (fragments r) no_block).
  assert (Hb : In (nth 0 (fragments r) no_block) (fragments r)) by (subst r; simpl; auto).
  split; [reflexivity|]. split; [exact Hb|].
  exact (fragments_have_known_format two_csv_lines r _ Hr Hb).
Defined.

(** X15. Two different returned fragments of type HTML_TABLE never overlap, and
    neither do two different returned fragments of type HTML: of nested
    blocks only the first found is reported. *)
Theorem same_markup_fragments_disjoint (t : str) (r : result) (b k : DetectedBlock) :
  parse_file t = Some r -> In b (fragments r) -> In k (fragments r) -> b <> k ->
  (format_type b = "HTML_TABLE"%string /\ format_type k = "HTML_TABLE"%string) \/
  (format_type b = "HTML"%string /\ format_type k = "HTML"%string) ->
  disjoint_spans b k.
Proof. apply staged_same_format. Qed.

(** X15 at two tables, one after the other. *)
Lemma same_markup_fragments_disjoint_witness :
  exists r b k,
    parse_file two_tables = Some r /\ In b (fragments r) /\ In k (fragments r) /\ b <> k /\
    format_type b = "HTML_TABLE"%string /\ format_type k = "HTML_TABLE"%string /\
    disjoint_spans b k.
Proof.
  destruct (parse_file two_tables) as [r|] eqn:Hr; [|vm_compute in Hr; discriminate].
  pose proof Hr as E. vm_compute in E. injection E as E.
  exists r, (nth 0 (fragments r) no_block), (nth 1 (fragments r) no_block).
  assert (Hb : In (nth 0 (fragments r) no_block) (fragments r)) by (subst r; simpl; auto).
  assert (Hk : In (nth 1 (fragments r) no_block) (fragments r)) by (subst r; simpl; auto).
  assert (Hne : nth 0 (fragments r) no_block <> nth 1 (fragments r) no_block)
    by (subst r; simpl; discriminate).
  assert (Hfb : format_type (nth 0 (fragments r) no_block) = "HTML_TABLE"%string)
    by (subst r; reflexivity).
  assert (Hfk : format_type (nth 1 (fragments r) no_block) = "HTML_TABLE"%string)
    by (subst r; reflexivity).
  split; [reflexivity|]. split; [exact Hb|]. split; [exact Hk|]. split; [exact Hne|].
  split; [exact Hfb|]. split; [exact Hfk|].
  apply (same_markup_fragments_disjoint two_tables r _ _ Hr Hb Hk Hne). left. now split.
Defined.

(** ** Stability of the span finder *)

Lemma first_brace_at_unique (t : str) (p p' s s' : nat) :
  first_brace_at t p s -> first_brace_at t p' s' -> p <= p' -> p' <= s -> s' = s.
Proof.
  intros (H1 & H2 & H3) (H1' & H2' & H3') Hp Hs.
  destruct (Nat.lt_trichotomy s s') as [H|[H|H]]; [|auto|].
  - exfalso. apply (H3' s); [lia|assumption].
  - exfalso. apply (H3 s'); [lia|assumption].
Qed.

Lemma closes_at_unique (t : str) (s e e' : nat) :
  closes_at t s e -> closes_at t s e' -> e = e'.
Proof.
  intros (H1 & H2 & _ & _ & H5 & H6) (H1' & H2' & _ & _ & H5' & H6').
  destruct (Nat.lt_trichotomy e e') as [H|[H|H]]; [|auto|].
  - specialize (H6' e). lia.
  - specialize (H6 e'). lia.
Qed.

(** X16. A span that [find_json_span] finds from [p] within [m] characters is
    found again from any offset between [p] and its opening brace, and within
    any larger window. *)
Theorem find_json_span_stable (t : str) (p m s e p' m' : nat) :
  find_json_span t p m = Some (s, e) ->
  p <= p' -> p' <= s -> m <= m' ->
  find_json_span t p' m' = Some (s, e).
Proof.
  intros H Hp Hs Hm.
  pose proof (find_json_span_cases t p m) as H1. rewrite H in H1.
  destruct H1 as (Hfb & Hcl & Hw).
  pose proof (find_json_span_cases t p' m') as H2.
  destruct (find_json_span t p' m') as [[s' e']|].
  - destruct H2 as (Hfb' & Hcl' & _).
    assert (s' = s) by (eapply first_brace_at_unique; eassumption). subst s'.
    assert (e' = e) by (eapply closes_at_unique; eassumption). now subst e'.
  - exfalso. destruct H2 as [H2|(s' & Hfb' & H2)].
    + destruct Hfb as (_ & Hb & _). apply (H2 s); [lia|assumption].
    + assert (s' = s) by (eapply first_brace_at_unique; eassumption). subst s'.
      destruct Hcl as (Hse & Hel & _ & _ & Hz & _).
      specialize (H2 e Hse Hel). lia.
Qed.

(** X16 at scenario A: the window of 20 characters and the default one. *)
Lemma find_json_span_stable_witness :
  find_json_span scenario_a 0 20 = Some (0, 16) /\
  find_json_span scenario_a 0 default_max_len = Some (0, 16).
Proof.
  assert (H : find_json_span scenario_a 0 20 = Some (0, 16)) by reflexivity.
  split; [exact H|].
  apply (find_json_span_stable scenario_a 0 20 0 16 0 default_max_len H);
    [lia|lia|unfold default_max_len; lia].
Defined.

(** ** The normalizer and its helpers *)

Lemma normalize_other (b : DetectedBlock) :
  ~ In (format_type b) normalized_formats -> normalize b = None.
Proof.
  intros H. unfold normalize, is_type.
  repeat match goal with
  | |- context [String.eqb (format_type b) ?s] =>
      let E := fresh "E" in
      destruct (String.eqb (format_type b) s) eqn:E;
      [apply String.eqb_eq in E; exfalso; apply H; rewrite E; simpl; tauto|]
  end.
  reflexivity.
Qed.


(** X17. The format of every record is one the normalizer has a branch for
    (never RAW_TEXT, HTML or YAML_FRONTMATTER), and every SQL or KEY_VALUE
    fragment has a record whose data is a mapping. *)
Theorem records_formats (t : str) :
  exists r, parse_file t = Some r /\
    (forall rec, In rec (records r) -> In (r_format rec) normalized_formats) /\
    (forall b, In b (fragments r) ->
       format_type b = "SQL"%string \/ format_type b = "KEY_VALUE"%string ->
       exists v, is_object v /\ In (record_of b v) (records r)).
Proof.
  destruct (parse_file_total t) as (r & Hr). exists r. split; [assumption|].
  rewrite (records_of_fragments t r Hr). split.
  - intros rec Hrec. apply in_flat_map in Hrec. destruct Hrec as (b & Hb & Hrec).
    destruct (normalize b) as [v|] eqn:Hv; [|destruct Hrec].
    destruct Hrec as [<-|[]]. simpl.
    destruct (in_dec string_dec (format_type b) normalized_formats) as [Hi|Hn]; [assumption|].
    rewrite (normalize_other b Hn) in Hv. discriminate.
  - intros b Hb [Hf|Hf].
    + exists (JObj [(ustr_of (lit "sql"), JStr (ustr_of (strip (text b))))]).
      split; [exact I|]. apply in_flat_map. exists b. split; [assumption|].
      unfold normalize. rewrite Hf. now left.
    + exists (JObj (_parse_kv (strip (text b)))).
      split; [exact I|]. apply in_flat_map. exists b. split; [assumption|].
      unfold normalize. rewrite Hf. now left.
Qed.

(** *** Rows of tables *)

Lemma rows_to_records_nonempty (rows : list (list str)) (synthetic : bool) :
  match rows_to_records rows synthetic with
  | None => rows = []
  | Some v => exists row more, v = JArr (row :: more) /\ Forall is_object (row :: more)
  end.
Proof.
  unfold rows_to_records. destruct rows as [|first others]; [reflexivity|].
  destruct (synthetic || _) eqn:E.
  - simpl map. eexists. eexists. split; [reflexivity|].
    constructor; [exact I|]. apply Forall_map. apply Forall_forall. intros; exact I.
  - destruct others as [|o others].
    + simpl in E. rewrite orb_true_r in E. discriminate.
    + simpl map. eexists. eexists. split; [reflexivity|].
      constructor; [exact I|]. apply Forall_map. apply Forall_forall. intros; exact I.
Qed.

(** X18. [_html_table_to_rows] and [_safe_parse_csv] return [None] rather
    than an empty list: a result is a non-empty list of mappings. *)
Theorem table_normalizers_never_return_empty (s : str) (no_header : bool) :
  (forall v, _html_table_to_rows s = Some v ->
     exists row more, v = JArr (row :: more) /\ Forall is_object (row :: more)) /\
  (forall v, _safe_parse_csv s no_header = Some v ->
     exists row more, v = JArr (row :: more) /\ Forall is_object (row :: more)).
Proof.
  split.
  - intros v. unfold _html_table_to_rows.
    destruct (Bs4.soup_find _ _) as [table|]; [|discriminate].
    set (headers := match Bs4.find "thead" table with
                    | Some thead => _ | None => [] end).
    match goal with |- context [fold_left ?f ?l []] =>
      assert (HF : forall acc, Forall is_object acc -> Forall is_object (fold_left f l acc)) end.
    { intros acc. generalize (Bs4.find_all ["tr"%string] table).
      intros l. revert acc. induction l as [|tr l IH]; intros acc Ha; simpl; [assumption|].
      apply IH. destruct headers as [|h hs].
      - destruct (map Bs4.get_text_strip _) as [|c cs]; [assumption|].
        apply Forall_app. split; [assumption|]. constructor; [exact I|constructor].
      - destruct (_ =? _); [|assumption].
        apply Forall_app. split; [assumption|]. constructor; [exact I|constructor]. }
    specialize (HF [] (Forall_nil _)).
    destruct (fold_left _ _ []) as [|row more]; [discriminate|].
    intros H. injection H as <-. eauto.
  - intros v. unfold _safe_parse_csv.
    destruct (Csv.read_rows s) as [rows|]; intros H.
    + pose proof (rows_to_records_nonempty rows no_header) as Hn. rewrite H in Hn. exact Hn.
    + match type of H with rows_to_records ?rows ?b = _ =>
        pose proof (rows_to_records_nonempty rows b) as Hn end.
      rewrite H in Hn. exact Hn.
Qed.

(** *** Key-value helpers *)

Lemma ustr_eqb_eq (a b : ustr) : ustr_eqb a b = true -> a = b.
Proof.
  revert b. induction a as [|x a IH]; intros [|y b] H; simpl in H; try discriminate;
    [reflexivity|].
  apply andb_true_iff in H. destruct H as [H1 H2]. apply N.eqb_eq in H1.
  f_equal; auto.
Qed.

Lemma dict_set_Forall {A : Type} (P : ustr * A -> Prop) (k : ustr) (v : A)
    (d : list (ustr * A)) :
  Forall P d -> P (k, v) -> Forall P (dict_set k v d).
Proof.
  intros Hd Hkv. induction Hd as [|[k' v'] d Hx Hd IH]; simpl.
  - constructor; [assumption|constructor].
  - destruct (ustr_eqb k k') eqn:E.
    + apply ustr_eqb_eq in E. subst k'. constructor; assumption.
    + constructor; assumption.
Qed.

Lemma dropwhile_incl (p : ascii -> bool) (s : str) (c : ascii) :
  In c (dropwhile p s) -> In c s.
Proof.
  induction s as [|x s IH]; simpl; [auto|]. destruct (p x); [auto|]. auto.
Qed.

Lemma strip_chars_incl (p : ascii -> bool) (s : str) (c : ascii) :
  In c (strip_chars p s) -> In c s.
Proof.
  unfold strip_chars. intros H. apply in_rev in H. apply dropwhile_incl in H.
  apply in_rev in H. now apply dropwhile_incl in H.
Qed.

Lemma split_once_spec (d : ascii) (t a b : str) :
  split_once d t = Some (a, b) -> t = a ++ d :: b /\ ~ In d a.
Proof.
  revert a b. induction t as [|c t IH]; intros a b H; simpl in H; [discriminate|].
  destruct (chr_eq d c) eqn:E.
  - injection H as <- <-. apply chr_eq_true in E. subst c. split; [reflexivity|intros []].
  - destruct (split_once d t) as [[a' b']|]; [|discriminate].
    injection H as <- <-. destruct (IH a' b' eq_refl) as [-> Hn].
    split; [reflexivity|]. intros [Hc|Hc]; [|contradiction].
    apply chr_eq_false in E. congruence.
Qed.

(** X19. In the mapping [_parse_kv] returns every key is stripped and holds
    no colon, and no value has a double quote left at either end; a text
    without a colon in any line gives the empty mapping. *)
Theorem parse_kv_entries (s : str) :
  Forall parsed_pair (_parse_kv s) /\
  ((forall ln, In ln (splitlines s) -> ~ In ":"%char ln) -> _parse_kv s = []).
Proof.
  unfold _parse_kv. split.
  - assert (H : forall l acc, Forall parsed_pair acc ->
              Forall parsed_pair
                (fold_left (fun out ln =>
                   match split_once ":"%char ln with
                   | Some (k, v) =>
                       dict_set (ustr_of (strip k))
                                (JStr (ustr_of (strip_chars (chr_eq DQ) (strip v)))) out
                   | None => out
                   end) l acc)).
    { induction l as [|ln l IH]; intros acc Ha; simpl; [assumption|].
      apply IH. destruct (split_once ":" ln) as [[k v]|] eqn:E; [|assumption].
      apply dict_set_Forall; [assumption|].
      exists (strip k), (strip_chars (chr_eq DQ) (strip v)). split; [reflexivity|].
      split; [apply strip_chars_idem|]. split; [|apply strip_chars_idem].
      intros Hc. apply strip_chars_incl in Hc. apply split_once_spec in E. tauto. }
    apply H. constructor.
  - generalize (splitlines s). intros l Hl.
    induction l as [|ln l IH]; simpl; [reflexivity|].
    destruct (split_once ":" ln) as [[k v]|] eqn:E.
    + exfalso. apply split_once_spec in E. destruct E as [-> _].
      apply (Hl (k ++ ":"%char :: v)); [now left|]. apply in_or_app. right. now left.
    + apply IH. intros ln' H'. apply Hl. now right.
Qed.

(** X20. In the mapping [_extract_kv_pairs] returns every key and every
    value is stripped of surrounding whitespace. *)
Theorem extract_kv_pairs_entries (s : str) : Forall salvaged_pair (_extract_kv_pairs s).
Proof.
  unfold _extract_kv_pairs. generalize (finditer NPat.kv_pair s). intros l.
  assert (H : forall acc, Forall salvaged_pair acc ->
            Forall salvaged_pair
              (fold_left (fun out m =>
                 dict_set (ustr_of (strip (group_text s m 1)))
                   (JStr (ustr_of (strip (strip_chars (chr_eq SQ)
                       (strip_chars (chr_eq DQ) (strip (group_text s m 2))))))) out) l acc)).
  { induction l as [|m l IH]; intros acc Ha; simpl; [assumption|].
    apply IH. apply dict_set_Forall; [assumption|].
    eexists. eexists. split; [reflexivity|]. split; apply strip_chars_idem. }
  apply H. constructor.
Qed.

Lemma no_break_written (kv : str * str) : plain_pair kv -> no_break (written_pair kv).
Proof.
  intros (Hk & Hv & _). unfold written_pair, no_break.
  apply Forall_app. split; [assumption|].
  apply Forall_app. split; [|assumption]. repeat constructor.
Qed.

Lemma splitlines_written (ps : list (str * str)) :
  Forall plain_pair ps -> splitlines (written_pairs ps) = map written_pair ps.
Proof.
  induction 1 as [|kv ps Hkv Hps IH]; [reflexivity|].
  destruct ps as [|kv' ps].
  - simpl. rewrite splitlines_no_break by now apply no_break_written.
    unfold written_pair. destruct (fst kv); reflexivity.
  - change (written_pairs (kv :: kv' :: ps))
      with (written_pair kv ++ LF :: written_pairs (kv' :: ps)).
    rewrite splitlines_break; [now rewrite IH| now apply no_break_written|reflexivity|].
    intros H. discriminate H.
Qed.

Lemma split_once_first (d : ascii) (a b : str) :
  ~ In d a -> split_once d (a ++ d :: b) = Some (a, b).
Proof.
  induction a as [|c a IH]; intros Hn; simpl.
  - change (chr_eq d d) with (Ascii.eqb d d). now rewrite Ascii.eqb_refl.
  - destruct (chr_eq d c) eqn:E.
    + apply chr_eq_true in E. subst c. exfalso. apply Hn. now left.
    + rewrite IH; [reflexivity|]. intros H. apply Hn. now right.
Qed.

Lemma ustr_of_inj (a b : str) : ustr_of a = ustr_of b -> a = b.
Proof.
  revert b. induction a as [|x a IH]; intros [|y b] H; simpl in H; try discriminate;
    [reflexivity|].
  injection H as H1 H2. f_equal; [|now apply IH].
  rewrite <- (ascii_N_embedding x), <- (ascii_N_embedding y). now rewrite H1.
Qed.

Lemma dict_set_fresh {A : Type} (k : ustr) (v : A) (d : list (ustr * A)) :
  ~ In k (map fst d) -> dict_set k v d = d ++ [(k, v)].
Proof.
  induction d as [|[k' v'] d IH]; intros Hn; simpl; [reflexivity|].
  destruct (ustr_eqb k k') eqn:E.
  - exfalso. apply Hn. left. apply ustr_eqb_eq in E. now subst.
  - rewrite IH; [reflexivity|]. intros H. apply Hn. now right.
Qed.

(** X21. [_parse_kv] reads back what is written as lines [k: v]: for plain
    keys and values, with distinct keys, it returns the pairs in their order. *)
Theorem parse_kv_reads_written_pairs (ps : list (str * str)) :
  Forall plain_pair ps -> NoDup (map fst ps) ->
  _parse_kv (written_pairs ps)
  = map (fun kv => (ustr_of (fst kv), JStr (ustr_of (snd kv)))) ps.
Proof.
  intros Hp Hn. unfold _parse_kv. rewrite (splitlines_written ps Hp).
  set (entry := fun kv : str * str => (ustr_of (fst kv), JStr (ustr_of (snd kv)))).
  assert (H : forall (pre : list (str * str)),
            NoDup (map fst (pre ++ ps)) ->
            fold_left (fun out ln =>
               match split_once ":"%char ln with
               | Some (k, v) =>
                   dict_set (ustr_of (strip k))
                            (JStr (ustr_of (strip_chars (chr_eq DQ) (strip v)))) out
               | None => out
               end) (map written_pair ps) (map entry pre)
            = map entry (pre ++ ps)).
  { induction Hp as [|[k v] ps (Hk & Hv & Hsk & Hck & Hsv & Hqv) Hps IH]; intros pre Hnd.
    - simpl. now rewrite app_nil_r.
    - simpl in Hk, Hv, Hsk, Hck, Hsv, Hqv. cbn [map fold_left].
      change (written_pair (k, v)) with (k ++ ":"%char :: " "%char :: v).
      rewrite (split_once_first ":" k (" "%char :: v) Hck).
      assert (Es : strip (" "%char :: v) = v).
      { unfold strip, strip_chars in *. simpl. exact Hsv. }
      rewrite Es, Hsk, Hqv.
      rewrite dict_set_fresh.
      + replace (map entry pre ++ [(ustr_of k, JStr (ustr_of v))])
          with (map entry (pre ++ [(k, v)])) by (rewrite map_app; reflexivity).
        rewrite IH.
        * now rewrite <- app_assoc.
        * now inversion Hn.
        * rewrite <- app_assoc. exact Hnd.
      + rewrite map_map. cbn [entry fst]. intros Hin. apply in_map_iff in Hin.
        destruct Hin as ([k' v'] & Hkk & Hin). simpl in Hkk. apply ustr_of_inj in Hkk. subst k'.
        rewrite map_app in Hnd. simpl in Hnd. apply NoDup_remove_2 in Hnd.
        apply Hnd. apply in_or_app. left. apply in_map_iff. exists (k, v'). auto. }
  apply (H []). exact Hn.
Qed.

(** X21 at two lines. *)
Lemma parse_kv_reads_written_pairs_witness :
  _parse_kv (esc "host: example\nport: 8080")
  = [(ustr_of (lit "host"), JStr (ustr_of (lit "example")));
     (ustr_of (lit "port"), JStr (ustr_of (lit "8080")))].
Proof.
  apply (parse_kv_reads_written_pairs [(lit "host", lit "example"); (lit "port", lit "8080")]).
  - repeat constructor; simpl; try (intuition discriminate).
  - repeat constructor; simpl; intuition discriminate.
Defined.

(** ** Utilities, occupancy and the line table *)

Lemma is_prefix_spec (p t : str) :
  is_prefix p t = true <-> exists b, t = p ++ b.
Proof.
  revert t. induction p as [|x p IH]; intros t; simpl.
  - split; [eauto|reflexivity].
  - destruct t as [|y t]; [split; [discriminate|intros (b & H); discriminate]|].
    rewrite andb_true_iff, Ascii.eqb_eq, IH. split.
    + intros (-> & b & ->). eauto.
    + intros (b & H). injection H as -> ->. eauto.
Qed.

Lemma contains_sub_spec (p t : str) :
  contains_sub p t = true <-> exists a b, t = a ++ p ++ b.
Proof.
  induction t as [|c t IH]; simpl.
  - rewrite orb_false_r, is_prefix_spec. split.
    + intros (b & H). exists [], b. exact H.
    + intros (a & b & H). destruct a; [|discriminate]. simpl in H.
      destruct p; [|discriminate]. exists []. reflexivity.
  - rewrite orb_true_iff, is_prefix_spec, IH. split.
    + intros [(b & H)|(a & b & ->)]; [exists [], b; exact H|exists (c :: a), b; reflexivity].
    + intros (a & b & H). destruct a as [|x a]; [left; exists b; exact H|].
      right. injection H as -> ->. eauto.
Qed.

(** X22. [contains_any(chars, needles)] holds exactly when one of the
    needles occurs in [chars] as a substring. *)
Theorem contains_any_spec (chars : str) (needles : list str) :
  contains_any chars needles = true <->
  exists n a b, In n needles /\ chars = a ++ n ++ b.
Proof.
  unfold contains_any. rewrite existsb_exists. split.
  - intros (n & Hn & H). apply contains_sub_spec in H. destruct H as (a & b & H). eauto.
  - intros (n & a & b & Hn & H). exists n. split; [assumption|].
    apply contains_sub_spec. eauto.
Qed.

Lemma overlaps_spec (s e a b : nat) : overlaps s e (a, b) = true <-> a < e /\ s < b.
Proof.
  unfold overlaps. simpl. rewrite negb_true_iff, orb_false_iff, !Nat.leb_gt. tauto.
Qed.

Lemma is_occupied_spec (d : detector) (s e : nat) :
  is_occupied d s e = true <-> exists a b, In (a, b) (occupied d) /\ a < e /\ s < b.
Proof.
  unfold is_occupied. rewrite existsb_exists. split.
  - intros ([a b] & Hin & H). apply overlaps_spec in H. eauto.
  - intros (a & b & Hin & H). exists (a, b). split; [assumption|]. now apply overlaps_spec.
Qed.

(** X23. After [add_block(b)] a span [[s, e)] is occupied exactly when it was
    occupied before, or [b] has a reserving format and its span meets
    [[s, e)]: blocks of the other formats reserve nothing. *)
Theorem add_block_reserves (d : detector) (b : DetectedBlock) (s e : nat) :
  is_occupied (add_block d b) s e = true <->
  is_occupied d s e = true \/
  (In (format_type b) reserving /\ start_index b < e /\ s < end_index b).
Proof.
  rewrite !is_occupied_spec. unfold add_block.
  destruct (existsb (String.eqb (format_type b)) reserving) eqn:E; simpl.
  - apply reserving_spec in E. split.
    + intros (a & c & Hin & H). apply in_app_or in Hin.
      destruct Hin as [Hin|[Hin|[]]]; [left; eauto|]. injection Hin as <- <-. right. tauto.
    + intros [(a & c & Hin & H)|(_ & H)].
      * exists a, c. split; [apply in_or_app; now left|assumption].
      * exists (start_index b), (end_index b). split; [apply in_or_app; right; now left|assumption].
  - split; [auto|]. intros [H|(H & _)]; [assumption|].
    apply reserving_spec in H. congruence.
Qed.

Lemma line_offset_succ (lines : list str) : forall k,
  k < List.length lines ->
  line_offset lines (S k) = line_offset lines k + List.length (nth k lines []) + 1.
Proof.
  induction lines as [|ln rest IH]; intros k Hk; simpl in Hk; [lia|].
  destruct k as [|k].
  - destruct rest; simpl; lia.
  - change (line_offset (ln :: rest) (S (S k)))
      with (List.length ln + 1 + line_offset rest (S k)).
    rewrite IH by lia. simpl. lia.
Qed.

Lemma char_pos_length (lines : list str) :
  List.length (char_pos_of lines) = S (List.length lines).
Proof.
  unfold char_pos_of. rewrite (char_pos_fold lines [0] 0); [|reflexivity|discriminate].
  rewrite length_app, length_map, length_seq. reflexivity.
Qed.

(** X24. The line table has one entry more than there are lines, starts at 0,
    adds the length of a line plus one at each step, is strictly increasing,
    and the end it gives for a line never lies beyond the end of the text. *)
Theorem char_pos_table (t : str) :
  List.length (char_pos t) = S (List.length (text_lines t)) /\
  nth 0 (char_pos t) 0 = 0 /\
  (forall k, k < List.length (text_lines t) ->
     nth (S k) (char_pos t) 0
     = nth k (char_pos t) 0 + List.length (nth k (text_lines t) []) + 1) /\
  (forall i k, i < k -> k <= List.length (text_lines t) ->
     nth i (char_pos t) 0 < nth k (char_pos t) 0) /\
  (forall k, k < List.length (text_lines t) ->
     nth k (char_pos t) 0 + List.length (nth k (text_lines t) []) <= List.length t).
Proof.
  unfold char_pos. split; [apply char_pos_length|]. split; [now rewrite char_pos_nth by lia|].
  split; [|split].
  - intros k Hk. rewrite !char_pos_nth by lia. now apply line_offset_succ.
  - intros i k Hik Hk. rewrite !char_pos_nth by lia.
    apply Nat.lt_le_trans with (line_offset (text_lines t) (S i)).
    + rewrite line_offset_succ by lia. lia.
    + apply line_offset_mono. lia.
  - apply line_end_bound.
Qed.

(** ** Texts without the characters a pattern needs *)

Lemma runs_nth (q : ascii -> bool) (rest : str) :
  forall (hi : option nat) (pos : nat) (prev : option ascii) caps (k : nat) (s' : mstate),
  nth_error (runs q hi pos prev rest caps) k = Some s' ->
  exists w, List.length w = k /\ rest = w ++ m_rest s' /\ Forall (fun c => q c = true) w.
Proof.
  induction rest as [|c rest IH]; intros hi pos prev caps k s' H; simpl in H.
  - destruct k as [|k]; simpl in H; [|destruct k; discriminate].
    injection H as <-. exists []. simpl. auto.
  - destruct k as [|k]; simpl in H.
    + injection H as <-. exists []. simpl. auto.
    + destruct (q c && hi_allows hi) eqn:E; [|destruct k; discriminate].
      apply andb_true_iff in E. destruct E as [E _].
      apply IH in H. destruct H as (w & Hl & -> & Hw).
      exists (c :: w). simpl. split; [lia|]. split; [reflexivity|]. now constructor.
Qed.

Ltac same_state H :=
  repeat match type of H with
  | In _ (match ?x with _ => _ end) => destruct x
  end;
  simpl in H; try contradiction; (destruct H as [H|H]; [symmetry; exact H|contradiction]).

Lemma rmatch_consumes (p : ascii -> bool) (r : regex) : forall (s s' : mstate),
  In s' (rmatch r s) ->
  exists w, m_rest s = w ++ m_rest s' /\
            (needs p r -> exists c, In c w /\ p c = true).
Proof.
  induction r as [|q|a IHa b IHb|a IHa b IHb|g lo hi q|a IHa|i a IHa|ml| | |q|q];
    intros s s' H; simpl in H.
  - destruct H as [<-|[]]. exists []. split; [reflexivity|intros []].
  - destruct (m_rest s) as [|c rest] eqn:Er; [destruct H|].
    destruct (q c) eqn:Eq; [|destruct H]. destruct H as [<-|[]].
    exists [c]. split; [reflexivity|]. intros Hn. exists c. split; [now left|]. now apply Hn.
  - apply in_flat_map in H. destruct H as (s1 & H1 & H2).
    apply IHa in H1. apply IHb in H2.
    destruct H1 as (w1 & E1 & N1). destruct H2 as (w2 & E2 & N2).
    exists (w1 ++ w2). split; [rewrite E1, E2; now rewrite app_assoc|].
    intros [Hn|Hn].
    + destruct (N1 Hn) as (c & Hc & Hp). exists c. split; [apply in_or_app; now left|assumption].
    + destruct (N2 Hn) as (c & Hc & Hp). exists c. split; [apply in_or_app; now right|assumption].
  - apply in_app_or in H. destruct H as [H|H].
    + apply IHa in H. destruct H as (w & E & N). exists w. split; [assumption|]. intros [Hn _]. auto.
    + apply IHb in H. destruct H as (w & E & N). exists w. split; [assumption|]. intros [_ Hn]. auto.
  - assert (Hin : In s' (skipn lo (runs q hi (m_pos s) (m_prev s) (m_rest s) (m_caps s))))
      by (destruct g; [now apply in_rev in H|assumption]).
    apply In_nth_error in Hin. destruct Hin as (j & Hj).
    rewrite nth_error_skipn in Hj. apply runs_nth in Hj.
    destruct Hj as (w & Hl & E & Hw). exists w. split; [assumption|].
    intros [Hlo Hq]. destruct w as [|c w]; [simpl in Hl; lia|].
    exists c. split; [now left|]. inversion Hw; subst. auto.
  - apply in_app_or in H. destruct H as [H|[<-|[]]].
    + apply IHa in H. destruct H as (w & E & _). exists w. split; [assumption|intros []].
    + exists []. split; [reflexivity|intros []].
  - apply in_map_iff in H. destruct H as (s1 & <- & H).
    apply IHa in H. destruct H as (w & E & N). exists w. split; [exact E|exact N].
  - assert (E : s' = s) by same_state H. subst s'. exists []. split; [reflexivity|intros []].
  - assert (E : s' = s) by same_state H. subst s'. exists []. split; [reflexivity|intros []].
  - assert (E : s' = s) by same_state H. subst s'. exists []. split; [reflexivity|intros []].
  - assert (E : s' = s) by same_state H. subst s'. exists []. split; [reflexivity|intros []].
  - assert (E : s' = s) by same_state H. subst s'. exists []. split; [reflexivity|intros []].
Qed.

Lemma match_at_needs (p : ascii -> bool) (r : regex) (pos : nat) (prev : option ascii)
    (rest : str) :
  needs p r -> Forall (fun c => p c = false) rest -> match_at r pos prev rest = None.
Proof.
  intros Hn Hf. unfold match_at.
  destruct (rmatch r _) as [|s' l] eqn:E; [reflexivity|]. exfalso.
  destruct (rmatch_consumes p r (MState pos prev rest []) s') as (w & Ew & N).
  { rewrite E. now left. }
  simpl in Ew. destruct (N Hn) as (c & Hc & Hp).
  rewrite Forall_forall in Hf. rewrite (Hf c) in Hp; [discriminate|].
  rewrite Ew. apply in_or_app. now left.
Qed.

Lemma search_from_needs (p : ascii -> bool) (r : regex) (rest : str) :
  needs p r -> forall (pos : nat) (prev : option ascii),
  Forall (fun c => p c = false) rest -> search_from r pos prev rest = None.
Proof.
  intros Hn. induction rest as [|c rest IH]; intros pos prev Hf; simpl;
    rewrite (match_at_needs p r _ _ _ Hn Hf); [reflexivity|].
  apply IH. now inversion Hf.
Qed.

(** A text without a character the pattern needs has no match of it. *)
Lemma finditer_needs (p : ascii -> bool) (r : regex) (t : str) :
  needs p r -> Forall (fun c => p c = false) t -> finditer r t = [].
Proof.
  intros Hn Hf. unfold finditer. apply search_none_finditer. now apply (search_from_needs p).
Qed.

Lemma re_search_needs (p : ascii -> bool) (r : regex) (t : str) :
  needs p r -> Forall (fun c => p c = false) t -> re_search r t = None.
Proof. intros Hn Hf. unfold re_search. now apply (search_from_needs p). Qed.

Ltac char_cases :=
  let c := fresh "c" in
  intros c; destruct c as [[] [] [] [] [] [] [] []]; vm_compute;
  intros; first [reflexivity | discriminate | assumption].

Lemma needs_json_ld_ns : needs nonspace Pat.json_ld.
Proof. simpl. left. left. char_cases. Qed.
Lemma needs_yaml_ns : needs nonspace Pat.yaml_frontmatter.
Proof. simpl. right. left. left. char_cases. Qed.
Lemma needs_section_ns : needs nonspace Pat.section_header.
Proof. simpl. right. left. left. char_cases. Qed.
Lemma needs_lbrace_ns : needs nonspace Pat.lbrace.
Proof. simpl. char_cases. Qed.
Lemma needs_table_ns : needs nonspace Pat.table_open.
Proof. simpl. left. left. char_cases. Qed.
Lemma needs_block_ns : needs nonspace Pat.block_open.
Proof. simpl. left. char_cases. Qed.
Lemma needs_js_ns : needs nonspace Pat.js_assign.
Proof. simpl. right. left. repeat split; left; char_cases. Qed.
Lemma needs_sql_ns : needs nonspace Pat.sql_stmt.
Proof. simpl. right. left. repeat split; left; char_cases. Qed.
Lemma needs_kv_first : needs (one_of ":=") Pat.kv_first.
Proof. simpl. do 6 right. left. char_cases. Qed.

Lemma splitlines_aux_chars (t : str) : forall (cur : str) (cr : bool) (ln : str),
  In ln (splitlines_aux cur cr t) -> forall c, In c ln -> In c cur \/ In c t.
Proof.
  induction t as [|x t IH]; intros cur cr ln H c Hc; simpl in H.
  - destruct cur as [|y cur]; [destruct H|]. destruct H as [<-|[]].
    left. now apply in_rev.
  - destruct (cr && chr_eq LF x).
    + destruct (IH [] false ln H c Hc) as [[]|H']. right. now right.
    + destruct (is_linebreak x).
      * destruct H as [<-|H]; [left; now apply in_rev|].
        destruct (IH [] _ ln H c Hc) as [[]|H']. right. now right.
      * destruct (IH (x :: cur) false ln H c Hc) as [[<-|H']|H'];
          [right; now left|now left|right; now right].
Qed.

(** The characters of a line are characters of the text. *)
Lemma splitlines_chars (t ln : str) (c : ascii) :
  In ln (splitlines t) -> In c ln -> In c t.
Proof.
  intros H Hc. destruct (splitlines_aux_chars t [] false ln H c Hc) as [[]|H']. exact H'.
Qed.

Lemma dropwhile_all (p : ascii -> bool) (s : str) :
  Forall (fun c => p c = true) s -> dropwhile p s = [].
Proof. induction 1 as [|c s Hc Hs IH]; simpl; [reflexivity|]. now rewrite Hc. Qed.

Lemma strip_blank (s : str) : blank s -> strip s = [].
Proof. intros H. unfold strip, strip_chars. now rewrite (dropwhile_all _ _ H). Qed.

Lemma blank_nonspace (t : str) : blank t -> Forall (fun c => nonspace c = false) t.
Proof.
  apply Forall_impl. intros c H. unfold nonspace. now rewrite H.
Qed.

Lemma blank_lines (t : str) (i : nat) : blank t -> blank (nth i (text_lines t) []).
Proof.
  intros H. destruct (Nat.lt_ge_cases i (List.length (text_lines t))) as [Hi|Hi].
  - apply Forall_forall. intros c Hc. unfold blank in H. rewrite Forall_forall in H.
    apply H. eapply splitlines_chars; [|exact Hc]. apply nth_In. exact Hi.
  - rewrite nth_overflow by assumption. constructor.
Qed.

Lemma csv_loop_skips (t : str) (d : detector) :
  (forall i, strip (nth i (text_lines t) []) = []) ->
  forall fuel i, i <= List.length (text_lines t) -> List.length (text_lines t) < fuel + i ->
                 csv_loop t fuel i d = Some d.
Proof.
  intros Hb. induction fuel as [|fuel IH]; intros i Hi Hf; cbn [csv_loop]; [lia|].
  destruct (i <? List.length (text_lines t)) eqn:Ei; [|reflexivity].
  apply Nat.ltb_lt in Ei.
  rewrite Hb. cbn [str_eqb]. apply IH; lia.
Qed.

Lemma kv_loop_skips (t : str) (d : detector) :
  (forall i, matches Pat.kv_first (nth i (text_lines t) []) = false) ->
  forall fuel i, i <= List.length (text_lines t) -> List.length (text_lines t) < fuel + i ->
                 kv_loop t fuel i d = Some d.
Proof.
  intros Hb. induction fuel as [|fuel IH]; intros i Hi Hf; cbn [kv_loop]; [lia|].
  destruct (i <? List.length (text_lines t)) eqn:Ei; [|reflexivity].
  apply Nat.ltb_lt in Ei.
  rewrite Hb. apply IH; lia.
Qed.

Lemma blank_no_key (s : str) : blank s -> Forall (fun c => one_of ":=" c = false) s.
Proof.
  apply Forall_impl. intros c. revert c.
  intros c; destruct c as [[] [] [] [] [] [] [] []]; vm_compute; intros;
    first [reflexivity | discriminate].
Qed.

(** X25. For a text of whitespace only, the empty text included,
    [parse_file] returns no fragment, an empty summary and no record. *)
Theorem blank_text_yields_nothing (t : str) :
  blank t -> parse_file t = Some (mkResult [] [] []).
Proof.
  intros Hb. pose proof (blank_nonspace t Hb) as Hn.
  assert (Hrun : run_all t = Some []).
  { unfold run_all.
    unfold detect_json_ld. rewrite (finditer_needs _ _ _ needs_json_ld_ns Hn). cbn [fold_left].
    unfold detect_yaml_frontmatter. rewrite (finditer_needs _ _ _ needs_yaml_ns Hn).
    cbn [fold_left].
    unfold detect_sectioned_jsons. rewrite (finditer_needs _ _ _ needs_section_ns Hn).
    cbn [fold_left].
    unfold detect_jsons_global. cbn [jsons_global_loop skipn].
    rewrite (re_search_needs _ _ _ needs_lbrace_ns Hn).
    unfold detect_html_tables_and_blocks, detect_html_tables, detect_html_blocks.
    rewrite (finditer_needs _ _ _ needs_table_ns Hn). cbn [fold_left].
    rewrite (finditer_needs _ _ _ needs_block_ns Hn). cbn [fold_left].
    unfold detect_js_objects. rewrite (finditer_needs _ _ _ needs_js_ns Hn). cbn [fold_left].
    unfold detect_csv_blocks. rewrite csv_loop_skips; [|intros i; apply strip_blank, blank_lines, Hb|lia|lia].
    unfold detect_key_values. rewrite kv_loop_skips; [| |lia|lia].
    2:{ intros i. unfold matches, re_match_start.
        rewrite (match_at_needs _ _ _ _ _ needs_kv_first); [reflexivity|].
        apply blank_no_key, blank_lines, Hb. }
    unfold detect_sql. rewrite (finditer_needs _ _ _ needs_sql_ns Hn). cbn [fold_left].
    unfold detect_raw_text, free_spans.
    cbn [init_detector occupied sorted_by fold_right fold_left].
    unfold raw_span, span_text, self_n. rewrite slice_full, (strip_blank t Hb).
    reflexivity. }
  unfold parse_file. rewrite Hrun. reflexivity.
Qed.

(** X25 at a text of blanks, a newline and a tab. *)
Lemma blank_text_yields_nothing_witness :
  blank (esc " \n\t ") /\ parse_file (esc " \n\t ") = Some (mkResult [] [] []).
Proof.
  assert (H : blank (esc " \n\t ")) by (repeat constructor).
  split; [exact H|]. exact (blank_text_yields_nothing _ H).
Defined.

Lemma absent_char (a : ascii) (t : str) :
  ~ In a t -> Forall (fun c => chr_eq a c = false) t.
Proof.
  intros H. apply Forall_forall. intros c Hc. apply chr_eq_false. intros ->. contradiction.
Qed.

Lemma needs_json_ld_lt : needs (chr_eq "<") Pat.json_ld.
Proof. simpl. left. left. char_cases. Qed.
Lemma needs_table_lt : needs (chr_eq "<") Pat.table_open.
Proof. simpl. left. left. char_cases. Qed.
Lemma needs_block_lt : needs (chr_eq "<") Pat.block_open.
Proof. simpl. left. char_cases. Qed.
Lemma needs_lbrace_br : needs (chr_eq "{") Pat.lbrace.
Proof. simpl. auto. Qed.
Lemma needs_js_br : needs (chr_eq "{") Pat.js_assign.
Proof. simpl. do 7 right. auto. Qed.

Lemma fragments_formats (t : str) (fmts : list string) (d : detector) :
  run_all t = Some (_dedupe_prioritize (sorted_by start_le (blocks d))) ->
  grows (adds fmts []) init_detector d ->
  forall r b, parse_file t = Some r -> In b (fragments r) -> In (format_type b) fmts.
Proof.
  intros Hrun Hg r b Hr Hb. unfold parse_file in Hr. rewrite Hrun in Hr. injection Hr as <-.
  simpl in Hb. apply dedupe_sub in Hb. destruct Hb as (x & -> & Hx).
  apply sorted_by_In in Hx.
  assert (T0 : reserved_tracked init_detector) by (intros k []).
  destruct (grows_stage fmts [] init_detector d T0 Hg) as (_ & new & Hn & HF & _).
  simpl in Hn. rewrite Hn in Hx. rewrite Forall_forall in HF. apply (HF x Hx).
Qed.

Ltac chain lem :=
  eapply grows_trans; [eapply grows_adds_weaken; [| |lem]|]; [fmts_sub|guard_sub|].
Ltac chain_end lem :=
  eapply grows_adds_weaken; [| |lem]; [fmts_sub|guard_sub].

(** X26. On a text without the character [<] no fragment of type JSON_LD,
    HTML_TABLE or HTML is returned. *)
Theorem no_markup_without_angle_bracket (t : str) (r : result) (b : DetectedBlock) :
  ~ In "<"%char t -> parse_file t = Some r -> In b (fragments r) ->
  ~ In (format_type b) ["JSON_LD"; "HTML_TABLE"; "HTML"]%string.
Proof.
  intros Hno Hr Hb. apply absent_char in Hno.
  set (d0 := detect_sectioned_jsons t (detect_yaml_frontmatter t init_detector)).
  destruct (detect_jsons_global_ext t d0) as (d1 & E1 & _).
  destruct (detect_csv_blocks_ext t (detect_js_objects t d1)) as (d3 & E3 & _).
  destruct (detect_key_values_ext t d3) as (d4 & E4 & _).
  assert (Hrun : run_all t = Some (_dedupe_prioritize (sorted_by start_le
                   (blocks (detect_raw_text t (detect_sql t d4)))))).
  { unfold run_all.
    unfold detect_json_ld. rewrite (finditer_needs _ _ _ needs_json_ld_lt Hno). cbn [fold_left].
    fold d0. rewrite E1.
    unfold detect_html_tables_and_blocks, detect_html_tables, detect_html_blocks.
    rewrite (finditer_needs _ _ _ needs_table_lt Hno). cbn [fold_left].
    rewrite (finditer_needs _ _ _ needs_block_lt Hno). cbn [fold_left].
    rewrite E3, E4. reflexivity. }
  assert (Hg : grows (adds ["YAML_FRONTMATTER"; "JSON"; "MALFORMED_JSON"; "JS_OBJECT"; "CSV";
                            "CSV_NO_HEADER"; "KEY_VALUE"; "SQL"; "RAW_TEXT"]%string [])
                     init_detector (detect_raw_text t (detect_sql t d4))).
  { chain ltac:(apply detect_yaml_frontmatter_grows).
    chain ltac:(apply detect_sectioned_jsons_grows). fold d0.
    chain ltac:(eapply jsons_global_loop_grows; exact E1).
    chain ltac:(apply detect_js_objects_grows).
    chain ltac:(eapply csv_loop_grows; exact E3).
    chain ltac:(eapply kv_loop_grows; exact E4).
    chain ltac:(apply detect_sql_grows).
    chain_end ltac:(apply detect_raw_text_grows). }
  pose proof (fragments_formats t _ _ Hrun Hg r b Hr Hb) as Hf.
  intros Hbad. simpl in Hf, Hbad.
  repeat match goal with H : _ \/ _ |- _ => destruct H end;
    try contradiction; congruence.
Qed.

Lemma find_json_span_no_brace (t : str) (p m : nat) :
  ~ In "{"%char t -> find_json_span t p m = None.
Proof.
  intros Hno. pose proof (find_json_span_cases t p m) as H.
  destruct (find_json_span t p m) as [[s e]|]; [|reflexivity].
  destruct H as ((_ & Hb & _) & _). exfalso. apply Hno. eapply nth_error_In; eassumption.
Qed.

Lemma detect_sectioned_jsons_no_brace (t : str) (d : detector) :
  ~ In "{"%char t ->
  grows (adds ["MALFORMED_JSON"%string] []) d (detect_sectioned_jsons t d).
Proof.
  intros Hno. unfold detect_sectioned_jsons. apply grows_fold. intros d0 m.
  destruct (group_span m 2) as [hs he].
  destruct (strip (span_text t _ _)) as [|c0 body]; [constructor|].
  destruct (contains_sub _ _ && _); [|constructor].
  rewrite (find_json_span_no_brace t _ _ Hno).
  destruct (negb _); [|constructor].
  apply grows_one. adds_intro; [intros []|]. facts_by conf_listed.
Qed.

(** X27. On a text without an opening brace no fragment of type JSON or
    JS_OBJECT is returned. *)
Theorem no_json_without_brace (t : str) (r : result) (b : DetectedBlock) :
  ~ In "{"%char t -> parse_file t = Some r -> In b (fragments r) ->
  ~ In (format_type b) ["JSON"; "JS_OBJECT"]%string.
Proof.
  intros Hno Hr Hb. pose proof (absent_char _ _ Hno) as Hf0.
  set (d0 := detect_sectioned_jsons t (detect_yaml_frontmatter t (detect_json_ld t init_detector))).
  set (dH := detect_html_tables_and_blocks t d0).
  destruct (detect_csv_blocks_ext t dH) as (d3 & E3 & _).
  destruct (detect_key_values_ext t d3) as (d4 & E4 & _).
  assert (Hrun : run_all t = Some (_dedupe_prioritize (sorted_by start_le
                   (blocks (detect_raw_text t (detect_sql t d4)))))).
  { unfold run_all. fold d0.
    unfold detect_jsons_global. cbn [jsons_global_loop skipn].
    rewrite (re_search_needs _ _ _ needs_lbrace_br Hf0). fold dH.
    unfold detect_js_objects. rewrite (finditer_needs _ _ _ needs_js_br Hf0). cbn [fold_left].
    rewrite E3, E4. reflexivity. }
  assert (Hg : grows (adds ["JSON_LD"; "YAML_FRONTMATTER"; "MALFORMED_JSON"; "HTML_TABLE"; "HTML";
                            "CSV"; "CSV_NO_HEADER"; "KEY_VALUE"; "SQL"; "RAW_TEXT"]%string [])
                     init_detector (detect_raw_text t (detect_sql t d4))).
  { chain ltac:(apply detect_json_ld_grows).
    chain ltac:(apply detect_yaml_frontmatter_grows).
    chain ltac:(apply (detect_sectioned_jsons_no_brace t _ Hno)). fold d0.
    unfold dH, detect_html_tables_and_blocks in *.
    chain ltac:(apply detect_html_tables_grows).
    chain ltac:(apply detect_html_blocks_grows).
    chain ltac:(eapply csv_loop_grows; exact E3).
    chain ltac:(eapply kv_loop_grows; exact E4).
    chain ltac:(apply detect_sql_grows).
    chain_end ltac:(apply detect_raw_text_grows). }
  pose proof (fragments_formats t _ _ Hrun Hg r b Hr Hb) as Hf.
  intros Hbad. simpl in Hf, Hbad.
  repeat match goal with H : _ \/ _ |- _ => destruct H end;
    try contradiction; congruence.
Qed.

Lemma dropwhile_length (p : ascii -> bool) (s : str) :
  List.length (dropwhile p s) <= List.length s.
Proof. induction s as [|c s IH]; simpl; [lia|]. destruct (p c); simpl; lia. Qed.

Lemma strip_chars_length (p : ascii -> bool) (s : str) :
  List.length (strip_chars p s) <= List.length s.
Proof.
  unfold strip_chars. rewrite length_rev.
  eapply Nat.le_trans; [apply dropwhile_length|]. rewrite length_rev. apply dropwhile_length.
Qed.

Lemma slice_length_text (t : str) (a b : nat) : List.length (slice t a b) <= List.length t.
Proof. unfold slice. rewrite length_firstn, length_skipn. lia. Qed.

(** On a text of fewer than 20 characters the RAW detector adds nothing. *)
Lemma detect_raw_text_short (t : str) (d : detector) :
  List.length t < 20 -> detect_raw_text t d = d.
Proof.
  intros Hl. unfold detect_raw_text. generalize (free_spans t d). intros spans.
  induction spans as [|[s e] spans IH]; cbn [fold_left]; [reflexivity|].
  assert (E : (20 <=? List.length (strip (span_text t s e))) = false).
  { apply Nat.leb_gt. unfold strip, span_text.
    pose proof (strip_chars_length is_space (slice t s e)).
    pose proof (slice_length_text t s e). lia. }
  replace (raw_span t d (s, e)) with d; [exact IH|].
  unfold raw_span. now rewrite E.
Qed.

(** X28. On a text of fewer than 20 characters no fragment of type RAW_TEXT
    or HTML is returned. *)
Theorem short_text_has_no_raw_or_html (t : str) (r : result) (b : DetectedBlock) :
  List.length t < 20 -> parse_file t = Some r -> In b (fragments r) ->
  ~ In (format_type b) ["RAW_TEXT"; "HTML"]%string.
Proof.
  intros Hl Hr Hb.
  set (d0 := detect_sectioned_jsons t (detect_yaml_frontmatter t (detect_json_ld t init_detector))).
  destruct (detect_jsons_global_ext t d0) as (d1 & E1 & _).
  destruct (later_detectors t d1) as (d3 & d4 & E3 & E4 & _).
  assert (Hrun : run_all t = Some (_dedupe_prioritize (sorted_by start_le
                   (blocks (detect_sql t d4))))).
  { unfold run_all. fold d0. rewrite E1, E3, E4.
    now rewrite (detect_raw_text_short t _ Hl). }
  assert (Hg : grows (adds ["JSON_LD"; "YAML_FRONTMATTER"; "JSON"; "MALFORMED_JSON";
                            "HTML_TABLE"; "HTML"; "JS_OBJECT"; "CSV"; "CSV_NO_HEADER";
                            "KEY_VALUE"; "SQL"]%string [])
                     init_detector (detect_sql t d4)).
  { chain ltac:(apply detect_json_ld_grows).
    chain ltac:(apply detect_yaml_frontmatter_grows).
    chain ltac:(apply detect_sectioned_jsons_grows). fold d0.
    chain ltac:(eapply jsons_global_loop_grows; exact E1).
    unfold detect_html_tables_and_blocks in E3.
    chain ltac:(apply detect_html_tables_grows).
    chain ltac:(apply detect_html_blocks_grows).
    chain ltac:(apply detect_js_objects_grows).
    chain ltac:(eapply csv_loop_grows; exact E3).
    chain ltac:(eapply kv_loop_grows; exact E4).
    chain_end ltac:(apply detect_sql_grows). }
  pose proof (fragments_formats t _ _ Hrun Hg r b Hr Hb) as Hf.
  intros [Hbad|[Hbad|[]]].
  - rewrite <- Hbad in Hf. simpl in Hf. intuition discriminate.
  - pose proof (bf_html b (fragment_facts t r b Hr Hb) (eq_sym Hbad)) as H20.
    destruct (fragments_emitted t r b Hr Hb) as (x & -> & ((_ & He & _) & _)).
    simpl in H20. lia.
Qed.

(** X28 at scenario C. *)
Lemma short_text_has_no_raw_or_html_witness :
  exists r b, List.length two_csv_lines < 20 /\ parse_file two_csv_lines = Some r /\
    In b (fragments r) /\ format_type b = "CSV"%string /\
    ~ In (format_type b) ["RAW_TEXT"; "HTML"]%string.
Proof.
  destruct (parse_file two_csv_lines) as [r|] eqn:Hr; [|vm_compute in Hr; discriminate].
  pose proof Hr as E. vm_compute in E. injection E as E.
  exists r, (nth 0 (fragments r) no_block).
  assert (Hl : List.length two_csv_lines < 20) by (vm_compute; lia).
  assert (Hb : In (nth 0 (fragments r) no_block) (fragments r)) by (subst r; simpl; auto).
  split; [exact Hl|]. split; [reflexivity|]. split; [exact Hb|].
  split; [subst r; reflexivity|].
  exact (short_text_has_no_raw_or_html two_csv_lines r _ Hl Hr Hb).
Defined.

Lemma needs_trailing_comma : needs (chr_eq ",") NPat.trailing_comma.
Proof. simpl. left. auto. Qed.
Lemma needs_single_quoted : needs (chr_eq SQ) NPat.single_quoted.
Proof. simpl. right. left. auto. Qed.
Lemma needs_bare_key : needs (chr_eq ":") NPat.bare_key.
Proof. simpl. do 3 right. auto. Qed.

Lemma re_sub_no_match (r : regex) (repl : re_match -> str) (t : str) :
  finditer r t = [] -> re_sub r repl t = t.
Proof. unfold re_sub. now intros ->. Qed.

(** X29. [_attempt_repair_json] returns a text without comma, single quote
    and colon unchanged. *)
Theorem attempt_repair_json_leaves_plain_text (s : str) :
  ~ In ","%char s -> ~ In SQ s -> ~ In ":"%char s -> _attempt_repair_json s = Some s.
Proof.
  intros H1 H2 H3. unfold _attempt_repair_json.
  rewrite (re_sub_no_match NPat.trailing_comma);
    [|apply (finditer_needs _ _ _ needs_trailing_comma), absent_char, H1].
  rewrite (re_sub_no_match NPat.single_quoted);
    [|apply (finditer_needs _ _ _ needs_single_quoted), absent_char, H2].
  rewrite (re_sub_no_match NPat.bare_key);
    [|apply (finditer_needs _ _ _ needs_bare_key), absent_char, H3].
  reflexivity.
Qed.

(** X29 at the literal [null]. *)
Lemma attempt_repair_json_leaves_plain_text_witness :
  _attempt_repair_json (lit "null") = Some (lit "null").
Proof.
  apply attempt_repair_json_leaves_plain_text; simpl; intuition discriminate.
Defined.

(** X26 at scenario C. *)
Lemma no_markup_without_angle_bracket_witness :
  exists r b, ~ In "<"%char two_csv_lines /\ parse_file two_csv_lines = Some r /\
    In b (fragments r) /\ format_type b = "CSV"%string /\
    ~ In (format_type b) ["JSON_LD"; "HTML_TABLE"; "HTML"]%string.
Proof.
  destruct (parse_file two_csv_lines) as [r|] eqn:Hr; [|vm_compute in Hr; discriminate].
  pose proof Hr as E. vm_compute in E. injection E as E.
  exists r, (nth 0 (fragments r) no_block).
  assert (Hno : ~ In "<"%char two_csv_lines) by (simpl; intuition discriminate).
  assert (Hb : In (nth 0 (fragments r) no_block) (fragments r)) by (subst r; simpl; auto).
  split; [exact Hno|]. split; [reflexivity|]. split; [exact Hb|].
  split; [subst r; reflexivity|].
  exact (no_markup_without_angle_bracket two_csv_lines r _ Hno Hr Hb).
Defined.

(** X27 at scenario C. *)
Lemma no_json_without_brace_witness :
  exists r b, ~ In "{"%char two_csv_lines /\ parse_file two_csv_lines = Some r /\
    In b (fragments r) /\ format_type b = "CSV"%string /\
    ~ In (format_type b) ["JSON"; "JS_OBJECT"]%string.
Proof.
  destruct (parse_file two_csv_lines) as [r|] eqn:Hr; [|vm_compute in Hr; discriminate].
  pose proof Hr as E. vm_compute in E. injection E as E.
  exists r, (nth 0 (fragments r) no_block).
  assert (Hno : ~ In "{"%char two_csv_lines) by (simpl; intuition discriminate).
  assert (Hb : In (nth 0 (fragments r) no_block) (fragments r)) by (subst r; simpl; auto).
  split; [exact Hno|]. split; [reflexivity|]. split; [exact Hb|].
  split; [subst r; reflexivity|].
  exact (no_json_without_brace two_csv_lines r _ Hno Hr Hb).
Defined.
